(** * Movie knowledge graph: construction and query operations

    A shallow embedding of [network_setup.py] (class [MovieGraph]),
    [agentic_tools.py] (the five tool classes) and [faiss_setup.py]
    (class [MovieFAISS]), together with the two networkx routines the
    graph queries call ([all_simple_paths] and [shortest_path]).

    Python values that reach the code from outside (tool arguments) are
    kept dynamically typed; exceptions are explicit in the result type. *)

From Stdlib Require Import ZArith Ascii String Lia.
From stdpp Require Import base numbers list strings gmap.

Set Warnings "-register-all,-clear-no-such-hyp".
Open Scope string_scope.
Open Scope list_scope.
Open Scope Z_scope.

(** ** Python values and exceptions *)

(** The values a tool call can carry: JSON-like data. *)
Inductive pyval :=
| PNone
| PInt (z : Z)
| PStr (s : string)
| PList (l : list pyval)
| PDict (d : list (string * pyval)).

(** The exception classes that occur in the modelled code.  [OtherError]
    stands for whatever a library call outside the model raises. *)
Inductive exn :=
| AttributeError
| TypeError
| KeyError
| ValueError
| NodeNotFound
| NetworkXNoPath
| OtherError (msg : string).

(** A computation either returns a value or raises. *)
Inductive result (A : Type) :=
| Ok (a : A)
| Raise (e : exn).
Arguments Ok {A} a.
Arguments Raise {A} e.

#[global] Instance result_ret : MRet result := λ A a, Ok a.
#[global] Instance result_bind : MBind result := λ A B f m,
  match m with
  | Ok a => f a
  | Raise e => Raise e
  end.

(** [try: body except Exception as e: handler e] *)
Definition try_except {A} (body : result A) (handler : exn → result A) : result A :=
  match body with
  | Ok a => Ok a
  | Raise e => handler e
  end.

(** A loop whose body may raise: the first exception aborts the loop. *)
Fixpoint foldlM {A B} (f : A → B → result A) (a : A) (l : list B) : result A :=
  match l with
  | [] => Ok a
  | b :: l' => a' ← f a b; foldlM f a' l'
  end.

(** ** Strings: [strip], [lower], [upper], [split("-")[0]] (ASCII range) *)

Module Str.

Definition is_upper (c : ascii) : bool :=
  let n := nat_of_ascii c in (65 <=? n)%nat && (n <=? 90)%nat.

Definition is_lower (c : ascii) : bool :=
  let n := nat_of_ascii c in (97 <=? n)%nat && (n <=? 122)%nat.

Definition lower_char (c : ascii) : ascii :=
  if is_upper c then ascii_of_nat (nat_of_ascii c + 32) else c.

Definition upper_char (c : ascii) : ascii :=
  if is_lower c then ascii_of_nat (nat_of_ascii c - 32) else c.

Fixpoint lower (s : string) : string :=
  match s with
  | EmptyString => EmptyString
  | String c s' => String (lower_char c) (lower s')
  end.

Fixpoint upper (s : string) : string :=
  match s with
  | EmptyString => EmptyString
  | String c s' => String (upper_char c) (upper s')
  end.

(** Whitespace as [str.strip()] sees it below code point 128. *)
Definition is_space (c : ascii) : bool :=
  let n := nat_of_ascii c in
  ((9 <=? n)%nat && (n <=? 13)%nat) || ((28 <=? n)%nat && (n <=? 32)%nat).

Fixpoint lstrip (s : string) : string :=
  match s with
  | EmptyString => EmptyString
  | String c s' => if is_space c then lstrip s' else s
  end.

Fixpoint rstrip (s : string) : string :=
  match s with
  | EmptyString => EmptyString
  | String c s' =>
      match rstrip s' with
      | EmptyString => if is_space c then EmptyString else String c EmptyString
      | t => String c t
      end
  end.

Definition strip (s : string) : string := rstrip (lstrip s).

(** [s.split(sep)[0]] for a one-character separator. *)
Fixpoint split_first (sep : ascii) (s : string) : string :=
  match s with
  | EmptyString => EmptyString
  | String c s' => if Ascii.eqb c sep then EmptyString else String c (split_first sep s')
  end.

(** The characters of a string, as iteration over a [str] yields them. *)
Fixpoint chars (s : string) : list string :=
  match s with
  | EmptyString => []
  | String c s' => String c EmptyString :: chars s'
  end.

End Str.

(** ** Insertion-ordered dictionaries

    Python dictionaries iterate in insertion order, and that order is
    visible in query results, so they are kept as association lists with
    at most one entry per key. *)

Section alist.
Context {K V : Type} `{EqDecision K}.

Fixpoint alist_get (k : K) (l : list (K * V)) : option V :=
  match l with
  | [] => None
  | (k', v) :: l' => if decide (k = k') then Some v else alist_get k l'
  end.

Definition alist_mem (k : K) (l : list (K * V)) : bool :=
  bool_decide (is_Some (alist_get k l)).

(** [d[k] = f(d[k])] for a key already present; no effect otherwise. *)
Fixpoint alist_alter (f : V → V) (k : K) (l : list (K * V)) : list (K * V) :=
  match l with
  | [] => []
  | (k', v) :: l' =>
      if decide (k = k') then (k', f v) :: l' else (k', v) :: alist_alter f k l'
  end.

(** [d[k] = v]: overwrite in place, or append a new key. *)
Fixpoint alist_set (k : K) (v : V) (l : list (K * V)) : list (K * V) :=
  match l with
  | [] => [(k, v)]
  | (k', v') :: l' =>
      if decide (k = k') then (k', v) :: l' else (k', v') :: alist_set k v l'
  end.
End alist.

(** ** Nodes and node attributes *)

(** Node identifiers: movie ids are integers, every other node is a
    string.  In Python an [int] key never equals a [str] key. *)
Inductive node :=
| NInt (z : Z)
| NStr (s : string).

#[global] Instance node_eq_dec : EqDecision node.
Proof. solve_decision. Defined.

#[global] Instance node_countable : Countable node.
Proof.
  refine (inj_countable'
    (λ n, match n with NInt z => inl z | NStr s => inr s end)
    (λ x, match x with inl z => NInt z | inr s => NStr s end) _).
  by intros [].
Defined.

(** The dictionary key a Python value denotes, when it is hashable and of
    a type that is used for nodes.  [None] is hashable but never a node;
    lists and dictionaries are unhashable. *)
Definition hashable (x : pyval) : bool :=
  match x with
  | PNone | PInt _ | PStr _ => true
  | PList _ | PDict _ => false
  end.

Definition as_node (x : pyval) : option node :=
  match x with
  | PInt z => Some (NInt z)
  | PStr s => Some (NStr s)
  | _ => None
  end.

(** A node's attribute dictionary.  A field is [None] when the key is
    absent from the dictionary. *)
Record attrs := {
  label : option string;
  title : option string;
  popularity : option pyval;
  vote_average : option pyval;
  overview : option pyval;
  launch_year : option string;
  keywords : option (list string);
  roles : option (gset string);
}.

Definition no_attrs : attrs :=
  {| label := None; title := None; popularity := None; vote_average := None;
     overview := None; launch_year := None; keywords := None; roles := None |}.

(** The keyword arguments [label=l]. *)
Definition label_attrs (l : string) : attrs :=
  {| label := Some l; title := None; popularity := None; vote_average := None;
     overview := None; launch_year := None; keywords := None; roles := None |}.

(** The keyword arguments [label="person", roles={job}]. *)
Definition person_attrs (job : string) : attrs :=
  {| label := Some "person"; title := None; popularity := None;
     vote_average := None; overview := None; launch_year := None;
     keywords := None; roles := Some {[ job ]} |}.

Definition keep {A} (old new : option A) : option A :=
  match new with
  | Some x => Some x
  | None => old
  end.

(** [old.update(new)] *)
Definition attrs_update (new old : attrs) : attrs :=
  {| label := keep (label old) (label new);
     title := keep (title old) (title new);
     popularity := keep (popularity old) (popularity new);
     vote_average := keep (vote_average old) (vote_average new);
     overview := keep (overview old) (overview new);
     launch_year := keep (launch_year old) (launch_year new);
     keywords := keep (keywords old) (keywords new);
     roles := keep (roles old) (roles new) |}.

(** [d.setdefault("roles", set()).add(job)] *)
Definition add_role (job : string) (a : attrs) : attrs :=
  {| label := label a; title := title a; popularity := popularity a;
     vote_average := vote_average a; overview := overview a;
     launch_year := launch_year a; keywords := keywords a;
     roles := Some (default ∅ (roles a) ∪ {[ job ]}) |}.

(** Truthiness of an attribute dictionary: [{}] is falsy. *)
Definition attrs_is_empty (a : attrs) : bool :=
  match a with
  | {| label := None; title := None; popularity := None; vote_average := None;
       overview := None; launch_year := None; keywords := None; roles := None |} => true
  | _ => false
  end.

(** ** The multigraph ([networkx.MultiDiGraph])

    [g_node] is the node dictionary [_node]; [g_succ] is the adjacency
    [_succ]: node -> neighbour -> edge key -> edge data.  Edge keys are
    0, 1, 2, ... in insertion order (no edge is ever removed) and the only
    edge attribute is [relation], so the innermost dictionary is the list
    of relation names in key order. *)

Abbreviation keydict := (list string).
Abbreviation adjacency := (list (node * keydict)).

Record MultiDiGraph := {
  g_node : list (node * attrs);
  g_succ : list (node * adjacency);
}.

Module Graph.

Definition empty : MultiDiGraph := {| g_node := []; g_succ := [] |}.

(** [n in G] on a node key. *)
Definition has_node (G : MultiDiGraph) (n : node) : bool := alist_mem n (g_node G).

(** [x in G] on any Python value: [Graph.__contains__] catches the
    [TypeError] of an unhashable value and answers [False]. *)
Definition contains (G : MultiDiGraph) (x : pyval) : bool :=
  match as_node x with
  | Some n => has_node G n
  | None => false
  end.

(** [G.nodes[n]] *)
Definition node_data (G : MultiDiGraph) (n : node) : result attrs :=
  match alist_get n (g_node G) with
  | Some a => Ok a
  | None => Raise KeyError
  end.

(** [G[u]] as an item list; empty when [u] has no adjacency entry. *)
Definition adj (G : MultiDiGraph) (u : node) : adjacency :=
  default [] (alist_get u (g_succ G)).

(** [G[u][v]]: the relations of the parallel edges from [u] to [v]. *)
Definition edge_relations (G : MultiDiGraph) (u v : node) : result keydict :=
  match alist_get u (g_succ G) with
  | None => Raise KeyError
  | Some nbrs =>
      match alist_get v nbrs with
      | None => Raise KeyError
      | Some kd => Ok kd
      end
  end.

(** [G.neighbors(u)]: the distinct successors of [u]. *)
Definition neighbors (G : MultiDiGraph) (u : node) : list node := (adj G u).*1.

(** [G.edges(u, keys=True)]: one triple per parallel edge. *)
Definition out_edges (G : MultiDiGraph) (u : node) : list (node * node * nat) :=
  mbind (M := list) (λ nbr : node * keydict,
    fmap (M := list) (λ k : nat, (u, nbr.1, k)) (seq 0 (length nbr.2))) (adj G u).

(** [add_node(n, **kw)] *)
Definition add_node (G : MultiDiGraph) (n : node) (kw : attrs) : MultiDiGraph :=
  if alist_mem n (g_succ G)
  then {| g_node := alist_alter (attrs_update kw) n (g_node G); g_succ := g_succ G |}
  else {| g_node := alist_set n kw (g_node G); g_succ := g_succ G ++ [(n, [])] |}.

(** The node-creating prelude of [add_edge]. *)
Definition ensure_node (G : MultiDiGraph) (n : node) : MultiDiGraph :=
  if alist_mem n (g_succ G) then G
  else {| g_node := alist_set n no_attrs (g_node G); g_succ := g_succ G ++ [(n, [])] |}.

Definition add_parallel (v : node) (rel : string) (nbrs : adjacency) : adjacency :=
  if alist_mem v nbrs then alist_alter (λ kd, kd ++ [rel]) v nbrs
  else nbrs ++ [(v, [rel])].

(** [add_edge(u, v, relation=rel)] with a fresh key. *)
Definition add_edge (G : MultiDiGraph) (u v : node) (rel : string) : MultiDiGraph :=
  let G := ensure_node (ensure_node G u) v in
  {| g_node := g_node G; g_succ := alist_alter (add_parallel v rel) u (g_succ G) |}.

(** [G.nodes[n].setdefault("roles", set()).add(job)] *)
Definition add_node_role (G : MultiDiGraph) (n : node) (job : string) : MultiDiGraph :=
  {| g_node := alist_alter (add_role job) n (g_node G); g_succ := g_succ G |}.

(** What networkx maintains for every graph: dictionaries have one entry
    per key, every neighbour is itself a node ([add_edge] creates missing
    endpoints), and a neighbour entry holds at least one edge. *)
Definition wf_adjacency (G : MultiDiGraph) (nbrs : adjacency) : Prop :=
  NoDup nbrs.*1 ∧ Forall (λ e : node * keydict, has_node G e.1 = true ∧ e.2 ≠ []) nbrs.

Definition wf (G : MultiDiGraph) : Prop :=
  NoDup (g_node G).*1 ∧ NoDup (g_succ G).*1 ∧
  Forall (λ e : node * adjacency, has_node G e.1 = true ∧ wf_adjacency G e.2) (g_succ G).

#[global] Instance wf_adjacency_dec G nbrs : Decision (wf_adjacency G nbrs).
Proof. unfold wf_adjacency. apply _. Defined.

#[global] Instance wf_dec G : Decision (wf G).
Proof. unfold wf. apply _. Defined.

(** There is an edge from [u] to [v] (with whatever relation). *)
Definition has_edge (G : MultiDiGraph) (u v : node) : Prop :=
  ∃ k, (u, v, k) ∈ out_edges G u.

(** The targets of the edges leaving [u] with relation [rel], one per
    edge. *)
Definition targets_in (nbrs : adjacency) (rel : string) : list node :=
  mbind (M := list) (λ e : node * keydict,
    fmap (M := list) (λ _ : string, e.1) (filter (λ r, r = rel) e.2)) nbrs.

Definition targets_by_relation (G : MultiDiGraph) (u : node) (rel : string) : list node :=
  targets_in (adj G u) rel.

(** Some edge from [u] to [v] bears the relation [rel]. *)
Definition has_rel_edge (G : MultiDiGraph) (u v : node) (rel : string) : Prop :=
  ∃ kd, edge_relations G u v = Ok kd ∧ rel ∈ kd.

(** [G.nodes[v].get("label") == "movie"] *)
Definition is_movie (G : MultiDiGraph) (v : node) : bool :=
  match alist_get v (g_node G) with
  | Some a => bool_decide (label a = Some "movie")
  | None => false
  end.

(** The neighbours of [n] labelled movie, as a set. *)
Definition movie_set (G : MultiDiGraph) (n : node) : gset node :=
  list_to_set (filter (λ v, is_movie G v = true) (neighbors G n)).

(** [rest] continues a walk that stands at [u]: each step follows an
    edge of the graph. *)
Fixpoint walk (G : MultiDiGraph) (u : node) (rest : list node) : Prop :=
  match rest with
  | [] => True
  | v :: rest' => has_edge G u v ∧ walk G v rest'
  end.

(** [p] is a directed path from [a] to [b] that repeats no node. *)
Definition simple_path (G : MultiDiGraph) (a b : node) (p : list node) : Prop :=
  match p with
  | [] => False
  | x :: rest => x = a ∧ walk G a rest ∧ last p = Some b ∧ NoDup p
  end.

(** Some directed walk leads from [a] to [b]. *)
Definition connected (G : MultiDiGraph) (a b : node) : Prop :=
  ∃ rest, walk G a rest ∧ last (a :: rest) = Some b.

End Graph.

(** ** TabularIngest: the joined table held by [MovieGraph]

    One record per row of the joined frame [movies_df].  A missing cell
    (NaN) is [None].  The four nested columns hold what
    [ast.literal_eval] and the [["name"]]/[["job"]] lookups make of the
    cell: the extracted names, or the exception they raise on a malformed
    cell. *)
Record Row := {
  r_id : Z;
  r_title : option string;
  r_release_date : option string;
  r_popularity : pyval;
  r_vote_average : pyval;
  r_overview : pyval;
  r_keywords : result (list string);
  r_genres : result (list string);
  r_cast : result (list string);
  r_crew : result (list (string * string));
  r_original_title : pyval;
  r_original_language : pyval;
  r_budget : pyval;
  r_revenue : pyval;
}.

(** [df.drop_duplicates(subset=["id"])]: the first row of each id stays. *)
Fixpoint drop_duplicates_from (seen : list Z) (df : list Row) : list Row :=
  match df with
  | [] => []
  | r :: rest =>
      if bool_decide (r_id r ∈ seen) then drop_duplicates_from seen rest
      else r :: drop_duplicates_from (r_id r :: seen) rest
  end.

Definition drop_duplicates (df : list Row) : list Row := drop_duplicates_from [] df.

(** [df.dropna(subset=["release_date"])] *)
Definition dropna_release_date (df : list Row) : list Row :=
  filter (λ r, is_Some (r_release_date r)) df.

(** ** GraphBuilder: [MovieGraph.build_graph] *)

Definition MOVIE_RELEASED_ON := "MOVIE_RELEASED_ON".
Definition YEAR_RELEASED_MOVIES := "YEAR_RELEASED_MOVIES".
Definition MOVIE_HAS_GENRE := "MOVIE_HAS_GENRE".
Definition GENRE_OF_MOVIES := "GENRE_OF_MOVIES".
Definition MOVIE_HAS_ACTOR := "MOVIE_HAS_ACTOR".
Definition ACTED_IN_MOVIES := "ACTED_IN_MOVIES".
Definition ACTOR_WORKED_WITH_DIRECTOR := "ACTOR_WORKED_WITH_DIRECTOR".
Definition DIRECTOR_WORKED_WITH_ACTOR := "DIRECTOR_WORKED_WITH_ACTOR".

(** [x.strip().lower()] *)
Definition normalize (s : string) : string := Str.lower (Str.strip s).

(** [row["release_date"].split("-")[0]] *)
Definition year_of (release_date : string) : string := Str.split_first "-" release_date.

(** The [if name not in self.Graph: add_node(...) else: ...add(job)] step
    shared by the cast and crew loops. *)
Definition add_person (G : MultiDiGraph) (name job : string) : MultiDiGraph :=
  if negb (Graph.has_node G (NStr name))
  then Graph.add_node G (NStr name) (person_attrs job)
  else Graph.add_node_role G (NStr name) job.

Definition add_genre (movie_id : node) (G : MultiDiGraph) (g : string) : MultiDiGraph :=
  let genre_name := normalize g in
  let G := Graph.add_node G (NStr genre_name) (label_attrs "genre") in
  let G := Graph.add_edge G movie_id (NStr genre_name) MOVIE_HAS_GENRE in
  Graph.add_edge G (NStr genre_name) movie_id GENRE_OF_MOVIES.

(** One iteration of the cast loop; the state is the graph and
    [actor_nodes]. *)
Definition add_actor (movie_id : node) (st : MultiDiGraph * list string) (c : string)
    : MultiDiGraph * list string :=
  let '(G, actor_nodes) := st in
  let actor_name := normalize c in
  let G := add_person G actor_name "actor" in
  let G := Graph.add_edge G movie_id (NStr actor_name) MOVIE_HAS_ACTOR in
  let G := Graph.add_edge G (NStr actor_name) movie_id ACTED_IN_MOVIES in
  (G, actor_nodes ++ [actor_name]).

Definition classify_job (job : string) : string :=
  if bool_decide (job ∈ ["director"; "producer"; "writer"]) then job
  else "supporting_crew".

Definition crew_relation (job : string) : string :=
  if bool_decide (job = "director") then "DIRECTED_MOVIES"
  else if bool_decide (job = "producer") then "PRODUCED_MOVIES"
  else if bool_decide (job = "writer") then "WROTE_MOVIES"
  else "SUPPORTED_MOVIES".

(** One iteration of the crew loop; the state is the graph and
    [director_nodes].  A crew record is the pair (job, name). *)
Definition add_crew (movie_id : node) (st : MultiDiGraph * list string)
    (member : string * string) : MultiDiGraph * list string :=
  let '(G, director_nodes) := st in
  let job := classify_job (normalize member.1) in
  let crew_member_name := normalize member.2 in
  let G := add_person G crew_member_name job in
  let director_nodes :=
    if bool_decide (job = "director") then director_nodes ++ [crew_member_name]
    else director_nodes in
  let G := Graph.add_edge G movie_id (NStr crew_member_name) ("MOVIE_HAS_" +:+ Str.upper job) in
  let G := Graph.add_edge G (NStr crew_member_name) movie_id (crew_relation job) in
  (G, director_nodes).

Definition add_pairing (G : MultiDiGraph) (actor director : string) : MultiDiGraph :=
  let G := Graph.add_edge G (NStr actor) (NStr director) ACTOR_WORKED_WITH_DIRECTOR in
  Graph.add_edge G (NStr director) (NStr actor) DIRECTOR_WORKED_WITH_ACTOR.

Definition add_pairings (G : MultiDiGraph) (actor_nodes director_nodes : list string)
    : MultiDiGraph :=
  foldl (λ G actor, foldl (λ G director, add_pairing G actor director) G director_nodes)
        G actor_nodes.

(** The body of the loop over the rows.  A NaN in [release_date] or
    [title] has no [split]/[strip]: [AttributeError]. *)
Definition build_row (G : MultiDiGraph) (row : Row) : result MultiDiGraph :=
  let movie_id := NInt (r_id row) in
  release_date ← from_option Ok (Raise AttributeError) (r_release_date row);
  let launch_year := year_of release_date in
  row_title ← from_option Ok (Raise AttributeError) (r_title row);
  kws ← r_keywords row;
  let G := Graph.add_node G movie_id
    {| label := Some "movie";
       title := Some (Str.lower (Str.strip row_title));
       popularity := Some (r_popularity row);
       vote_average := Some (r_vote_average row);
       overview := Some (r_overview row);
       launch_year := Some launch_year;
       keywords := Some kws;
       roles := None |} in
  let G := Graph.add_node G (NStr launch_year) (label_attrs "date") in
  let G := Graph.add_edge G movie_id (NStr launch_year) MOVIE_RELEASED_ON in
  let G := Graph.add_edge G (NStr launch_year) movie_id YEAR_RELEASED_MOVIES in
  genres ← r_genres row;
  let G := foldl (add_genre movie_id) G genres in
  cast ← r_cast row;
  let '(G, actor_nodes) := foldl (add_actor movie_id) (G, []) cast in
  crew ← r_crew row;
  let '(G, director_nodes) := foldl (add_crew movie_id) (G, []) crew in
  Ok (add_pairings G actor_nodes director_nodes).

Definition build_graph (G : MultiDiGraph) (df : list Row) : result MultiDiGraph :=
  foldlM build_row G df.

(** The object state of [MovieGraph]. *)
Record MovieGraph := {
  mg_Graph : MultiDiGraph;
  movies_df : list Row;
}.

(** [MovieGraph.__init__], from the joined frame on. *)
Definition MovieGraph_init (joined : list Row) : result MovieGraph :=
  let df := dropna_release_date (drop_duplicates joined) in
  G ← build_graph Graph.empty df;
  Ok {| mg_Graph := G; movies_df := df |}.

(** ** networkx path routines

    The two library calls of the query operations, after networkx 3.x:
    [all_simple_paths] (the depth-first search of
    [_all_simple_edge_paths], which on a multigraph walks
    [G.edges(node, keys=True)], one step per parallel edge) and
    [shortest_path] without weights ([bidirectional_shortest_path]). *)

Module NX.

(** The search below a node that has just been reached.  [current_path]
    holds the nodes of the path so far (the keys of the library's
    [current_path] dictionary without its dummy entry) and [next_node]
    the head of the edge taken.  The library simulates this recursion
    with a stack of edge iterators; [fuel] bounds the depth. *)
Fixpoint paths_through (fuel : nat) (G : MultiDiGraph) (target : node) (cutoff : Z)
    (current_path : list node) (next_node : node) : list (list node) :=
  (if bool_decide (next_node = target) then [current_path ++ [next_node]] else [])
  ++
  (if bool_decide (Z.of_nat (length current_path) < cutoff)
      && bool_decide (target ∉ current_path)
      && bool_decide (target ≠ next_node)
   then
     match fuel with
     | O => []
     | S fuel' =>
         mbind (M := list) (λ e : node * node * nat,
           if bool_decide (e.1.2 ∈ current_path ++ [next_node]) then []
           else paths_through fuel' G target cutoff (current_path ++ [next_node]) e.1.2)
           (Graph.out_edges G next_node)
     end
   else []).

(** [list(nx.all_simple_paths(G, source, target, cutoff))] for a single
    target node.  (A target that is not a node is read by the library as
    a container of targets; the caller excludes that case.) *)
Definition all_simple_paths (G : MultiDiGraph) (source target : node) (cutoff : Z)
    : result (list (list node)) :=
  if negb (Graph.has_node G source) then Raise NodeNotFound
  else if negb (Graph.has_node G target) then Raise NodeNotFound
  else if bool_decide (0 ≤ cutoff)
       then Ok (paths_through (Z.to_nat cutoff) G target cutoff [] source)
       else Ok [].

(** [G.pred[v]]: the nodes with an edge into [v], read off the adjacency
    in the order of its entries.  (The library keeps a mirrored
    dictionary; the two hold the same nodes.) *)
Definition predecessors (G : MultiDiGraph) (v : node) : list node :=
  (filter (λ e : node * adjacency, v ∈ e.2.*1) (g_succ G)).*1.

(** The [pred] and [succ] dictionaries of the bidirectional search. *)
Abbreviation links := (gmap node (option node)).

Inductive level_result :=
| Meet (mine : links) (w : node)
| Next (mine : links) (fringe : list node).

(** [for w in nbrs[v]: ...] of one search direction: [mine] is the
    dictionary being extended, [other] the one of the opposite search. *)
Fixpoint expand_node (v : node) (nbrs : list node) (mine other : links)
    (fringe : list node) : level_result :=
  match nbrs with
  | [] => Next mine fringe
  | w :: rest =>
      let '(mine, fringe) :=
        if bool_decide (is_Some (mine !! w)) then (mine, fringe)
        else (<[w := Some v]> mine, fringe ++ [w]) in
      if bool_decide (is_Some (other !! w)) then Meet mine w
      else expand_node v rest mine other fringe
  end.

(** [for v in this_level: ...] *)
Fixpoint expand_level (nbrs : node → list node) (this_level : list node)
    (mine other : links) (fringe : list node) : level_result :=
  match this_level with
  | [] => Next mine fringe
  | v :: rest =>
      match expand_node v (nbrs v) mine other fringe with
      | Meet mine w => Meet mine w
      | Next mine fringe => expand_level nbrs rest mine other fringe
      end
  end.

(** The [while forward_fringe and reverse_fringe] loop.  [None] means the
    fuel ran out before the loop ended. *)
Fixpoint search_loop (fuel : nat) (G : MultiDiGraph) (pred succ : links)
    (forward_fringe reverse_fringe : list node)
    : option (result (links * links * node)) :=
  match fuel with
  | O => None
  | S fuel' =>
      if bool_decide (forward_fringe ≠ []) && bool_decide (reverse_fringe ≠ []) then
        if bool_decide (length forward_fringe ≤ length reverse_fringe)%nat then
          match expand_level (Graph.neighbors G) forward_fringe pred succ [] with
          | Meet pred' w => Some (Ok (pred', succ, w))
          | Next pred' fringe => search_loop fuel' G pred' succ fringe reverse_fringe
          end
        else
          match expand_level (predecessors G) reverse_fringe succ pred [] with
          | Meet succ' w => Some (Ok (pred, succ', w))
          | Next succ' fringe => search_loop fuel' G pred succ' forward_fringe fringe
          end
      else Some (Raise NetworkXNoPath)
  end.

(** Every node that occurs in the adjacency, as a source or as a
    neighbour. *)
Definition endpoints (G : MultiDiGraph) : list node :=
  (g_succ G).*1 ++ mbind (M := list) (λ e : node * adjacency, e.2.*1) (g_succ G).

(** Each round of the loop but the last adds a node to [pred] or to
    [succ], so twice the number of nodes (and a little) is fuel enough. *)
Definition search_fuel (G : MultiDiGraph) : nat :=
  2 * size (list_to_set (endpoints G) : gset node) + 4.

(** [_bidirectional_pred_succ] *)
Definition bidirectional_pred_succ (G : MultiDiGraph) (source target : node)
    : option (result (links * links * node)) :=
  if bool_decide (target = source)
  then Some (Ok ({[ target := None ]}, {[ source := None ]}, source))
  else search_loop (search_fuel G) G {[ source := None ]} {[ target := None ]}
                   [source] [target].

(** [while w is not None: path.append(w); w = d[w]] *)
Fixpoint follow (fuel : nat) (d : links) (w : option node) : option (result (list node)) :=
  match w with
  | None => Some (Ok [])
  | Some x =>
      match fuel with
      | O => None
      | S fuel' =>
          match d !! x with
          | None => Some (Raise KeyError)
          | Some w' =>
              match follow fuel' d w' with
              | Some (Ok path) => Some (Ok (x :: path))
              | other => other
              end
          end
      end
  end.

(** [nx.shortest_path(G, source, target)] *)
Definition shortest_path (G : MultiDiGraph) (source target : node)
    : option (result (list node)) :=
  if negb (Graph.has_node G source) then Some (Raise NodeNotFound)
  else if negb (Graph.has_node G target) then Some (Raise NodeNotFound)
  else
    match bidirectional_pred_succ G source target with
    | None => None
    | Some (Raise e) => Some (Raise e)
    | Some (Ok (pred, succ, w)) =>
        match follow (S (size pred)) pred (Some w) with
        | None => None
        | Some (Raise e) => Some (Raise e)
        | Some (Ok back) =>
            match succ !! w with
            | None => Some (Raise KeyError)
            | Some w' =>
                match follow (S (size succ)) succ w' with
                | None => None
                | Some (Raise e) => Some (Raise e)
                | Some (Ok rest) => Some (Ok (reverse back ++ rest))
                end
            end
        end
    end.

End NX.

(** ** GraphStore: the query operations of [MovieGraph] *)

(** The Python value of a node key. *)
Definition node_val (n : node) : pyval :=
  match n with
  | NInt z => PInt z
  | NStr s => PStr s
  end.

(** [query_movie_id]: Python's [None] is [None], a dictionary is [Some]. *)
Definition query_movie_id (mg : MovieGraph) (movie_id : pyval) : result (option attrs) :=
  if negb (Graph.contains (mg_Graph mg) movie_id) then Ok None
  else
    match as_node movie_id with
    | Some n => a ← Graph.node_data (mg_Graph mg) n; Ok (Some a)
    | None => Raise TypeError
    end.

Record neighbor_rec := {
  nb_neighbor : node;
  nb_relation : string;
}.

Record entity_rec := {
  er_node : node;
  er_label : option string;
  er_node_data : attrs;
  er_neighbors : list neighbor_rec;
}.

(** Truthiness of the optional relation filter: [None] and [""] are falsy. *)
Definition truthy (relation : option string) : bool :=
  match relation with
  | Some r => negb (bool_decide (r = ""))
  | None => false
  end.

(** The two nested loops over [self.Graph[eid].items()]. *)
Definition neighbor_list (nbrs : adjacency) (relation : option string) : list neighbor_rec :=
  mbind (M := list) (λ e : node * keydict,
    mbind (M := list) (λ rel : string,
      if truthy relation && negb (bool_decide (Some rel = relation)) then []
      else [ {| nb_neighbor := e.1; nb_relation := rel |} ]) e.2) nbrs.

(** The rows whose lowercased title equals the (already normalised)
    entity string; a NaN title compares unequal. *)
Definition title_matches (df : list Row) (entity : string) : list Row :=
  filter (λ r, Str.lower <$> r_title r = Some (Str.lower entity)) df.

(** The first half of [query_entity_graph]: the ids to report.  An [int]
    that is not a node, like every value that is not a [str], reaches
    [entity.strip()] and has no such attribute. *)
Definition entity_ids (mg : MovieGraph) (entity : pyval) : result (list node) :=
  match entity with
  | PInt z =>
      if Graph.has_node (mg_Graph mg) (NInt z) then Ok [NInt z]
      else Raise AttributeError
  | PStr s =>
      let entity := normalize s in
      let matches := title_matches (movies_df mg) entity in
      if negb (bool_decide (matches = [])) then Ok ((λ r, NInt (r_id r)) <$> matches)
      else if Graph.has_node (mg_Graph mg) (NStr entity) then Ok [NStr entity]
      else Ok []
  | _ => Raise AttributeError
  end.

(** [G[u]]: the adjacency of a node, [KeyError] when it has none. *)
Definition getitem (G : MultiDiGraph) (u : node) : result adjacency :=
  from_option Ok (Raise KeyError) (alist_get u (g_succ G)).

(** The loop [for eid in entity_ids]. *)
Fixpoint entity_records (G : MultiDiGraph) (relation : option string) (ids : list node)
    : result (list entity_rec) :=
  match ids with
  | [] => Ok []
  | eid :: rest =>
      if negb (Graph.has_node G eid) then entity_records G relation rest
      else
        nd ← Graph.node_data G eid;
        nbrs ← getitem G eid;
        let r := {| er_node := eid; er_label := label nd; er_node_data := nd;
                    er_neighbors := neighbor_list nbrs relation |} in
        results ← entity_records G relation rest;
        Ok (r :: results)
  end.

Definition query_entity_graph (mg : MovieGraph) (entity : pyval) (relation : option string)
    : result (list entity_rec) :=
  ids ← entity_ids mg entity;
  entity_records (mg_Graph mg) relation ids.

(** A node descriptor of [all_paths_query]; [pn_relation_to_next] is
    [None] when the key is absent (the last node of a path). *)
Record path_node := {
  pn_node : node;
  pn_label : option string;
  pn_title : option string;
  pn_roles : option (gset string);
  pn_relation_to_next : option keydict;
}.

(** [d.get(key) if d.get("label") == l else None] *)
Definition field_if {A} (info : attrs) (l : string) (field : attrs → option A) : option A :=
  if bool_decide (label info = Some l) then field info else None.

(** The [if i < len(path) - 1] block: the relations of [G[node][path[i+1]]]
    when a next node exists, no key otherwise. *)
Definition relation_to_next (G : MultiDiGraph) (n : node) (rest : list node)
    : result (option keydict) :=
  match rest with
  | [] => Ok None
  | next :: _ => kd ← Graph.edge_relations G n next; Ok (Some kd)
  end.

(** The loop [for i, node in enumerate(path)] of [all_paths_query]. *)
Fixpoint describe_path (G : MultiDiGraph) (path : list node) : result (list path_node) :=
  match path with
  | [] => Ok []
  | n :: rest =>
      node_info ← Graph.node_data G n;
      relations ← relation_to_next G n rest;
      path_data ← describe_path G rest;
      Ok ({| pn_node := n; pn_label := label node_info;
             pn_title := field_if node_info "movie" title;
             pn_roles := field_if node_info "person" roles;
             pn_relation_to_next := relations |} :: path_data)
  end.

(** The loop [for path in paths]. *)
Fixpoint describe_paths (G : MultiDiGraph) (paths : list (list node))
    : result (list (list path_node)) :=
  match paths with
  | [] => Ok []
  | p :: rest =>
      path_data ← describe_path G p;
      result ← describe_paths G rest;
      Ok (path_data :: result)
  end.

Definition all_paths_query (mg : MovieGraph) (node1 node2 : pyval) (max_len : Z)
    : result (list (list path_node)) :=
  let G := mg_Graph mg in
  if negb (Graph.contains G node1) || negb (Graph.contains G node2) then Ok []
  else
    match as_node node1, as_node node2 with
    | Some n1, Some n2 =>
        paths ← NX.all_simple_paths G n1 n2 max_len;
        describe_paths G paths
    | _, _ => Raise TypeError
    end.

(** A node descriptor of [shortest_path_query] (it has no [roles] key). *)
Record hop_node := {
  hn_node : node;
  hn_label : option string;
  hn_title : option string;
  hn_relation_to_next : option keydict;
}.

Fixpoint describe_hops (G : MultiDiGraph) (path : list node) : result (list hop_node) :=
  match path with
  | [] => Ok []
  | n :: rest =>
      node_info ← Graph.node_data G n;
      relations ← relation_to_next G n rest;
      path_with_rels ← describe_hops G rest;
      Ok ({| hn_node := n; hn_label := label node_info;
             hn_title := field_if node_info "movie" title;
             hn_relation_to_next := relations |} :: path_with_rels)
  end.

(** [shortest_path_query]: the answer is [Some path] or Python's [None];
    only [NetworkXNoPath] is caught.  The outer [option] is the fuel of
    the library search. *)
Definition shortest_path_query (mg : MovieGraph) (source target : pyval)
    : option (result (option (list hop_node))) :=
  let G := mg_Graph mg in
  if negb (Graph.contains G source) || negb (Graph.contains G target) then Some (Ok None)
  else
    match as_node source, as_node target with
    | Some s, Some t =>
        match NX.shortest_path G s t with
        | None => None
        | Some r =>
            Some (try_except (path ← r; path_with_rels ← describe_hops G path;
                              Ok (Some path_with_rels))
                    (λ e, match e with
                          | NetworkXNoPath => Ok None
                          | _ => Raise e
                          end))
        end
    | _, _ => Some (Raise TypeError)
    end.

(** What a tool hands back per record: a payload, or the record
    [{"error": str(e)}] made from a caught exception. *)
Inductive item (A : Type) :=
| Item (a : A)
| ErrorRec (e : exn).
Arguments Item {A} a.
Arguments ErrorRec {A} e.

(** ** VectorIndex: [MovieFAISS]

    The embedding model and the FAISS index are outside the program; they
    are parameters here.  [encode] is [embedding_model.encode] on the
    framed query and [index_search ix emb k] is row 0 of the label matrix
    of [ix.search(emb, k)]; either may raise. *)

Section VectorIndex.
Context {embedding faiss_index : Type}.
Variable encode : string → result embedding.
Variable index_search : faiss_index → embedding → Z → result (list Z).

(** [index] is [None] until an index is built or loaded. *)
Record MovieFAISS := {
  index : option faiss_index;
  index_to_id : gmap Z Z;
}.

(** The state [__init__] leaves when [load] finds no files. *)
Definition unbuilt : MovieFAISS := {| index := None; index_to_id := ∅ |}.

(** [[f(x) for x in l]] where [f] may raise. *)
Fixpoint traverse {A B} (f : A → result B) (l : list A) : result (list B) :=
  match l with
  | [] => Ok []
  | x :: l' => y ← f x; ys ← traverse f l'; Ok (y :: ys)
  end.

(** [MovieFAISS.search]: [self.index.search] on [None] is an
    [AttributeError]; a label without a mapping is a [KeyError]. *)
Definition search (st : MovieFAISS) (query_text : string) (top_k : Z) : result (list Z) :=
  query_emb ← encode ("query: " +:+ query_text);
  labels ← match index st with
           | None => Raise AttributeError
           | Some ix => index_search ix query_emb top_k
           end;
  traverse (λ i, from_option Ok (Raise KeyError) (index_to_id st !! i)) labels.

Record movie_json := {
  mj_id : Z;
  mj_overview : pyval;
  mj_original_title : pyval;
  mj_original_language : pyval;
  mj_release_date : option string;
  mj_budget : pyval;
  mj_revenue : pyval;
}.

(** [movies_df[movies_df["id"] == movie_id]], and [iloc[0]] of it. *)
Definition rows_with_id (df : list Row) (movie_id : Z) : list Row :=
  filter (λ r, r_id r = movie_id) df.

Definition json_of_row (r : Row) : movie_json :=
  {| mj_id := r_id r; mj_overview := r_overview r;
     mj_original_title := r_original_title r;
     mj_original_language := r_original_language r;
     mj_release_date := r_release_date r;
     mj_budget := r_budget r; mj_revenue := r_revenue r |}.

(** [FaissTool.forward] *)
Definition FaissTool_forward (st : MovieFAISS) (df : list Row)
    (retrieval_query : string) (top_k : Z) : result (list (item movie_json)) :=
  try_except
    (movie_ids ← search st retrieval_query top_k;
     Ok (mbind (M := list) (λ movie_id : Z,
           match rows_with_id df movie_id with
           | [] => []
           | r :: _ => [Item (json_of_row r)]
           end) movie_ids))
    (λ e, Ok [ErrorRec e]).
End VectorIndex.

(** ** QueryFacade: the graph tools of [agentic_tools.py] *)

(** [QueryGraphTool.forward] *)
Definition QueryGraphTool_forward (mg : MovieGraph) (entity : pyval)
    (relation : option string) : result (list (item entity_rec)) :=
  try_except
    (recs ← query_entity_graph mg entity relation; Ok (map Item recs))
    (λ e, Ok [ErrorRec e]).

(** The answer of [QueryMovieIDTool]: the node's dictionary, or
    [{"error": f"Movie ID {movie_id} not found"}]. *)
Inductive movie_answer :=
| MovieData (a : attrs)
| MovieNotFound (movie_id : pyval).

(** [QueryMovieIDTool.forward]: no handler; [not node_data] holds for
    [None] and for an empty dictionary. *)
Definition QueryMovieIDTool_forward (mg : MovieGraph) (movie_id : pyval)
    : result movie_answer :=
  node_data ← query_movie_id mg movie_id;
  match node_data with
  | None => Ok (MovieNotFound movie_id)
  | Some a => if attrs_is_empty a then Ok (MovieNotFound movie_id) else Ok (MovieData a)
  end.

(** [NearestGraphTool.forward] *)
Definition NearestGraphTool_forward (mg : MovieGraph) (entity1 entity2 : pyval)
    : result (list (item (list path_node))) :=
  try_except
    (paths ← all_paths_query mg entity1 entity2 3; Ok (map Item paths))
    (λ e, Ok [ErrorRec e]).

(** [for x in v]: lists yield their elements, strings their characters,
    dictionaries their keys; [None] and integers are not iterable. *)
Definition iterate (v : pyval) : result (list pyval) :=
  match v with
  | PList l => Ok l
  | PStr s => Ok (PStr <$> Str.chars s)
  | PDict d => Ok (PStr <$> d.*1)
  | PNone | PInt _ => Raise TypeError
  end.

(** [mid in person_movies] on a Python set of nodes: hashing an
    unhashable value raises [TypeError]. *)
Definition set_contains (s : gset node) (x : pyval) : result bool :=
  if hashable x then
    Ok (match as_node x with
        | Some n => bool_decide (n ∈ s)
        | None => false
        end)
  else Raise TypeError.

(** [[x for x in l if keep(x)]] where the test may raise. *)
Fixpoint filter_raising {A} (test : A → result bool) (l : list A) : result (list A) :=
  match l with
  | [] => Ok []
  | x :: l' =>
      b ← test x;
      rest ← filter_raising test l';
      Ok (if b : bool then x :: rest else rest)
  end.

(** The loop that collects [person_movies]. *)
Definition movie_neighbors (G : MultiDiGraph) (n : node) : result (gset node) :=
  foldlM (λ (person_movies : gset node) neighbor,
            nd ← Graph.node_data G neighbor;
            Ok (if bool_decide (label nd = Some "movie")
                then person_movies ∪ {[ neighbor ]} else person_movies))
         ∅ (Graph.neighbors G n).

(** [FilterMoviesByPersonTool.forward]: no handler. *)
Definition FilterMoviesByPersonTool_forward (mg : MovieGraph)
    (person_name movie_ids : pyval) : result (list pyval) :=
  person_name ← match person_name with
                | PStr s => Ok (normalize s)
                | _ => Raise AttributeError
                end;
  if negb (Graph.has_node (mg_Graph mg) (NStr person_name)) then Ok []
  else
    person_movies ← movie_neighbors (mg_Graph mg) (NStr person_name);
    mids ← iterate movie_ids;
    filter_raising (set_contains person_movies) mids.

(** ** Building and loading the vector index ([MovieFAISS], [MovieRAGAgent])

    The rest of [faiss_setup.py] and the constructor of [MovieRAGAgent].
    What sentence-transformers, numpy, faiss, pickle, the file system and
    the agent framework do stays outside the program: those calls are
    parameters that return a value or raise. *)

(** [s.split(sep)[-1]] for a one-character separator; [acc] is the
    segment read so far. *)
Fixpoint split_last_from (sep : ascii) (s acc : string) : string :=
  match s with
  | EmptyString => acc
  | String c s' =>
      if Ascii.eqb c sep then split_last_from sep s' EmptyString
      else split_last_from sep s' (acc +:+ String c EmptyString)
  end.

Definition split_last (sep : ascii) (s : string) : string := split_last_from sep s EmptyString.

(** [sub in s] on strings. *)
Definition contains_substring (sub s : string) : bool :=
  bool_decide (is_Some (String.index 0 sub s)).

(** [column.fillna("")]: a missing cell becomes the empty string. *)
Definition fillna_text (v : pyval) : pyval :=
  match v with
  | PNone => PStr ""
  | _ => v
  end.

(** [MovieFAISS.format_for_e5]: a cell that is not a string has no
    [strip]. *)
Definition format_for_e5 (text_value : pyval) : result pyval :=
  match text_value with
  | PStr s => Ok (PStr ("passage: " +:+ Str.strip s))
  | _ => Raise AttributeError
  end.

(** The texts [build_index] embeds. *)
Definition index_texts (selected_model_name : string) (movies_df : list Row)
    : result (list pyval) :=
  let texts := fillna_text <$> (r_overview <$> movies_df) in
  if contains_substring "e5" selected_model_name then traverse format_for_e5 texts
  else Ok texts.

(** [math.ceil(len(texts) / batch_size)], as the length of the range the
    loop runs over (a negative count gives an empty range).  The quotient
    is taken exactly; the floating-point quotient of the source agrees
    with it on every table that fits in memory. *)
Definition num_batches (n : nat) (batch_size : Z) : result nat :=
  if bool_decide (batch_size = 0) then Raise (OtherError "ZeroDivisionError")
  else Ok (Z.to_nat (- ((- Z.of_nat n) `div` batch_size))).

(** [start_idx] and [end_idx] of a batch. *)
Definition batch_bounds (n : nat) (batch_size : Z) (batch_idx : nat) : nat * nat :=
  (Z.to_nat (Z.of_nat batch_idx * batch_size),
   Z.to_nat (Z.min ((Z.of_nat batch_idx + 1) * batch_size) (Z.of_nat n))).

(** [l[start:stop]] for bounds that are not negative. *)
Definition slice {A} (l : list A) (start stop : nat) : list A :=
  take (stop - start) (drop start l).

(** The batches the loop hands to the embedding model, in order. *)
Definition batches {A} (texts : list A) (batch_size : Z) (count : nat) : list (list A) :=
  (λ batch_idx, let '(start_idx, end_idx) := batch_bounds (length texts) batch_size batch_idx in
                slice texts start_idx end_idx) <$> seq 0 count.

(** [{i: movie_ids[i] for i in range(len(movie_ids))}] *)
Definition enumerate_ids (movie_ids : list Z) : gmap Z Z :=
  foldl (λ (m : gmap Z Z) (i : nat),
           match movie_ids !! i with
           | Some movie_id => <[Z.of_nat i := movie_id]> m
           | None => m
           end) ∅ (seq 0 (length movie_ids)).

(** The row a FAISS label stands for: the row at that position. *)
Definition label_row (df : list Row) (i : Z) : option Row :=
  if bool_decide (0 ≤ i) then df !! Z.to_nat i else None.

Section IndexBuild.
Context {faiss_index matrix vectors : Type}.

(** [SentenceTransformer(model_name)] *)
Variable load_model : string → result unit.
(** [embedding_model.get_sentence_embedding_dimension()] *)
Variable get_dimension : result Z.
(** [np.zeros((n, dim), dtype="float32")] *)
Variable zeros : nat → Z → result matrix.
(** [embedding_model.encode(batch_texts, ...)] *)
Variable encode_batch : list pyval → result vectors.
(** [embeddings[start_idx:end_idx] = batch_embeddings] *)
Variable assign_rows : matrix → nat → nat → vectors → result matrix.
(** [faiss.IndexFlatL2(dim)] followed by [index.add(embeddings)] *)
Variable make_index : matrix → result faiss_index.
(** [faiss.write_index] and [pickle.dump] *)
Variable write_files : string → string → faiss_index → gmap Z Z → result unit.
(** [os.path.exists], [faiss.read_index], [pickle.load] *)
Variable path_exists : string → bool.
Variable read_index : string → result faiss_index.
Variable read_mapping : string → result (gmap Z Z).
(** Reading and joining the three CSV files. *)
Variable read_tables : result (list Row).
(** The tool constructors and [OpenAIServerModel(...)]. *)
Variable make_tools_and_model : result unit.
(** [index.ntotal] *)
Variable ntotal : faiss_index → Z.

(** The object state of [MovieFAISS]. *)
Record faiss_object := {
  selected_model_name : string;
  faiss_index_file : string;
  id_mapping_file : string;
  faiss_state : @MovieFAISS faiss_index;
}.

Definition with_state (obj : faiss_object) (st : @MovieFAISS faiss_index) : faiss_object :=
  {| selected_model_name := selected_model_name obj;
     faiss_index_file := faiss_index_file obj;
     id_mapping_file := id_mapping_file obj;
     faiss_state := st |}.

(** [MovieFAISS.load]: nothing happens unless both files exist. *)
Definition load (obj : faiss_object) (index_path mapping_path : string) : result faiss_object :=
  if negb (path_exists index_path) || negb (path_exists mapping_path) then Ok obj
  else
    ix ← read_index index_path;
    mapping ← read_mapping mapping_path;
    Ok (with_state obj {| index := Some ix; index_to_id := mapping |}).

(** [MovieFAISS.__init__] *)
Definition MovieFAISS_init (model_name : string) (update_embeddings : bool)
    : result faiss_object :=
  let selected := split_last "/" model_name in
  _ ← load_model model_name;
  let obj := {| selected_model_name := selected;
                faiss_index_file := selected +:+ "_faiss_index.bin";
                id_mapping_file := selected +:+ "_mapping.pkl";
                faiss_state := unbuilt |} in
  if update_embeddings then Ok obj
  else load obj (faiss_index_file obj) (id_mapping_file obj).

(** The loop [for batch_idx in range(num_batches)]. *)
Definition encode_batches (texts : list pyval) (batch_size : Z) (count : nat)
    (embeddings : matrix) : result matrix :=
  foldlM (λ embeddings batch_idx,
            let '(start_idx, end_idx) := batch_bounds (length texts) batch_size batch_idx in
            batch_embeddings ← encode_batch (slice texts start_idx end_idx);
            assign_rows embeddings start_idx end_idx batch_embeddings)
         embeddings (seq 0 count).

(** [MovieFAISS.build_index] on the column [overview]. *)
Definition build_index (obj : faiss_object) (movies_df : list Row) (batch_size : Z)
    : result faiss_object :=
  let movie_ids := r_id <$> movies_df in
  texts ← index_texts (selected_model_name obj) movies_df;
  embedding_dim ← get_dimension;
  embeddings ← zeros (length texts) embedding_dim;
  count ← num_batches (length texts) batch_size;
  embeddings ← encode_batches texts batch_size count embeddings;
  ix ← make_index embeddings;
  let st := {| index := Some ix; index_to_id := enumerate_ids movie_ids |} in
  _ ← write_files (faiss_index_file obj) (id_mapping_file obj) ix (index_to_id st);
  Ok (with_state obj st).

(** The object state of [MovieRAGAgent] that the model follows. *)
Record agent := {
  movie_graph : MovieGraph;
  movie_faiss : faiss_object;
}.

(** [MovieRAGAgent.__init__]: the last statement prints
    [self.movie_faiss.index.ntotal], which a missing index does not
    have. *)
Definition MovieRAGAgent_init (embedding_model : string) (update_embeddings : bool)
    : result agent :=
  joined ← read_tables;
  movie_graph ← MovieGraph_init joined;
  movie_faiss ← MovieFAISS_init embedding_model update_embeddings;
  movie_faiss ← (if update_embeddings
                 then build_index movie_faiss (movies_df movie_graph) 64
                 else Ok movie_faiss);
  _ ← make_tools_and_model;
  _ ← from_option (λ ix, Ok (ntotal ix)) (Raise AttributeError)
         (index (faiss_state movie_faiss));
  Ok {| movie_graph := movie_graph; movie_faiss := movie_faiss |}.

End IndexBuild.

(** * Specification vocabulary

    The predicates and invariants the properties below are stated and
    proved with. *)

(** The set [person_movies] that [filter_movies_by_person] filters with:
    the movie neighbours of the named node, nothing when the name is no
    node. *)
Definition person_movies_of (mg : MovieGraph) (name : string) : gset node :=
  if Graph.has_node (mg_Graph mg) (NStr (normalize name))
  then Graph.movie_set (mg_Graph mg) (NStr (normalize name))
  else ∅.

Definition person_filter (mg : MovieGraph) (name : string) (ids : list Z) : list Z :=
  filter (λ i, NInt i ∈ person_movies_of mg name) ids.

(** The hops of a described path read the adjacency in path direction;
    the last node carries no annotation. *)
Fixpoint hops_read (G : MultiDiGraph) (pd : list path_node) : Prop :=
  match pd with
  | [] => True
  | d :: rest =>
      match rest with
      | [] => pn_relation_to_next d = None
      | d' :: _ =>
          ∃ kd, pn_relation_to_next d = Some kd
                ∧ Graph.edge_relations G (pn_node d) (pn_node d') = Ok kd
      end ∧ hops_read G rest
  end.

(** The node's dictionary says [label = "movie"]. *)
Definition movie_labelled (G : MultiDiGraph) (n : node) : Prop :=
  ∃ a, alist_get n (g_node G) = Some a ∧ label a = Some "movie".

(** What every step of [build_row] after the release edge keeps: the
    release edges of the movies, the edges present, the movie labels. *)
Definition extends (G G' : MultiDiGraph) : Prop :=
  (∀ i, Graph.targets_by_relation G' (NInt i) MOVIE_RELEASED_ON
        = Graph.targets_by_relation G (NInt i) MOVIE_RELEASED_ON)
  ∧ (∀ u v r, Graph.has_rel_edge G u v r → Graph.has_rel_edge G' u v r)
  ∧ (∀ n, movie_labelled G' n → movie_labelled G n).

(** The state of the graph after the rows [done] have been processed. *)
Definition built (done : list Row) (G : MultiDiGraph) : Prop :=
  (∀ n, movie_labelled G n → ∃ r, r ∈ done ∧ n = NInt (r_id r))
  ∧ (∀ r, r ∈ done → ∃ d, r_release_date r = Some d
        ∧ Graph.targets_by_relation G (NInt (r_id r)) MOVIE_RELEASED_ON = [NStr (year_of d)]
        ∧ Graph.has_rel_edge G (NStr (year_of d)) (NInt (r_id r)) YEAR_RELEASED_MOVIES)
  ∧ (∀ i, i ∉ r_id <$> done →
        Graph.targets_by_relation G (NInt i) MOVIE_RELEASED_ON = []).

(** Each node of a described path but the last carries the list
    [G[u][v]] of the hop to its successor, which has one entry per
    parallel edge from [u] to [v]; the last node carries nothing. *)
Definition hop_relations_read (G : MultiDiGraph) (pd : list path_node) : Prop :=
  ∀ (i : nat) d, pd !! i = Some d →
    match pd !! S i with
    | None => pn_relation_to_next d = None
    | Some d' =>
        ∃ kd, pn_relation_to_next d = Some kd
              ∧ Graph.edge_relations G (pn_node d) (pn_node d') = Ok kd
              ∧ ∀ j, (pn_node d, pn_node d', j) ∈ Graph.out_edges G (pn_node d)
                     ↔ (j < length kd)%nat
    end.

(** Every node has an adjacency entry and a label: what [build_graph]
    maintains on top of well-formedness, because it adds both endpoints
    as nodes before it adds an edge. *)
Definition adj_total (G : MultiDiGraph) : Prop :=
  Forall (λ e : node * attrs, alist_mem e.1 (g_succ G) = true) (g_node G).

Definition all_labelled (G : MultiDiGraph) : Prop :=
  Forall (λ e : node * attrs, is_Some (label e.2)) (g_node G).

Definition good (G : MultiDiGraph) : Prop :=
  Graph.wf G ∧ adj_total G ∧ all_labelled G.

(** [G'] is good and has every node of [G]. *)
Definition grows (G G' : MultiDiGraph) : Prop :=
  good G' ∧ ∀ x, Graph.has_node G x = true → Graph.has_node G' x = true.

Definition all_present (G : MultiDiGraph) (names : list string) : Prop :=
  Forall (λ a, Graph.has_node G (NStr a) = true) names.

(** The state of the cast and crew loops: the graph and the names
    collected so far, all of them nodes. *)
Definition person_loop_inv (G0 : MultiDiGraph) (movie_id : node)
    (st : MultiDiGraph * list string) : Prop :=
  grows G0 st.1 ∧ Graph.has_node st.1 movie_id = true ∧ all_present st.1 st.2.

(** What one level of the bidirectional search keeps true from
    [(mine, fringe)] to [(mine', fringe')]: [P] holds of every node
    reached, the dictionary only grows, inside [U], and the fringe
    gains only nodes new to the dictionary. *)
Definition level_inv (P : node → Prop) (U : gset node) (mine : NX.links)
    (fringe : list node) (mine' : NX.links) (fringe' : list node) : Prop :=
  (∀ x, x ∈ dom mine' → P x)
  ∧ dom mine ⊆ dom mine'
  ∧ dom mine' ⊆ dom mine ∪ U
  ∧ ∀ w, w ∈ fringe' → w ∈ fringe ∨ (w ∈ dom mine' ∧ w ∉ dom mine).

Definition level_ok (P : node → Prop) (U : gset node) (other mine : NX.links)
    (fringe : list node) (r : NX.level_result) : Prop :=
  match r with
  | NX.Meet mine' w => P w ∧ is_Some (other !! w)
  | NX.Next mine' fringe' => level_inv P U mine fringe mine' fringe'
  end.

(** [x :: ...] follows the links of [d] from [x] to the entry that holds
    [None]: the walk of [while w is not None: ...; w = d[w]]. *)
Inductive chain (d : NX.links) : node → list node → Prop :=
| chain_root x : d !! x = Some None → chain d x [x]
| chain_step x y l : d !! x = Some (Some y) → chain d y l → chain d x (x :: l).

(** Every key of [d] leads to the root without a cycle. *)
Definition rooted (d : NX.links) : Prop :=
  ∀ x, x ∈ dom d → ∃ l, chain d x l ∧ NoDup l ∧ ∀ y, y ∈ l → y ∈ dom d.

(** What one level keeps of the link dictionary: it stays rooted, and a
    meeting node is known to both searches. *)
Definition level_rooted (other mine : NX.links) (r : NX.level_result) : Prop :=
  match r with
  | NX.Meet mine' w => rooted mine' ∧ w ∈ dom mine' ∧ w ∈ dom other
  | NX.Next mine' fringe' => rooted mine' ∧ dom mine ⊆ dom mine'
  end.

(** The state of the search loop between two rounds: [Pf] holds of the
    nodes reached from the source and [Pr] of those reached backwards
    from the target. *)
Definition search_inv (G : MultiDiGraph) (s t : node) (Pf Pr : node → Prop)
    (pred succ : NX.links) (ff rf : list node) : Prop :=
  (∀ x, x ∈ dom pred → Pf x)
  ∧ (∀ x, x ∈ dom succ → Pr x)
  ∧ (∀ v, v ∈ ff → v ∈ dom pred)
  ∧ (∀ v, v ∈ rf → v ∈ dom succ)
  ∧ dom pred ⊆ {[ s ]} ∪ list_to_set (NX.endpoints G)
  ∧ dom succ ⊆ {[ t ]} ∪ list_to_set (NX.endpoints G)
  ∧ rooted pred ∧ rooted succ.

(** What the search hands back: a meeting node known to both
    dictionaries, or [NetworkXNoPath]. *)
Definition search_post (Pf Pr : node → Prop) (r : result (NX.links * NX.links * node))
    : Prop :=
  match r with
  | Ok (pred, succ, w) =>
      rooted pred ∧ rooted succ ∧ w ∈ dom pred ∧ w ∈ dom succ ∧ Pf w ∧ Pr w
  | Raise e => e = NetworkXNoPath
  end.

(** The rounds the loop can still make. *)
Definition search_measure (G : MultiDiGraph) (pred succ : NX.links) : nat :=
  (S (size (list_to_set (NX.endpoints G) : gset node)) - size (dom pred))
  + (S (size (list_to_set (NX.endpoints G) : gset node)) - size (dom succ)).

(** ** Vocabulary of the table and of the construction trace *)

(** [r] is the first row of [df] that carries its id. *)
Definition first_of_id (df : list Row) (r : Row) : Prop :=
  ∃ i : nat, df !! i = Some r
             ∧ ∀ (j : nat) r', (j < i)%nat → df !! j = Some r' → r_id r' ≠ r_id r.

(** The three graph calls [build_graph] is made of: [add_node], the
    [if name not in self.Graph] step for a person, and [add_edge]. *)
Inductive gop :=
| AddNode (n : node) (kw : attrs)
| AddPerson (name job : string)
| AddEdge (u v : node) (rel : string).

Definition apply_op (G : MultiDiGraph) (op : gop) : MultiDiGraph :=
  match op with
  | AddNode n kw => Graph.add_node G n kw
  | AddPerson name job => add_person G name job
  | AddEdge u v rel => Graph.add_edge G u v rel
  end.

Definition run (G : MultiDiGraph) (ops : list gop) : MultiDiGraph := foldl apply_op G ops.

(** The keyword arguments of the movie node of a row. *)
Definition movie_attrs (row : Row) (row_title release_date : string) (kws : list string)
    : attrs :=
  {| label := Some "movie";
     title := Some (Str.lower (Str.strip row_title));
     popularity := Some (r_popularity row);
     vote_average := Some (r_vote_average row);
     overview := Some (r_overview row);
     launch_year := Some (year_of release_date);
     keywords := Some kws;
     roles := None |}.

Definition release_ops (movie_id : node) (launch_year : string) : list gop :=
  [ AddNode (NStr launch_year) (label_attrs "date");
    AddEdge movie_id (NStr launch_year) MOVIE_RELEASED_ON;
    AddEdge (NStr launch_year) movie_id YEAR_RELEASED_MOVIES ].

Definition genre_ops (movie_id : node) (g : string) : list gop :=
  [ AddNode (NStr (normalize g)) (label_attrs "genre");
    AddEdge movie_id (NStr (normalize g)) MOVIE_HAS_GENRE;
    AddEdge (NStr (normalize g)) movie_id GENRE_OF_MOVIES ].

Definition actor_ops (movie_id : node) (c : string) : list gop :=
  [ AddPerson (normalize c) "actor";
    AddEdge movie_id (NStr (normalize c)) MOVIE_HAS_ACTOR;
    AddEdge (NStr (normalize c)) movie_id ACTED_IN_MOVIES ].

(** The role a crew record (job, name) is filed under. *)
Definition crew_job (member : string * string) : string :=
  classify_job (normalize member.1).

Definition crew_ops (movie_id : node) (member : string * string) : list gop :=
  [ AddPerson (normalize member.2) (crew_job member);
    AddEdge movie_id (NStr (normalize member.2)) ("MOVIE_HAS_" +:+ Str.upper (crew_job member));
    AddEdge (NStr (normalize member.2)) movie_id (crew_relation (crew_job member)) ].

Definition pairing_ops (actor director : string) : list gop :=
  [ AddEdge (NStr actor) (NStr director) ACTOR_WORKED_WITH_DIRECTOR;
    AddEdge (NStr director) (NStr actor) DIRECTOR_WORKED_WITH_ACTOR ].

(** [actor_nodes] and [director_nodes] at the end of the two loops. *)
Definition actor_names (cast : list string) : list string := normalize <$> cast.

Definition director_names (crew : list (string * string)) : list string :=
  mbind (M := list) (λ member : string * string,
    if bool_decide (crew_job member = "director") then [normalize member.2] else []) crew.

Definition pairings_ops (actors directors : list string) : list gop :=
  mbind (M := list) (λ actor : string,
    mbind (M := list) (λ director : string, pairing_ops actor director) directors) actors.

(** The cells of a row as [build_row] reads them, when all of them
    parse. *)
Record parsed := {
  p_release_date : string;
  p_title : string;
  p_keywords : list string;
  p_genres : list string;
  p_cast : list string;
  p_crew : list (string * string);
}.

Definition parse (r : Row) : option parsed :=
  match r_release_date r, r_title r, r_keywords r, r_genres r, r_cast r, r_crew r with
  | Some d, Some t, Ok kws, Ok genres, Ok cast, Ok crew =>
      Some {| p_release_date := d; p_title := t; p_keywords := kws;
              p_genres := genres; p_cast := cast; p_crew := crew |}
  | _, _, _, _, _, _ => None
  end.

(** The calls one row makes, in order. *)
Definition parsed_ops (r : Row) (p : parsed) : list gop :=
  let movie_id := NInt (r_id r) in
  AddNode movie_id (movie_attrs r (p_title p) (p_release_date p) (p_keywords p))
  :: release_ops movie_id (year_of (p_release_date p))
  ++ mbind (M := list) (genre_ops movie_id) (p_genres p)
  ++ mbind (M := list) (actor_ops movie_id) (p_cast p)
  ++ mbind (M := list) (crew_ops movie_id) (p_crew p)
  ++ pairings_ops (actor_names (p_cast p)) (director_names (p_crew p)).

Definition row_ops (r : Row) : list gop :=
  match parse r with
  | Some p => parsed_ops r p
  | None => []
  end.

Definition table_ops (df : list Row) : list gop := mbind (M := list) row_ops df.

(** The relations of the parallel edges from [u] to [v], in key order;
    none when there is no such edge. *)
Definition relations_between (G : MultiDiGraph) (u v : node) : list string :=
  default [] (alist_get v (Graph.adj G u)).

(** The relations a list of calls adds from [u] to [v]. *)
Definition op_relations (u v : node) (ops : list gop) : list string :=
  mbind (M := list) (λ op : gop,
    match op with
    | AddEdge u' v' rel => if bool_decide (u' = u ∧ v' = v) then [rel] else []
    | _ => []
    end) ops.

(** A call that creates no unlabelled node: nodes are added with a
    label, edges between nodes that exist. *)
Definition admissible (G : MultiDiGraph) (op : gop) : Prop :=
  match op with
  | AddNode n kw => is_Some (label kw)
  | AddPerson name job => True
  | AddEdge u v rel => Graph.has_node G u = true ∧ Graph.has_node G v = true
  end.

Fixpoint run_ok (G : MultiDiGraph) (ops : list gop) : Prop :=
  match ops with
  | [] => True
  | op :: rest => admissible G op ∧ run_ok (apply_op G op) rest
  end.

(** What a call does to the attribute dictionary of node [n] ([None]:
    no such node). *)
Definition op_attrs (n : node) (a : option attrs) (op : gop) : option attrs :=
  match op with
  | AddNode n' kw =>
      if bool_decide (n = n') then Some (from_option (attrs_update kw) kw a) else a
  | AddPerson name job =>
      if bool_decide (n = NStr name)
      then Some (from_option (add_role job) (person_attrs job) a)
      else a
  | AddEdge _ _ _ => a
  end.

(** The edges the row with id [id] and cells [p] stands for: the release
    year, the genres, the cast, the crew (filed under four jobs), and
    every actor paired with every director, each in both directions. *)
Inductive row_edge (id : Z) (p : parsed) : node → node → string → Prop :=
| edge_released :
    row_edge id p (NInt id) (NStr (year_of (p_release_date p))) MOVIE_RELEASED_ON
| edge_year_of :
    row_edge id p (NStr (year_of (p_release_date p))) (NInt id) YEAR_RELEASED_MOVIES
| edge_genre g :
    g ∈ p_genres p → row_edge id p (NInt id) (NStr (normalize g)) MOVIE_HAS_GENRE
| edge_genre_of g :
    g ∈ p_genres p → row_edge id p (NStr (normalize g)) (NInt id) GENRE_OF_MOVIES
| edge_actor c :
    c ∈ p_cast p → row_edge id p (NInt id) (NStr (normalize c)) MOVIE_HAS_ACTOR
| edge_acted_in c :
    c ∈ p_cast p → row_edge id p (NStr (normalize c)) (NInt id) ACTED_IN_MOVIES
| edge_crew m :
    m ∈ p_crew p →
    row_edge id p (NInt id) (NStr (normalize m.2)) ("MOVIE_HAS_" +:+ Str.upper (crew_job m))
| edge_crew_of m :
    m ∈ p_crew p →
    row_edge id p (NStr (normalize m.2)) (NInt id) (crew_relation (crew_job m))
| edge_worked_with c m :
    c ∈ p_cast p → m ∈ p_crew p → crew_job m = "director" →
    row_edge id p (NStr (normalize c)) (NStr (normalize m.2)) ACTOR_WORKED_WITH_DIRECTOR
| edge_worked_with_of c m :
    c ∈ p_cast p → m ∈ p_crew p → crew_job m = "director" →
    row_edge id p (NStr (normalize m.2)) (NStr (normalize c)) DIRECTOR_WORKED_WITH_ACTOR.

(** The sixteen relation names, each with the name of the edge that runs
    the other way. *)
Definition RELATION_PAIRS : list (string * string) :=
  [ (MOVIE_RELEASED_ON, YEAR_RELEASED_MOVIES);
    (MOVIE_HAS_GENRE, GENRE_OF_MOVIES);
    (MOVIE_HAS_ACTOR, ACTED_IN_MOVIES);
    ("MOVIE_HAS_DIRECTOR", "DIRECTED_MOVIES");
    ("MOVIE_HAS_PRODUCER", "PRODUCED_MOVIES");
    ("MOVIE_HAS_WRITER", "WROTE_MOVIES");
    ("MOVIE_HAS_SUPPORTING_CREW", "SUPPORTED_MOVIES");
    (ACTOR_WORKED_WITH_DIRECTOR, DIRECTOR_WORKED_WITH_ACTOR) ].

Definition inverse_relation (rel : string) : option string :=
  match alist_get rel RELATION_PAIRS with
  | Some back => Some back
  | None => alist_get rel (prod_swap <$> RELATION_PAIRS)
  end.

(** The nodes a row stands for: the film, its release year, its genres,
    its cast and its crew. *)
Inductive row_node (id : Z) (p : parsed) : node → Prop :=
| node_movie : row_node id p (NInt id)
| node_year : row_node id p (NStr (year_of (p_release_date p)))
| node_genre g : g ∈ p_genres p → row_node id p (NStr (normalize g))
| node_actor c : c ∈ p_cast p → row_node id p (NStr (normalize c))
| node_crew m : m ∈ p_crew p → row_node id p (NStr (normalize m.2)).

(** The credits of a row: a name and the role it is filed under. *)
Inductive row_credit (p : parsed) : string → string → Prop :=
| credit_actor c : c ∈ p_cast p → row_credit p (normalize c) "actor"
| credit_crew m : m ∈ p_crew p → row_credit p (normalize m.2) (crew_job m).

(** The node whose attribute dictionary a call writes. *)
Definition op_target (op : gop) : option node :=
  match op with
  | AddNode n _ => Some n
  | AddPerson name _ => Some (NStr name)
  | AddEdge _ _ _ => None
  end.

(** The keyword arguments of the [add_node] calls of [build_graph]: a
    film with its seven fields, or a bare date or genre label. *)
Definition op_typed (op : gop) : Prop :=
  match op with
  | AddNode (NInt _) kw => label kw = Some "movie" ∧ roles kw = None
  | AddNode (NStr _) kw => kw = label_attrs "date" ∨ kw = label_attrs "genre"
  | _ => True
  end.

(** The label a node identifier of that type can bear. *)
Definition label_fits (n : node) (a : attrs) : Prop :=
  match n with
  | NInt _ => label a = Some "movie"
  | NStr _ => label a = Some "date" ∨ label a = Some "genre" ∨ label a = Some "person"
  end.


(** The filter of [query_entity_graph] lets an edge through: there is no
    (truthy) filter, or the relation is the one asked for. *)
Definition relation_passes (relation : option string) (rel : string) : bool :=
  negb (truthy relation) || bool_decide (Some rel = relation).

(** An entity record with its neighbour list cut down to the relation
    asked for. *)
Definition restrict_neighbors (relation : option string) (rec : entity_rec) : entity_rec :=
  {| er_node := er_node rec; er_label := er_label rec; er_node_data := er_node_data rec;
     er_neighbors :=
       filter (λ nb, relation_passes relation (nb_relation nb) = true) (er_neighbors rec) |}.

(** The record [query_entity_graph] makes for a node. *)
Definition record_of (G : MultiDiGraph) (relation : option string) (n : node) : entity_rec :=
  let nd := default no_attrs (alist_get n (g_node G)) in
  {| er_node := n; er_label := label nd; er_node_data := nd;
     er_neighbors := neighbor_list (Graph.adj G n) relation |}.


(** [x] is reached from [y] in one step of a search that expands a node
    into [nbrs]. *)
Definition via (nbrs : node → list node) : node → node → Prop := λ y x, x ∈ nbrs y.

(** [n] steps of [R] lead from the first node to the second. *)
Inductive steps (R : node → node → Prop) : nat → node → node → Prop :=
| steps_O x : steps R 0 x x
| steps_S n x y z : steps R n x y → R y z → steps R (S n) x z.

(** A link dictionary of a search from [root]: only the root has no
    parent, and every other key was reached from its parent. *)
Definition search_tree (nbrs : node → list node) (root : node) (d : NX.links) : Prop :=
  d !! root = Some None
  ∧ (∀ x, d !! x = Some None → x = root)
  ∧ (∀ x y, d !! x = Some (Some y) → y ∈ dom d ∧ x ∈ nbrs y).

(** The links lead from [x] to the root over at most [k] edges. *)
Definition shallow (k : nat) (d : NX.links) (x : node) : Prop :=
  ∃ l, chain d x l ∧ (length l ≤ S k)%nat.

(** One search direction in the middle of level [k]: [pending] are the
    nodes of the level still to expand, [fringe] the nodes found for the
    next level.  Every node reached lies within [k + 1] edges of the root,
    every node within [k] edges has been reached, the neighbours of every
    expanded node have been reached, and no node is known to the opposite
    search. *)
Definition level_state (nbrs : node → list node) (root : node) (k : nat) (other d : NX.links)
    (pending fringe : list node) : Prop :=
  search_tree nbrs root d
  ∧ (∀ x, x ∈ dom d → shallow (S k) d x)
  ∧ (∀ v, v ∈ pending → shallow k d v)
  ∧ (∀ w, w ∈ fringe → w ∈ dom d)
  ∧ (∀ y w, y ∈ dom d → y ∉ pending → y ∉ fringe → w ∈ nbrs y → w ∈ dom d)
  ∧ (∀ n x, (n ≤ k)%nat → steps (via nbrs) n root x → x ∈ dom d ∧ x ∉ fringe)
  ∧ dom d ## dom other.

(** One search direction between two rounds, about to expand level [k]. *)
Definition round_state (nbrs : node → list node) (root : node) (k : nat) (other d : NX.links)
    (fringe : list node) : Prop :=
  level_state nbrs root k other d fringe [] ∧ ∀ x, x ∈ dom d → shallow k d x.

(** The searches have met in [w]. *)
Definition meet_state (nbrs : node → list node) (root : node) (k : nat) (other d : NX.links)
    (w : node) : Prop :=
  search_tree nbrs root d ∧ shallow (S k) d w ∧ w ∈ dom other.

Definition level_post (nbrs : node → list node) (root : node) (k : nat) (other d : NX.links)
    (pending : list node) (r : NX.level_result) : Prop :=
  match r with
  | NX.Meet d' w => meet_state nbrs root k other d' w
  | NX.Next d' fringe' => level_state nbrs root k other d' pending fringe' ∧ dom d ⊆ dom d'
  end.

(** What the bidirectional search hands back: link dictionaries that
    join in [w] over no more edges than any walk from [s] to [t] has, or
    [NetworkXNoPath] when there is no such walk. *)
Definition search_result (G : MultiDiGraph) (s t : node)
    (r : result (NX.links * NX.links * node)) : Prop :=
  match r with
  | Ok (pred, succ, w) =>
      search_tree (Graph.neighbors G) s pred ∧ search_tree (NX.predecessors G) t succ
      ∧ ∃ lb lr, chain pred w lb ∧ chain succ w lr
                 ∧ ∀ n, steps (via (Graph.neighbors G)) n s t →
                        (length lb + length lr ≤ n + 2)%nat
  | Raise e => e = NetworkXNoPath ∧ ∀ n, ¬ steps (via (Graph.neighbors G)) n s t
  end.

(** [rest] is a shortest walk from [a] to [b]. *)
Definition shortest_walk (G : MultiDiGraph) (a b : node) (rest : list node) : Prop :=
  Graph.walk G a rest ∧ last (a :: rest) = Some b
  ∧ ∀ rest', Graph.walk G a rest' → last (a :: rest') = Some b →
             (length rest ≤ length rest')%nat.



(** ** A small data set

    The synthetic row of the specification's example and a second film
    with the same actor and director. *)

Module Sample.

Definition mk_row (id : Z) (title date : string) (genres cast : list string)
    (crew : list (string * string)) : Row :=
  {| r_id := id; r_title := Some title; r_release_date := Some date;
     r_popularity := PNone; r_vote_average := PNone; r_overview := PStr "";
     r_keywords := Ok []; r_genres := Ok genres; r_cast := Ok cast; r_crew := Ok crew;
     r_original_title := PStr title; r_original_language := PStr "en";
     r_budget := PInt 0; r_revenue := PInt 0 |}.

Definition test_film : Row :=
  mk_row 1 "Test Film" "1999-05-01" ["Action"] ["Jane Doe"] [("Director", "John Roe")].

Definition second_film : Row :=
  mk_row 2 "Second Film" "2001-07-15" ["Drama"] ["Jane Doe"] [("Director", "John Roe")].

Definition graph_of (df : list Row) : MultiDiGraph :=
  match build_graph Graph.empty df with
  | Ok G => G
  | Raise _ => Graph.empty
  end.

Definition one_film : MovieGraph :=
  {| mg_Graph := graph_of [test_film]; movies_df := [test_film] |}.

Definition two_films : MovieGraph :=
  {| mg_Graph := graph_of [test_film; second_film];
     movies_df := [test_film; second_film] |}.

(** A film that shares no person, genre or year with [test_film]. *)
Definition other_film : Row :=
  mk_row 3 "Other Film" "2005-03-03" ["Comedy"] ["Ann Poe"] [("Producer", "Bob Moe")].

Definition apart : MovieGraph :=
  {| mg_Graph := graph_of [test_film; other_film];
     movies_df := [test_film; other_film] |}.

(** The nodes around [test_film]. *)
Definition test_film_nodes : list node :=
  [NInt 1; NStr "1999"; NStr "action"; NStr "jane doe"; NStr "john roe"].

(** The paths of at most one edge from jane doe to john roe. *)
Definition jane_john_paths : list (list path_node) :=
  Eval vm_compute in
    match all_paths_query two_films (PStr "jane doe") (PStr "john roe") 1 with
    | Ok result => result
    | Raise _ => []
    end.

End Sample.

(** ** More sample data

    The joined frame behind [Sample.two_films] (its third row repeats the
    id of the first), a shortest path in that graph, and stand-ins for the
    libraries around the vector index: every call succeeds, a matrix is
    the list of the texts written into it, and the index file is never
    found. *)

Module Sample2.

Definition joined : list Row := [Sample.test_film; Sample.second_film; Sample.test_film].


Definition texts : list pyval := [PStr "a"; PStr "b"; PStr "c"].

Definition encode_batch (batch_texts : list pyval) : result (list pyval) := Ok batch_texts.

Definition assign_rows (embeddings : list pyval) (start_idx end_idx : nat)
    (batch_embeddings : list pyval) : result (list pyval) :=
  Ok (take start_idx embeddings ++ batch_embeddings ++ drop end_idx embeddings).

Definition zeros (n : nat) (dim : Z) : result (list pyval) := Ok (replicate n PNone).

Definition make_index (embeddings : list pyval) : result (list pyval) := Ok embeddings.

Definition write_files (index_path mapping_path : string) (ix : list pyval)
    (mapping : gmap Z Z) : result unit := Ok ().

Definition fresh : @faiss_object (list pyval) :=
  {| selected_model_name := "e5-base-v2";
     faiss_index_file := "e5-base-v2_faiss_index.bin";
     id_mapping_file := "e5-base-v2_mapping.pkl";
     faiss_state := unbuilt |}.

Definition table : list Row := [Sample.test_film; Sample.second_film].

(** [fresh] after [build_index] over [table]. *)
Definition built_index : @faiss_object (list pyval) :=
  with_state fresh
    {| index := Some [PStr "passage: "; PStr "passage: "];
       index_to_id := enumerate_ids [1; 2] |}.

(** The search that answers every query with the labels 1 and 0. *)
Definition encode (query_text : string) : result string := Ok query_text.

Definition index_search (ix : list pyval) (query_emb : string) (top_k : Z)
    : result (list Z) := Ok [1; 0].

Definition agent_init (embedding_model : string) (update_embeddings : bool)
    : result (@agent (list pyval)) :=
  MovieRAGAgent_init (λ _, Ok ()) (Ok 1) zeros encode_batch assign_rows make_index
    write_files (λ _, false) (λ _, Raise (OtherError "no file"))
    (λ _, Raise (OtherError "no file")) (Ok joined) (Ok ())
    (λ ix, Z.of_nat (length ix)) embedding_model update_embeddings.

End Sample2.

(** * Dictionaries *)

(** ** Dictionary lookups *)

Section alist_facts.
Context {K V : Type} `{EqDecision K}.
Implicit Types (l : list (K * V)) (k : K).

Lemma alist_get_Some_elem k v l : alist_get k l = Some v → (k, v) ∈ l.
Proof.
  induction l as [|[k' v'] l IH]; simpl; [done|].
  case_decide; intros Hg.
  - simplify_eq. apply list_elem_of_here.
  - apply list_elem_of_further. auto.
Qed.

Lemma alist_get_None k l : alist_get k l = None ↔ k ∉ l.*1.
Proof.
  induction l as [|[k' v'] l IH]; simpl.
  - split; [intros _; apply not_elem_of_nil | done].
  - case_decide; subst.
    + split; [done | intros []; apply list_elem_of_here].
    + rewrite IH, not_elem_of_cons. tauto.
Qed.

Lemma alist_get_is_Some k l : is_Some (alist_get k l) ↔ k ∈ l.*1.
Proof.
  destruct (alist_get k l) eqn:E.
  - split; [intros _ | eauto].
    apply alist_get_Some_elem in E. apply list_elem_of_fmap. by exists (k, v).
  - apply alist_get_None in E. split; [by intros [? ?] | done].
Qed.

Lemma alist_mem_true k l : alist_mem k l = true ↔ k ∈ l.*1.
Proof. unfold alist_mem. rewrite bool_decide_eq_true. apply alist_get_is_Some. Qed.

Lemma alist_mem_false k l : alist_mem k l = false ↔ k ∉ l.*1.
Proof. unfold alist_mem. rewrite bool_decide_eq_false. by rewrite alist_get_is_Some. Qed.

Lemma alist_get_elem_NoDup k v l : NoDup l.*1 → (k, v) ∈ l → alist_get k l = Some v.
Proof.
  induction l as [|[k' v'] l IH]; simpl; intros Hnd Hin.
  - by apply elem_of_nil in Hin.
  - apply NoDup_cons in Hnd as [Hk Hnd]. apply elem_of_cons in Hin as [Heq|Hin].
    + simplify_eq. by rewrite decide_True.
    + rewrite decide_False; [auto|]. intros ->. apply Hk.
      apply list_elem_of_fmap. by exists (k', v).
Qed.
End alist_facts.

(** ** Dictionary updates *)

Section alist_updates.
Context {K V : Type} `{EqDecision K}.
Implicit Types (l : list (K * V)) (k : K).

Lemma alist_get_alter (f : V → V) k k' l :
  alist_get k (alist_alter f k' l)
  = if decide (k = k') then f <$> alist_get k l else alist_get k l.
Proof.
  induction l as [|[k0 v0] l IH]; simpl; [by case_decide|].
  destruct (decide (k' = k0)) as [->|Hne]; simpl.
  - by destruct (decide (k = k0)).
  - rewrite IH. destruct (decide (k = k0)) as [->|?]; [|done].
    by rewrite decide_False by done.
Qed.

Lemma alist_get_set k k' (v : V) l :
  alist_get k (alist_set k' v l) = if decide (k = k') then Some v else alist_get k l.
Proof.
  induction l as [|[k0 v0] l IH]; simpl; [done|].
  destruct (decide (k' = k0)) as [->|Hne]; simpl.
  - by destruct (decide (k = k0)).
  - rewrite IH. destruct (decide (k = k0)) as [->|?]; [|done].
    by rewrite decide_False by done.
Qed.

Lemma alist_get_snoc k k' (v : V) l :
  alist_get k (l ++ [(k', v)])
  = match alist_get k l with
    | Some x => Some x
    | None => if decide (k = k') then Some v else None
    end.
Proof.
  induction l as [|[k0 v0] l IH]; simpl; [done|]. by destruct (decide (k = k0)).
Qed.

Lemma alist_alter_keys (f : V → V) k l : (alist_alter f k l).*1 = l.*1.
Proof.
  induction l as [|[k0 v0] l IH]; csimpl; [done|].
  destruct (decide (k = k0)); csimpl; [done|]. by rewrite IH.
Qed.

Lemma alist_set_keys k (v : V) l :
  (alist_set k v l).*1 = if alist_mem k l then l.*1 else l.*1 ++ [k].
Proof.
  induction l as [|[k0 v0] l IH]; csimpl; [done|].
  unfold alist_mem in *. csimpl. destruct (decide (k = k0)) as [->|Hne]; csimpl.
  - done.
  - rewrite IH. by destruct (bool_decide _).
Qed.
End alist_updates.

(** * The graph operations *)

(** ** Nodes reached through the adjacency *)

Lemma has_node_data G n :
  Graph.has_node G n = true → ∃ a, alist_get n (g_node G) = Some a ∧ Graph.node_data G n = Ok a.
Proof.
  unfold Graph.has_node, Graph.node_data. rewrite alist_mem_true, <- alist_get_is_Some.
  intros [a Ha]. exists a. by rewrite Ha.
Qed.

Lemma adj_elem G u e : e ∈ Graph.adj G u → ∃ nbrs, (u, nbrs) ∈ g_succ G ∧ e ∈ nbrs.
Proof.
  unfold Graph.adj. destruct (alist_get u (g_succ G)) as [nbrs|] eqn:E; simpl.
  - intros He. exists nbrs. split; [by apply alist_get_Some_elem | done].
  - intros He. by apply elem_of_nil in He.
Qed.

Lemma wf_adj G u : Graph.wf G → Graph.wf_adjacency G (Graph.adj G u).
Proof.
  intros (_ & _ & Hall). unfold Graph.adj.
  destruct (alist_get u (g_succ G)) as [nbrs|] eqn:E; simpl.
  - apply alist_get_Some_elem in E. rewrite Forall_forall in Hall.
    by destruct (Hall _ E).
  - split; [constructor | constructor].
Qed.

Lemma wf_neighbor_has_node G u v :
  Graph.wf G → v ∈ Graph.neighbors G u → Graph.has_node G v = true.
Proof.
  intros Hwf Hv. destruct (wf_adj G u Hwf) as [_ Hall].
  unfold Graph.neighbors in Hv. apply list_elem_of_fmap in Hv as ([v' kd] & -> & Hin).
  rewrite Forall_forall in Hall. by destruct (Hall _ Hin).
Qed.

(** ** The adjacency under the graph operations *)

Lemma adj_ensure_node G n u : Graph.adj (Graph.ensure_node G n) u = Graph.adj G u.
Proof.
  unfold Graph.ensure_node, Graph.adj.
  destruct (alist_mem n (g_succ G)) eqn:E; [done|]. simpl.
  rewrite alist_get_snoc. destruct (alist_get u (g_succ G)) eqn:Eu; [done|].
  by case_decide.
Qed.

Lemma get_ensure_node G n :
  alist_get n (g_succ (Graph.ensure_node G n)) = Some (Graph.adj G n).
Proof.
  unfold Graph.ensure_node, Graph.adj.
  destruct (alist_mem n (g_succ G)) eqn:E.
  - apply alist_mem_true, alist_get_is_Some in E as [nbrs Hn]. by rewrite Hn.
  - apply alist_mem_false, alist_get_None in E. simpl.
    by rewrite alist_get_snoc, E, decide_True.
Qed.

Lemma get_ensure_node_other G n u :
  alist_get u (g_succ G) = Some (Graph.adj G u) →
  alist_get u (g_succ (Graph.ensure_node G n)) = Some (Graph.adj G u).
Proof.
  intros Hu. unfold Graph.ensure_node.
  destruct (alist_mem n (g_succ G)); [done|]. simpl.
  by rewrite alist_get_snoc, Hu.
Qed.

Lemma adj_add_node G n kw u : Graph.adj (Graph.add_node G n kw) u = Graph.adj G u.
Proof.
  unfold Graph.add_node, Graph.adj.
  destruct (alist_mem n (g_succ G)) eqn:E; [done|]. simpl.
  rewrite alist_get_snoc. destruct (alist_get u (g_succ G)) eqn:Eu; [done|].
  by case_decide.
Qed.

Lemma adj_add_node_role G n job u : Graph.adj (Graph.add_node_role G n job) u = Graph.adj G u.
Proof. done. Qed.

Lemma adj_add_edge G u v rel x :
  Graph.adj (Graph.add_edge G u v rel) x
  = if decide (x = u) then Graph.add_parallel v rel (Graph.adj G u) else Graph.adj G x.
Proof.
  unfold Graph.add_edge.
  set (G2 := Graph.ensure_node (Graph.ensure_node G u) v).
  unfold Graph.adj at 1. simpl. rewrite alist_get_alter.
  destruct (decide (x = u)) as [->|Hne].
  - assert (alist_get u (g_succ G2) = Some (Graph.adj G u)) as ->; [|done].
    unfold G2. rewrite <- (adj_ensure_node G u u).
    apply get_ensure_node_other. rewrite adj_ensure_node. apply get_ensure_node.
  - fold (Graph.adj G2 x). unfold G2. by rewrite !adj_ensure_node.
Qed.

(** ** Labels under the graph operations *)

Lemma movie_labelled_ensure_node G n x :
  movie_labelled (Graph.ensure_node G n) x → movie_labelled G x.
Proof.
  unfold Graph.ensure_node, movie_labelled.
  destruct (alist_mem n (g_succ G)); [done|]. simpl.
  intros (a & Ha & Hl). rewrite alist_get_set in Ha.
  case_decide; [by simplify_eq|eauto].
Qed.

Lemma movie_labelled_add_edge G u v rel x :
  movie_labelled (Graph.add_edge G u v rel) x → movie_labelled G x.
Proof.
  intros H. do 2 apply movie_labelled_ensure_node in H. done.
Qed.

Lemma movie_labelled_add_node_role G n job x :
  movie_labelled (Graph.add_node_role G n job) x → movie_labelled G x.
Proof.
  unfold movie_labelled. simpl. intros (a & Ha & Hl). rewrite alist_get_alter in Ha.
  case_decide; [|eauto]. subst.
  destruct (alist_get n (g_node G)) as [a0|]; simpl in Ha; [|done].
  simplify_eq. eauto.
Qed.

Lemma movie_labelled_add_node G n kw x :
  movie_labelled (Graph.add_node G n kw) x →
  (x = n ∧ label kw = Some "movie") ∨ movie_labelled G x.
Proof.
  unfold Graph.add_node, movie_labelled.
  destruct (alist_mem n (g_succ G)); simpl; intros (a & Ha & Hl).
  - rewrite alist_get_alter in Ha. case_decide; [|eauto]. subst.
    destruct (alist_get n (g_node G)) as [a0|]; simpl in Ha; [|done].
    simplify_eq. simpl in Hl. unfold keep in Hl.
    destruct (label kw) eqn:E; [left; by simplify_eq|right; eauto].
  - rewrite alist_get_set in Ha. case_decide; [left; by simplify_eq|eauto].
Qed.

(** ** Edges under the graph operations *)

Lemma edge_relations_adj G u v :
  Graph.edge_relations G u v
  = from_option Ok (Raise KeyError) (alist_get v (Graph.adj G u)).
Proof.
  unfold Graph.edge_relations, Graph.adj.
  destruct (alist_get u (g_succ G)) as [nbrs|]; simpl; [|done].
  by destruct (alist_get v nbrs).
Qed.

Lemma has_rel_edge_adj G u v r :
  Graph.has_rel_edge G u v r ↔ ∃ kd, alist_get v (Graph.adj G u) = Some kd ∧ r ∈ kd.
Proof.
  unfold Graph.has_rel_edge. rewrite edge_relations_adj.
  destruct (alist_get v (Graph.adj G u)) as [kd|]; simpl.
  - split; intros (kd' & ? & ?); simplify_eq; eauto.
  - split; intros (kd' & ? & ?); simplify_eq.
Qed.

Lemma get_add_parallel x v r (nbrs : adjacency) :
  alist_get x (Graph.add_parallel v r nbrs)
  = if decide (x = v) then Some (default [] (alist_get v nbrs) ++ [r]) else alist_get x nbrs.
Proof.
  unfold Graph.add_parallel. destruct (alist_mem v nbrs) eqn:E.
  - apply alist_mem_true, alist_get_is_Some in E as [kd Hkd].
    rewrite alist_get_alter. case_decide; [subst; by rewrite Hkd|done].
  - apply alist_mem_false, alist_get_None in E. rewrite alist_get_snoc.
    case_decide; [subst; by rewrite E|]. by destruct (alist_get x nbrs).
Qed.

Lemma has_rel_edge_add_edge G u v r : Graph.has_rel_edge (Graph.add_edge G u v r) u v r.
Proof.
  apply has_rel_edge_adj. rewrite adj_add_edge, decide_True by done.
  rewrite get_add_parallel, decide_True by done.
  eexists. split; [done|]. apply elem_of_app. right. apply list_elem_of_here.
Qed.

Lemma has_rel_edge_add_edge_mono G u v r u' v' r' :
  Graph.has_rel_edge G u' v' r' → Graph.has_rel_edge (Graph.add_edge G u v r) u' v' r'.
Proof.
  rewrite !has_rel_edge_adj. intros (kd & Hkd & Hr). rewrite adj_add_edge.
  destruct (decide (u' = u)) as [->|?]; [|eauto].
  rewrite get_add_parallel. destruct (decide (v' = v)) as [->|?]; [|eauto].
  rewrite Hkd. eexists. split; [done|]. apply elem_of_app. by left.
Qed.

Lemma targets_in_cons e (nbrs : adjacency) rel :
  Graph.targets_in (e :: nbrs) rel
  = ((λ _ : string, e.1) <$> filter (λ r, r = rel) e.2) ++ Graph.targets_in nbrs rel.
Proof. done. Qed.

Lemma targets_in_snoc e (nbrs : adjacency) rel :
  Graph.targets_in (nbrs ++ [e]) rel
  = Graph.targets_in nbrs rel ++ ((λ _ : string, e.1) <$> filter (λ r, r = rel) e.2).
Proof.
  unfold Graph.targets_in. rewrite bind_app. f_equal. csimpl. by rewrite app_nil_r.
Qed.

Lemma targets_in_add_parallel_other v r (nbrs : adjacency) rel :
  r ≠ rel → Graph.targets_in (Graph.add_parallel v r nbrs) rel = Graph.targets_in nbrs rel.
Proof.
  intros Hne. unfold Graph.add_parallel. destruct (alist_mem v nbrs).
  - induction nbrs as [|[k0 kd] nbrs IH]; cbn [alist_alter]; [done|].
    case_decide; rewrite !targets_in_cons; cbn [fst snd]; [|by rewrite IH].
    rewrite filter_app, (filter_cons _ r), decide_False by done.
    by rewrite filter_nil, app_nil_r.
  - rewrite targets_in_snoc. cbn [fst snd]. rewrite filter_cons, decide_False by done.
    rewrite filter_nil. csimpl. by rewrite app_nil_r.
Qed.

Lemma targets_in_add_parallel_first v (nbrs : adjacency) rel :
  Graph.targets_in nbrs rel = [] →
  Graph.targets_in (Graph.add_parallel v rel nbrs) rel = [v].
Proof.
  intros Hnil. unfold Graph.add_parallel. destruct (alist_mem v nbrs) eqn:E.
  - apply alist_mem_true in E.
    induction nbrs as [|[k0 kd] nbrs IH]; [by apply elem_of_nil in E|].
    rewrite targets_in_cons in Hnil. apply app_eq_nil in Hnil as [Hkd Hrest].
    cbn [fst snd alist_alter] in *. case_decide as Hv; rewrite targets_in_cons; cbn [fst snd].
    + subst. rewrite filter_app, fmap_app, Hkd, Hrest.
      rewrite (filter_cons _ rel), decide_True by done. done.
    + rewrite Hkd. cbn [app]. apply IH; [done|].
      rewrite fmap_cons in E. apply elem_of_cons in E as [?|?]; done.
  - rewrite targets_in_snoc, Hnil. cbn [fst snd].
    by rewrite filter_cons, decide_True by done.
Qed.

(** * The graph builder *)

(** ** What the steps of [build_row] keep *)

Lemma extends_refl G : extends G G.
Proof. by split_and!. Qed.

Lemma extends_trans G1 G2 G3 : extends G1 G2 → extends G2 G3 → extends G1 G3.
Proof.
  intros (Ht1 & He1 & Hl1) (Ht2 & He2 & Hl2). split_and!.
  - intros i. by rewrite Ht2, Ht1.
  - eauto.
  - eauto.
Qed.

Lemma extends_add_node G n kw :
  label kw ≠ Some "movie" → extends G (Graph.add_node G n kw).
Proof.
  intros Hl. split_and!.
  - intros i. unfold Graph.targets_by_relation. by rewrite adj_add_node.
  - intros u v r. rewrite !has_rel_edge_adj. by rewrite adj_add_node.
  - intros x Hx. by apply movie_labelled_add_node in Hx as [[_ ?]|?].
Qed.

Lemma extends_add_node_role G n job : extends G (Graph.add_node_role G n job).
Proof.
  split_and!; [done|done|]. apply movie_labelled_add_node_role.
Qed.

Lemma extends_add_edge G u v r :
  (∀ i, u ≠ NInt i) ∨ r ≠ MOVIE_RELEASED_ON → extends G (Graph.add_edge G u v r).
Proof.
  intros Hur. split_and!.
  - intros i. unfold Graph.targets_by_relation. rewrite adj_add_edge.
    case_decide as Hu; [|done]. destruct Hur as [Hu'|Hr]; [by destruct (Hu' i)|].
    subst. by apply targets_in_add_parallel_other.
  - intros u' v' r'. apply has_rel_edge_add_edge_mono.
  - apply movie_labelled_add_edge.
Qed.

Lemma extends_add_person G name job : extends G (add_person G name job).
Proof.
  unfold add_person. destruct (negb _).
  - by apply extends_add_node.
  - apply extends_add_node_role.
Qed.

Lemma extends_add_genre G movie_id g : extends G (add_genre movie_id G g).
Proof.
  unfold add_genre.
  eapply extends_trans; [|apply extends_add_edge; by left].
  eapply extends_trans; [|apply extends_add_edge; by right].
  by apply extends_add_node.
Qed.

Lemma extends_add_actor st movie_id c : extends st.1 (add_actor movie_id st c).1.
Proof.
  destruct st as [G actors]. simpl.
  eapply extends_trans; [|apply extends_add_edge; by left].
  eapply extends_trans; [|apply extends_add_edge; by right].
  apply extends_add_person.
Qed.

Lemma crew_relation_name job :
  "MOVIE_HAS_" +:+ Str.upper (classify_job job) ≠ MOVIE_RELEASED_ON.
Proof.
  unfold classify_job. case_bool_decide as Hj; [|done].
  repeat (apply elem_of_cons in Hj as [->|Hj]; [done|]).
  by apply elem_of_nil in Hj.
Qed.

Lemma extends_add_crew st movie_id member : extends st.1 (add_crew movie_id st member).1.
Proof.
  destruct st as [G directors]. simpl.
  eapply extends_trans; [|apply extends_add_edge; by left].
  eapply extends_trans; [|apply extends_add_edge; right; apply crew_relation_name].
  apply extends_add_person.
Qed.

Lemma extends_add_pairing G actor director : extends G (add_pairing G actor director).
Proof.
  unfold add_pairing.
  eapply extends_trans; [|apply extends_add_edge; by left].
  apply extends_add_edge; by left.
Qed.

Lemma extends_foldl {A} (f : MultiDiGraph → A → MultiDiGraph) (l : list A) :
  (∀ G x, extends G (f G x)) → ∀ G, extends G (foldl f G l).
Proof.
  intros Hf. induction l as [|x l IH]; intros G; simpl; [apply extends_refl|].
  eapply extends_trans; [apply Hf|apply IH].
Qed.

Lemma extends_foldl_state {A S} (f : MultiDiGraph * S → A → MultiDiGraph * S) (l : list A) :
  (∀ st x, extends st.1 (f st x).1) → ∀ st, extends st.1 (foldl f st l).1.
Proof.
  intros Hf. induction l as [|x l IH]; intros st; simpl; [apply extends_refl|].
  eapply extends_trans; [apply Hf|apply IH].
Qed.

Lemma extends_add_pairings G actors directors : extends G (add_pairings G actors directors).
Proof.
  unfold add_pairings. apply extends_foldl. intros G' actor.
  apply extends_foldl. intros G'' director. apply extends_add_pairing.
Qed.

(** ** The release edges of a built graph *)

Lemma has_rel_edge_add_node G n kw u v r :
  Graph.has_rel_edge G u v r → Graph.has_rel_edge (Graph.add_node G n kw) u v r.
Proof. rewrite !has_rel_edge_adj. by rewrite adj_add_node. Qed.

Lemma release_steps G (id : Z) (y : string) (kw : attrs) :
  let G1 := Graph.add_node (Graph.add_node G (NInt id) kw) (NStr y) (label_attrs "date") in
  let G2 := Graph.add_edge G1 (NInt id) (NStr y) MOVIE_RELEASED_ON in
  let G3 := Graph.add_edge G2 (NStr y) (NInt id) YEAR_RELEASED_MOVIES in
  (∀ i, i ≠ id → Graph.targets_by_relation G3 (NInt i) MOVIE_RELEASED_ON
                 = Graph.targets_by_relation G (NInt i) MOVIE_RELEASED_ON)
  ∧ (Graph.targets_by_relation G (NInt id) MOVIE_RELEASED_ON = [] →
     Graph.targets_by_relation G3 (NInt id) MOVIE_RELEASED_ON = [NStr y])
  ∧ Graph.has_rel_edge G3 (NStr y) (NInt id) YEAR_RELEASED_MOVIES
  ∧ (∀ u v r, Graph.has_rel_edge G u v r → Graph.has_rel_edge G3 u v r)
  ∧ (∀ n, movie_labelled G3 n → n = NInt id ∨ movie_labelled G n).
Proof.
  intros G1 G2 G3.
  assert (∀ i, Graph.targets_by_relation G3 (NInt i) MOVIE_RELEASED_ON
               = Graph.targets_by_relation G2 (NInt i) MOVIE_RELEASED_ON) as H32.
  { intros i. unfold Graph.targets_by_relation, G3. rewrite adj_add_edge.
    by rewrite decide_False. }
  split_and!.
  - intros i Hi. rewrite H32. unfold Graph.targets_by_relation, G2, G1.
    rewrite adj_add_edge, decide_False by congruence. by rewrite !adj_add_node.
  - intros Hnil. rewrite H32. unfold Graph.targets_by_relation, G2, G1.
    rewrite adj_add_edge, decide_True by done. rewrite !adj_add_node.
    by apply targets_in_add_parallel_first.
  - apply has_rel_edge_add_edge.
  - intros u v r Hr. do 2 apply has_rel_edge_add_edge_mono.
    by do 2 apply has_rel_edge_add_node.
  - intros n Hn. do 2 apply movie_labelled_add_edge in Hn.
    apply movie_labelled_add_node in Hn as [[_ ?]|Hn]; [done|].
    apply movie_labelled_add_node in Hn as [[-> _]|?]; eauto.
Qed.

Lemma built_empty : built [] Graph.empty.
Proof.
  split_and!.
  - by intros n (a & Ha & _).
  - intros r Hr. by apply elem_of_nil in Hr.
  - done.
Qed.

Lemma build_row_built done G r G' :
  built done G → r_id r ∉ r_id <$> done → build_row G r = Ok G' →
  built (done ++ [r]) G'.
Proof.
  intros (Hlab & Hrel & Hnone) Hnew Hrow. unfold build_row in Hrow.
  destruct (r_release_date r) as [d|] eqn:Ed; [|done].
  destruct (r_title r) as [ttl|]; [|done].
  destruct (r_keywords r) as [kws|]; [|done].
  destruct (r_genres r) as [genres|]; [|done].
  destruct (r_cast r) as [cast|]; [|done].
  destruct (r_crew r) as [crew|];
    [|by cbn [from_option mbind result_bind] in Hrow; destruct (foldl _ _ cast)].
  cbn [from_option mbind result_bind] in Hrow.
  set (kw := {| label := Some "movie"; title := Some (Str.lower (Str.strip ttl));
                popularity := Some (r_popularity r);
                vote_average := Some (r_vote_average r);
                overview := Some (r_overview r);
                launch_year := Some (year_of d); keywords := Some kws;
                roles := None |}) in Hrow.
  set (G3 := Graph.add_edge (Graph.add_edge (Graph.add_node
                (Graph.add_node G (NInt (r_id r)) kw) _ _) _ _ _) _ _ _) in Hrow.
  destruct (release_steps G (r_id r) (year_of d) kw) as (Hoth & Hfirst & Hback & Hmono & Hl3).
  fold G3 in Hoth, Hfirst, Hback, Hmono, Hl3.
  set (Gg := foldl (add_genre (NInt (r_id r))) G3 genres) in Hrow.
  assert (extends G3 Gg) as Hg by (apply extends_foldl; intros; apply extends_add_genre).
  pose proof (extends_foldl_state (add_actor (NInt (r_id r))) cast
                (λ st c, extends_add_actor st _ c) (Gg, [])) as Ha.
  destruct (foldl (add_actor (NInt (r_id r))) (Gg, []) cast) as [Ga actors].
  pose proof (extends_foldl_state (add_crew (NInt (r_id r))) crew
                (λ st c, extends_add_crew st _ c) (Ga, [])) as Hc.
  destruct (foldl (add_crew (NInt (r_id r))) (Ga, []) crew) as [Gc directors].
  simpl in Ha, Hc. injection Hrow as <-.
  assert (extends G3 (add_pairings Gc actors directors)) as (Ht & He & Hl).
  { eapply extends_trans; [|apply extends_add_pairings].
    eapply extends_trans; [|done]. eapply extends_trans; done. }
  split_and!.
  - intros n Hn. apply Hl, Hl3 in Hn as [->|Hn].
    + exists r. split; [|done]. apply elem_of_app. right. apply list_elem_of_here.
    + destruct (Hlab n Hn) as (r' & Hr' & ->). exists r'. split; [|done].
      apply elem_of_app. by left.
  - intros r' Hr'. apply elem_of_app in Hr' as [Hr'|Hr'].
    + destruct (Hrel r' Hr') as (d' & Hd' & Ht' & Hb'). exists d'. split_and!; [done| |].
      * rewrite Ht, Hoth; [done|]. intros Heq. apply Hnew. rewrite <- Heq.
        apply list_elem_of_fmap. by exists r'.
      * by apply He, Hmono.
    + apply list_elem_of_singleton in Hr' as ->. exists d. split_and!; [done| |].
      * rewrite Ht. apply Hfirst. by apply Hnone.
      * by apply He.
  - intros i Hi. rewrite fmap_app, elem_of_app in Hi.
    rewrite Ht, Hoth.
    + apply Hnone. intros ?. apply Hi. by left.
    + intros ->. apply Hi. right. apply list_elem_of_here.
Qed.

Lemma build_graph_built rest : ∀ done G G',
  built done G → NoDup (r_id <$> (done ++ rest)) → build_graph G rest = Ok G' →
  built (done ++ rest) G'.
Proof.
  induction rest as [|r rest IH]; intros done G G' Hb Hnd.
  - intros [= <-]. by rewrite app_nil_r.
  - unfold build_graph. cbn [foldlM].
    destruct (build_row G r) as [G1|] eqn:Hrow; [|done].
    cbn [mbind result_bind]. intros Hrest.
    replace (done ++ r :: rest) with ((done ++ [r]) ++ rest) in * by (by rewrite <- app_assoc).
    eapply IH; [|done|done].
    eapply build_row_built; [done| |done].
    rewrite !fmap_app in Hnd. apply NoDup_app in Hnd as [Hnd _].
    apply NoDup_app in Hnd as (_ & Hdisj & _). intros Hin.
    apply (Hdisj _ Hin). simpl. apply list_elem_of_here.
Qed.

Lemma drop_duplicates_from_NoDup df : ∀ seen,
  NoDup (r_id <$> drop_duplicates_from seen df)
  ∧ ∀ r, r ∈ drop_duplicates_from seen df → r_id r ∉ seen.
Proof.
  induction df as [|r df IH]; intros seen; simpl.
  - split; [constructor|]. intros r Hr. by apply elem_of_nil in Hr.
  - case_bool_decide as Hseen; [apply IH|].
    destruct (IH (r_id r :: seen)) as [Hnd Hnot]. split.
    + csimpl. apply NoDup_cons. split; [|done]. intros Hin.
      apply list_elem_of_fmap in Hin as (r' & Heq & Hr').
      apply (Hnot r' Hr'). rewrite Heq. apply list_elem_of_here.
    + intros r' Hr'. apply elem_of_cons in Hr' as [->|Hr']; [done|].
      intros Hin. apply (Hnot r' Hr'). by apply list_elem_of_further.
Qed.

Lemma ingest_NoDup joined :
  NoDup (r_id <$> dropna_release_date (drop_duplicates joined)).
Proof.
  eapply sublist_NoDup; [apply (drop_duplicates_from_NoDup joined [])|].
  apply fmap_sublist, sublist_filter.
Qed.

(** C1. In the graph that [MovieGraph.__init__] builds, every row of
    the table has exactly one outgoing MOVIE_RELEASED_ON edge at its
    movie node, to the year of the row's release date, and that year
    node has a YEAR_RELEASED_MOVIES edge back to the movie; and every
    node labelled movie is the movie node of a row. *)
Theorem release_edge_invariant (joined : list Row) (mg : MovieGraph) :
  MovieGraph_init joined = Ok mg →
  (∀ r, r ∈ movies_df mg →
     ∃ d, r_release_date r = Some d
       ∧ Graph.targets_by_relation (mg_Graph mg) (NInt (r_id r)) MOVIE_RELEASED_ON
         = [NStr (year_of d)]
       ∧ Graph.has_rel_edge (mg_Graph mg) (NStr (year_of d)) (NInt (r_id r))
           YEAR_RELEASED_MOVIES)
  ∧ (∀ n, movie_labelled (mg_Graph mg) n → ∃ r, r ∈ movies_df mg ∧ n = NInt (r_id r)).
Proof.
  unfold MovieGraph_init. intros Hinit.
  destruct (build_graph _ _) as [G|] eqn:Hb; [|done]. simpl in Hinit.
  injection Hinit as <-. simpl in *.
  apply (build_graph_built _ [] _ _ built_empty (ingest_NoDup joined)) in Hb.
  destruct Hb as (Hlab & Hrel & _). simpl in *. by split.
Qed.

(** ** Well-formedness of built graphs *)

Lemma Forall_alist_alter {K V} `{EqDecision K} (P : K * V → Prop) (f : V → V) k l :
  Forall P l → (∀ v, P (k, v) → P (k, f v)) → Forall P (alist_alter f k l).
Proof.
  intros Hall Hf. induction Hall as [|[k0 v0] l Hx Hall IH]; simpl; [constructor|].
  case_decide; subst; constructor; auto.
Qed.

Lemma wf_adjacency_mono G G' nbrs :
  (∀ n, Graph.has_node G n = true → Graph.has_node G' n = true) →
  Graph.wf_adjacency G nbrs → Graph.wf_adjacency G' nbrs.
Proof.
  intros Hmono [Hnd Hall]. split; [done|].
  eapply Forall_impl; [done|]. intros e [? ?]. auto.
Qed.

Lemma wf_entries_mono G G' (succ : list (node * adjacency)) :
  (∀ n, Graph.has_node G n = true → Graph.has_node G' n = true) →
  Forall (λ e : node * adjacency, Graph.has_node G e.1 = true ∧ Graph.wf_adjacency G e.2) succ →
  Forall (λ e : node * adjacency, Graph.has_node G' e.1 = true ∧ Graph.wf_adjacency G' e.2) succ.
Proof.
  intros Hmono Hall. eapply Forall_impl; [done|].
  intros e [? ?]. split; [auto|]. by eapply wf_adjacency_mono.
Qed.

Lemma has_node_set (n : node) (a : attrs) nodes x :
  alist_mem x (alist_set n a nodes) = true ↔ x = n ∨ alist_mem x nodes = true.
Proof.
  rewrite !alist_mem_true, alist_set_keys.
  destruct (alist_mem n nodes) eqn:E.
  - apply alist_mem_true in E. split; [auto|]. by intros [->|?].
  - rewrite elem_of_app, list_elem_of_singleton. tauto.
Qed.

Lemma NoDup_set_keys (n : node) (a : attrs) nodes : NoDup nodes.*1 → NoDup (alist_set n a nodes).*1.
Proof.
  intros Hnd. rewrite alist_set_keys. destruct (alist_mem n nodes) eqn:E; [done|].
  apply alist_mem_false in E. apply NoDup_app. split_and!; [done| |apply NoDup_singleton].
  intros x Hx Hx'. apply list_elem_of_singleton in Hx'. by subst.
Qed.

(** Appending a fresh node with an empty adjacency. *)
Lemma wf_fresh_node G n a :
  Graph.wf G → alist_mem n (g_succ G) = false →
  Graph.wf {| g_node := alist_set n a (g_node G); g_succ := g_succ G ++ [(n, [])] |}.
Proof.
  intros (Hn & Hs & Hall) Hfresh. apply alist_mem_false in Hfresh.
  assert (∀ x, Graph.has_node G x = true →
               Graph.has_node {| g_node := alist_set n a (g_node G);
                                 g_succ := g_succ G ++ [(n, [])] |} x = true) as Hmono.
  { intros x Hx. unfold Graph.has_node. simpl. apply has_node_set. by right. }
  split_and!; simpl.
  - by apply NoDup_set_keys.
  - rewrite fmap_app. apply NoDup_app. split_and!; [done| |apply NoDup_singleton].
    intros x Hx Hx'. apply list_elem_of_singleton in Hx'. by subst.
  - apply Forall_app. split; [by eapply wf_entries_mono|].
    constructor; [|constructor]. simpl. split.
    + unfold Graph.has_node. simpl. apply has_node_set. by left.
    + split; constructor.
Qed.

Lemma wf_same_keys G nodes :
  nodes.*1 = (g_node G).*1 → Graph.wf G →
  Graph.wf {| g_node := nodes; g_succ := g_succ G |}.
Proof.
  intros Hk (Hn & Hs & Hall). split_and!; simpl; [by rewrite Hk|done|].
  eapply wf_entries_mono; [|done].
  intros x. unfold Graph.has_node. simpl. by rewrite !alist_mem_true, Hk.
Qed.

Lemma wf_add_node G n kw : Graph.wf G → Graph.wf (Graph.add_node G n kw).
Proof.
  intros Hwf. unfold Graph.add_node. destruct (alist_mem n (g_succ G)) eqn:E.
  - apply wf_same_keys; [apply alist_alter_keys|done].
  - by apply wf_fresh_node.
Qed.

Lemma wf_ensure_node G n : Graph.wf G → Graph.wf (Graph.ensure_node G n).
Proof.
  intros Hwf. unfold Graph.ensure_node. destruct (alist_mem n (g_succ G)) eqn:E; [done|].
  by apply wf_fresh_node.
Qed.

Lemma wf_add_node_role G n job : Graph.wf G → Graph.wf (Graph.add_node_role G n job).
Proof. intros Hwf. apply wf_same_keys; [apply alist_alter_keys|done]. Qed.

Lemma wf_succ_has_node G n :
  Graph.wf G → alist_mem n (g_succ G) = true → Graph.has_node G n = true.
Proof.
  intros (_ & _ & Hall) Hn. apply alist_mem_true, list_elem_of_fmap in Hn as ([n' nbrs] & -> & Hin).
  rewrite Forall_forall in Hall. by destruct (Hall _ Hin).
Qed.

Lemma has_node_ensure_node G n : Graph.wf G → Graph.has_node (Graph.ensure_node G n) n = true.
Proof.
  intros Hwf. unfold Graph.ensure_node. destruct (alist_mem n (g_succ G)) eqn:E.
  - by apply wf_succ_has_node.
  - unfold Graph.has_node. simpl. apply has_node_set. by left.
Qed.

Lemma has_node_ensure_node_mono G n x :
  Graph.has_node G x = true → Graph.has_node (Graph.ensure_node G n) x = true.
Proof.
  intros Hx. unfold Graph.ensure_node. destruct (alist_mem n (g_succ G)); [done|].
  unfold Graph.has_node. simpl. apply has_node_set. by right.
Qed.

Lemma wf_add_parallel G v rel nbrs :
  Graph.has_node G v = true → Graph.wf_adjacency G nbrs →
  Graph.wf_adjacency G (Graph.add_parallel v rel nbrs).
Proof.
  intros Hv [Hnd Hall]. unfold Graph.add_parallel. destruct (alist_mem v nbrs) eqn:E.
  - split; [by rewrite alist_alter_keys|].
    apply Forall_alist_alter; [done|]. simpl. intros kd [? _]. split; [done|].
    intros Hnil. by apply app_eq_nil in Hnil as [_ ?].
  - apply alist_mem_false in E. split.
    + rewrite fmap_app. apply NoDup_app. split_and!; [done| |apply NoDup_singleton].
      intros x Hx Hx'. apply list_elem_of_singleton in Hx'. by subst.
    + apply Forall_app. split; [done|]. constructor; [|constructor]. by split.
Qed.

Lemma wf_add_edge G u v rel : Graph.wf G → Graph.wf (Graph.add_edge G u v rel).
Proof.
  intros Hwf. unfold Graph.add_edge.
  set (G2 := Graph.ensure_node (Graph.ensure_node G u) v).
  assert (Graph.wf G2) as Hwf2 by (by do 2 apply wf_ensure_node).
  assert (Graph.has_node G2 v = true) as Hv
    by (apply has_node_ensure_node; by apply wf_ensure_node).
  destruct Hwf2 as (Hn & Hs & Hall). split_and!; simpl.
  - done.
  - by rewrite alist_alter_keys.
  - apply Forall_alist_alter.
    + done.
    + simpl. intros nbrs [? Hnbrs]. split; [done|]. by apply wf_add_parallel.
Qed.

Lemma wf_add_person G name job : Graph.wf G → Graph.wf (add_person G name job).
Proof.
  intros Hwf. unfold add_person. destruct (negb _).
  - by apply wf_add_node.
  - by apply wf_add_node_role.
Qed.

Lemma wf_foldl {A} (f : MultiDiGraph → A → MultiDiGraph) (l : list A) :
  (∀ G x, Graph.wf G → Graph.wf (f G x)) → ∀ G, Graph.wf G → Graph.wf (foldl f G l).
Proof. intros Hf. induction l as [|x l IH]; intros G HG; simpl; auto. Qed.

Lemma wf_foldl_state {A S} (f : MultiDiGraph * S → A → MultiDiGraph * S) (l : list A) :
  (∀ st x, Graph.wf st.1 → Graph.wf (f st x).1) →
  ∀ st, Graph.wf st.1 → Graph.wf (foldl f st l).1.
Proof. intros Hf. induction l as [|x l IH]; intros st Hst; simpl; auto. Qed.

Lemma wf_add_genre movie_id G g : Graph.wf G → Graph.wf (add_genre movie_id G g).
Proof. intros Hwf. unfold add_genre. by do 2 apply wf_add_edge; apply wf_add_node. Qed.

Lemma wf_add_actor movie_id st c : Graph.wf st.1 → Graph.wf (add_actor movie_id st c).1.
Proof.
  destruct st as [G actors]. simpl. intros Hwf.
  by do 2 apply wf_add_edge; apply wf_add_person.
Qed.

Lemma wf_add_crew movie_id st member : Graph.wf st.1 → Graph.wf (add_crew movie_id st member).1.
Proof.
  destruct st as [G directors]. simpl. intros Hwf.
  by do 2 apply wf_add_edge; apply wf_add_person.
Qed.

Lemma wf_add_pairings G actors directors :
  Graph.wf G → Graph.wf (add_pairings G actors directors).
Proof.
  unfold add_pairings. apply wf_foldl. intros G' actor HG'.
  apply wf_foldl; [|done]. intros G'' director HG''.
  unfold add_pairing. by do 2 apply wf_add_edge.
Qed.

Lemma wf_build_row G r G' : Graph.wf G → build_row G r = Ok G' → Graph.wf G'.
Proof.
  intros Hwf Hrow. unfold build_row in Hrow.
  destruct (r_release_date r) as [d|]; [|done].
  destruct (r_title r) as [ttl|]; [|done].
  destruct (r_keywords r) as [kws|]; [|done].
  destruct (r_genres r) as [genres|]; [|done].
  destruct (r_cast r) as [cast|]; [|done].
  destruct (r_crew r) as [crew|];
    [|by cbn [from_option mbind result_bind] in Hrow; destruct (foldl _ _ cast)].
  cbn [from_option mbind result_bind] in Hrow.
  set (Gg := foldl (add_genre (NInt (r_id r))) _ genres) in Hrow.
  assert (Graph.wf Gg) as Hg.
  { apply wf_foldl; [intros; by apply wf_add_genre|].
    by do 2 apply wf_add_edge; do 2 apply wf_add_node. }
  pose proof (wf_foldl_state (add_actor (NInt (r_id r))) cast
                (λ st c, wf_add_actor _ st c) (Gg, []) Hg) as Ha.
  destruct (foldl (add_actor (NInt (r_id r))) (Gg, []) cast) as [Ga actors].
  pose proof (wf_foldl_state (add_crew (NInt (r_id r))) crew
                (λ st c, wf_add_crew _ st c) (Ga, []) Ha) as Hc.
  destruct (foldl (add_crew (NInt (r_id r))) (Ga, []) crew) as [Gc directors].
  injection Hrow as <-. by apply wf_add_pairings.
Qed.

Lemma wf_empty : Graph.wf Graph.empty.
Proof. split_and!; constructor. Qed.

Lemma wf_build_graph df : ∀ G G', Graph.wf G → build_graph G df = Ok G' → Graph.wf G'.
Proof.
  induction df as [|r df IH]; intros G G' Hwf.
  - by intros [= <-].
  - unfold build_graph. cbn [foldlM].
    destruct (build_row G r) as [G1|] eqn:Hrow; [|done].
    cbn [mbind result_bind]. apply IH. by eapply wf_build_row.
Qed.

(** Every graph that [MovieGraph.__init__] builds is well-formed. *)
Lemma MovieGraph_init_wf joined mg : MovieGraph_init joined = Ok mg → Graph.wf (mg_Graph mg).
Proof.
  unfold MovieGraph_init. destruct (build_graph _ _) as [G|] eqn:Hb; [|done].
  simpl. intros [= <-]. simpl. eapply wf_build_graph; [apply wf_empty|done].
Qed.

(** ** Labels of built graphs *)

Lemma Forall_alist_set {K V} `{EqDecision K} (P : K * V → Prop) k v l :
  Forall P l → P (k, v) → Forall P (alist_set k v l).
Proof.
  intros Hall Hkv. induction Hall as [|[k0 v0] l Hx Hall IH]; simpl.
  - by repeat constructor.
  - case_decide; subst; constructor; auto.
Qed.

Lemma alist_mem_snoc {K V} `{EqDecision K} (k k' : K) (v : V) l :
  alist_mem k l = true → alist_mem k (l ++ [(k', v)]) = true.
Proof. rewrite !alist_mem_true, fmap_app, elem_of_app. auto. Qed.

Lemma alist_mem_same_keys {K V W} `{EqDecision K} (k : K) (l : list (K * V))
    (l' : list (K * W)) :
  l.*1 = l'.*1 → alist_mem k l = alist_mem k l'.
Proof.
  intros Hk. unfold alist_mem. apply bool_decide_ext.
  by rewrite !alist_get_is_Some, Hk.
Qed.

Lemma good_present G n :
  good G → Graph.has_node G n = true → alist_mem n (g_succ G) = true.
Proof.
  intros (_ & Htot & _) Hn. apply alist_mem_true, list_elem_of_fmap in Hn as (e & -> & He).
  unfold adj_total in Htot. rewrite Forall_forall in Htot. by apply Htot.
Qed.

Lemma ensure_node_present G n :
  good G → Graph.has_node G n = true → Graph.ensure_node G n = G.
Proof.
  intros Hg Hn. unfold Graph.ensure_node. by rewrite (good_present G n Hg Hn).
Qed.

Lemma grows_refl G : good G → grows G G.
Proof. by split. Qed.

Lemma grows_trans G1 G2 G3 : grows G1 G2 → grows G2 G3 → grows G1 G3.
Proof. intros [_ H12] [Hg H23]. split; auto. Qed.

Lemma grows_add_edge G u v rel :
  good G → Graph.has_node G u = true → Graph.has_node G v = true →
  grows G (Graph.add_edge G u v rel).
Proof.
  intros Hg Hu Hv. pose proof (wf_add_edge G u v rel (proj1 Hg)) as Hwf.
  assert (Graph.add_edge G u v rel
          = {| g_node := g_node G;
               g_succ := alist_alter (Graph.add_parallel v rel) u (g_succ G) |}) as Heq.
  { unfold Graph.add_edge. by rewrite (ensure_node_present G u Hg Hu),
      (ensure_node_present G v Hg Hv). }
  rewrite Heq in *. destruct Hg as (_ & Htot & Hlab). split; [|done].
  split_and!; [done| |done].
  unfold adj_total in *. simpl. eapply Forall_impl; [exact Htot|].
  intros e He. simpl in *. etrans; [|exact He].
  apply alist_mem_same_keys, alist_alter_keys.
Qed.

Lemma grows_add_node G n kw :
  good G → is_Some (label kw) →
  grows G (Graph.add_node G n kw) ∧ Graph.has_node (Graph.add_node G n kw) n = true.
Proof.
  intros Hg Hkw. pose proof (wf_add_node G n kw (proj1 Hg)) as Hwf.
  destruct Hg as (Hwf0 & Htot & Hlab).
  unfold Graph.add_node in *. destruct (alist_mem n (g_succ G)) eqn:E.
  - assert (∀ x, Graph.has_node {| g_node := alist_alter (attrs_update kw) n (g_node G);
                                   g_succ := g_succ G |} x = Graph.has_node G x) as Hsame.
    { intros x. unfold Graph.has_node. simpl.
      apply alist_mem_same_keys, alist_alter_keys. }
    split; [split|].
    + split_and!; [done| |].
      * unfold adj_total in *. simpl. by apply Forall_alist_alter.
      * unfold all_labelled in *. simpl. apply Forall_alist_alter; [done|].
        simpl. intros a _. destruct Hkw as [l Hl]. rewrite Hl. by eexists.
    + intros x. by rewrite Hsame.
    + rewrite Hsame. by apply wf_succ_has_node.
  - split; [split|].
    + split_and!; [done| |].
      * unfold adj_total in *. simpl. apply Forall_alist_set.
        -- eapply Forall_impl; [exact Htot|]. intros e. simpl. apply alist_mem_snoc.
        -- simpl. apply alist_mem_true. rewrite fmap_app, elem_of_app. right.
           apply list_elem_of_here.
      * unfold all_labelled in *. simpl. by apply Forall_alist_set.
    + intros x Hx. unfold Graph.has_node. simpl. apply has_node_set. by right.
    + unfold Graph.has_node. simpl. apply has_node_set. by left.
Qed.

Lemma grows_add_node_role G n job : good G → grows G (Graph.add_node_role G n job).
Proof.
  intros (Hwf & Htot & Hlab). split; [split_and!|].
  - by apply wf_add_node_role.
  - unfold adj_total in *. simpl. by apply Forall_alist_alter.
  - unfold all_labelled in *. simpl. by apply Forall_alist_alter.
  - intros x. unfold Graph.has_node. simpl.
    by rewrite (alist_mem_same_keys x _ (g_node G) (alist_alter_keys _ _ _)).
Qed.

Lemma grows_add_person G name job :
  good G →
  grows G (add_person G name job) ∧ Graph.has_node (add_person G name job) (NStr name) = true.
Proof.
  intros Hg. unfold add_person. destruct (Graph.has_node G (NStr name)) eqn:E; simpl.
  - pose proof (grows_add_node_role G (NStr name) job Hg) as [Hg' Hk]. split; [by split|auto].
  - by apply grows_add_node.
Qed.

Lemma grows_add_genre movie_id G g :
  good G → Graph.has_node G movie_id = true → grows G (add_genre movie_id G g).
Proof.
  intros Hg Hm. unfold add_genre.
  destruct (grows_add_node G (NStr (normalize g)) (label_attrs "genre") Hg) as [[Hg1 Hk1] Hn1];
    [by eexists|].
  pose proof (grows_add_edge _ movie_id (NStr (normalize g)) MOVIE_HAS_GENRE Hg1 (Hk1 _ Hm) Hn1)
    as [Hg2 Hk2].
  pose proof (grows_add_edge _ (NStr (normalize g)) movie_id GENRE_OF_MOVIES Hg2
                (Hk2 _ Hn1) (Hk2 _ (Hk1 _ Hm))) as [Hg3 Hk3].
  split; [done|]. auto.
Qed.

Lemma grows_link_person movie_id G name job rel1 rel2 :
  good G → Graph.has_node G movie_id = true →
  let G' := Graph.add_edge (Graph.add_edge (add_person G name job) movie_id (NStr name) rel1)
              (NStr name) movie_id rel2 in
  grows G G' ∧ Graph.has_node G' (NStr name) = true.
Proof.
  intros Hg Hm. destruct (grows_add_person G name job Hg) as [[Hg1 Hk1] Hn1].
  pose proof (grows_add_edge _ movie_id (NStr name) rel1 Hg1 (Hk1 _ Hm) Hn1) as [Hg2 Hk2].
  pose proof (grows_add_edge _ (NStr name) movie_id rel2 Hg2 (Hk2 _ Hn1) (Hk2 _ (Hk1 _ Hm)))
    as [Hg3 Hk3].
  split; [split; [done|auto]|auto].
Qed.

Lemma all_present_mono G G' names :
  (∀ x, Graph.has_node G x = true → Graph.has_node G' x = true) →
  all_present G names → all_present G' names.
Proof. intros Hk Hp. eapply Forall_impl; [exact Hp|]. simpl. auto. Qed.

Lemma add_actor_inv G0 movie_id st c :
  person_loop_inv G0 movie_id st → person_loop_inv G0 movie_id (add_actor movie_id st c).
Proof.
  destruct st as [G actors]. intros ([Hg Hk] & Hm & Hp). simpl in *.
  destruct (grows_link_person movie_id G (normalize c) "actor" MOVIE_HAS_ACTOR ACTED_IN_MOVIES
              Hg Hm) as [[Hg' Hk'] Hn'].
  split_and!; simpl.
  - split; [done|auto].
  - auto.
  - apply Forall_app. split; [by eapply all_present_mono|]. by repeat constructor.
Qed.

Lemma add_crew_inv G0 movie_id st member :
  person_loop_inv G0 movie_id st → person_loop_inv G0 movie_id (add_crew movie_id st member).
Proof.
  destruct st as [G directors]. intros ([Hg Hk] & Hm & Hp). simpl in *.
  destruct (grows_link_person movie_id G (normalize member.2)
              (classify_job (normalize member.1))
              ("MOVIE_HAS_" +:+ Str.upper (classify_job (normalize member.1)))
              (crew_relation (classify_job (normalize member.1))) Hg Hm) as [[Hg' Hk'] Hn'].
  split_and!; simpl.
  - split; [done|auto].
  - auto.
  - case_bool_decide.
    + apply Forall_app. split; [by eapply all_present_mono|]. by repeat constructor.
    + by eapply all_present_mono.
Qed.

Lemma foldl_inv {A B} (f : A → B → A) (I : A → Prop) (l : list B) :
  (∀ a b, I a → I (f a b)) → ∀ a, I a → I (foldl f a l).
Proof. intros Hf. induction l as [|b l IH]; intros a Ha; simpl; auto. Qed.

Lemma foldl_inv_Forall {A B} (f : A → B → A) (I : A → Prop) (Q : B → Prop) (l : list B) :
  Forall Q l → (∀ a b, Q b → I a → I (f a b)) → ∀ a, I a → I (foldl f a l).
Proof.
  intros Hl Hf. induction Hl as [|b l Hb Hl IH]; intros a Ha; simpl; auto.
Qed.

Lemma grows_add_pairing G actor director :
  good G → Graph.has_node G (NStr actor) = true → Graph.has_node G (NStr director) = true →
  grows G (add_pairing G actor director).
Proof.
  intros Hg Ha Hd. unfold add_pairing.
  pose proof (grows_add_edge G (NStr actor) (NStr director) ACTOR_WORKED_WITH_DIRECTOR
                Hg Ha Hd) as [Hg1 Hk1].
  pose proof (grows_add_edge _ (NStr director) (NStr actor) DIRECTOR_WORKED_WITH_ACTOR
                Hg1 (Hk1 _ Hd) (Hk1 _ Ha)) as [Hg2 Hk2].
  split; [done|auto].
Qed.

Lemma grows_add_pairings G actors directors :
  good G → all_present G actors → all_present G directors →
  grows G (add_pairings G actors directors).
Proof.
  intros Hg Ha Hd. unfold add_pairings.
  apply (foldl_inv_Forall _ (grows G) _ actors Ha); [|by apply grows_refl].
  intros G1 actor Hactor HG1.
  apply (foldl_inv_Forall _ (grows G) _ directors Hd); [|done].
  intros G2 director Hdirector [Hg2 Hk2].
  eapply grows_trans; [by split|].
  apply grows_add_pairing; auto.
Qed.

Lemma good_build_row G r G' : good G → build_row G r = Ok G' → good G'.
Proof.
  intros Hg Hrow. unfold build_row in Hrow.
  destruct (r_release_date r) as [d|]; [|done].
  destruct (r_title r) as [ttl|]; [|done].
  destruct (r_keywords r) as [kws|]; [|done].
  destruct (r_genres r) as [genres|]; [|done].
  destruct (r_cast r) as [cast|]; [|done].
  destruct (r_crew r) as [crew|];
    [|by cbn [from_option mbind result_bind] in Hrow; destruct (foldl _ _ cast)].
  cbn [from_option mbind result_bind] in Hrow.
  set (movie_id := NInt (r_id r)) in *.
  set (kw := {| label := Some "movie"; title := _; popularity := _; vote_average := _;
                overview := _; launch_year := _; keywords := _; roles := _ |}) in Hrow.
  destruct (grows_add_node G movie_id kw Hg) as [[Hg1 Hk1] Hm1]; [by eexists|].
  destruct (grows_add_node _ (NStr (year_of d)) (label_attrs "date") Hg1)
    as [[Hg2 Hk2] Hy2]; [by eexists|].
  pose proof (grows_add_edge _ movie_id (NStr (year_of d)) MOVIE_RELEASED_ON Hg2
                (Hk2 _ Hm1) Hy2) as [Hg3 Hk3].
  pose proof (grows_add_edge _ (NStr (year_of d)) movie_id YEAR_RELEASED_MOVIES Hg3
                (Hk3 _ Hy2) (Hk3 _ (Hk2 _ Hm1))) as [Hg4 Hk4].
  set (G4 := Graph.add_edge _ (NStr (year_of d)) movie_id YEAR_RELEASED_MOVIES) in *.
  assert (Graph.has_node G4 movie_id = true) as Hm4 by auto.
  set (Gg := foldl (add_genre movie_id) G4 genres) in Hrow.
  assert (grows G4 Gg) as [Hgg Hkg].
  { apply (foldl_inv _ (grows G4)); [|by apply grows_refl].
    intros Ga g [Hga Hka]. eapply grows_trans; [by split|].
    apply grows_add_genre; auto. }
  pose proof (foldl_inv (add_actor movie_id) (person_loop_inv Gg movie_id) cast
                (λ st c, add_actor_inv Gg movie_id st c) (Gg, [])) as Ha.
  destruct (foldl (add_actor movie_id) (Gg, []) cast) as [Ga actors].
  destruct Ha as ([Hga Hka] & Hma & Hpa).
  { split_and!; [by apply grows_refl|auto|constructor]. }
  pose proof (foldl_inv (add_crew movie_id) (person_loop_inv Ga movie_id) crew
                (λ st c, add_crew_inv Ga movie_id st c) (Ga, [])) as Hc.
  destruct (foldl (add_crew movie_id) (Ga, []) crew) as [Gc directors].
  destruct Hc as ([Hgc Hkc] & Hmc & Hpc).
  { split_and!; [by apply grows_refl|auto|constructor]. }
  simpl in *. injection Hrow as <-.
  apply grows_add_pairings; [done| |done]. by eapply all_present_mono.
Qed.

Lemma good_empty : good Graph.empty.
Proof. split_and!; [apply wf_empty|constructor|constructor]. Qed.

Lemma good_build_graph df : ∀ G G', good G → build_graph G df = Ok G' → good G'.
Proof.
  induction df as [|r df IH]; intros G G' Hg.
  - by intros [= <-].
  - unfold build_graph. cbn [foldlM].
    destruct (build_row G r) as [G1|] eqn:Hrow; [|done].
    cbn [mbind result_bind]. apply IH. by eapply good_build_row.
Qed.

(** Every node of a graph that [MovieGraph.__init__] builds has a
    label. *)
Lemma MovieGraph_init_labelled joined mg :
  MovieGraph_init joined = Ok mg → all_labelled (mg_Graph mg).
Proof.
  unfold MovieGraph_init. destruct (build_graph _ _) as [G|] eqn:Hb; [|done].
  simpl. intros [= <-]. simpl. by eapply good_build_graph; [apply good_empty|].
Qed.

(** ** The single-row example

    The graph of the one synthetic row: its nodes, the neighbours of the
    movie, and the pairing edge from the actor to the director. *)

Example single_row_nodes :
  (g_node (mg_Graph Sample.one_film)).*1 = Sample.test_film_nodes.
Proof. vm_compute. reflexivity. Qed.

Example single_row_neighbors :
  match query_entity_graph Sample.one_film (PInt 1) None with
  | Ok [r] => er_neighbors r
  | _ => []
  end
  = [ {| nb_neighbor := NStr "1999"; nb_relation := "MOVIE_RELEASED_ON" |};
      {| nb_neighbor := NStr "action"; nb_relation := "MOVIE_HAS_GENRE" |};
      {| nb_neighbor := NStr "jane doe"; nb_relation := "MOVIE_HAS_ACTOR" |};
      {| nb_neighbor := NStr "john roe"; nb_relation := "MOVIE_HAS_DIRECTOR" |} ].
Proof. vm_compute. reflexivity. Qed.

Example single_row_pairing :
  Graph.edge_relations (mg_Graph Sample.one_film) (NStr "jane doe") (NStr "john roe")
  = Ok [ACTOR_WORKED_WITH_DIRECTOR].
Proof. vm_compute. reflexivity. Qed.

(** * Lookups and filters *)

(** ** lookupEntity: [query_entity_graph] *)

Lemma entity_records_nil G relation : entity_records G relation [] = Ok [].
Proof. done. Qed.

(** A string that is no title and no node identifier: empty result. *)
Lemma query_entity_graph_unresolved_string mg (s : string) relation :
  title_matches (movies_df mg) (normalize s) = [] →
  Graph.has_node (mg_Graph mg) (NStr (normalize s)) = false →
  query_entity_graph mg (PStr s) relation = Ok [].
Proof.
  intros Ht Hn. unfold query_entity_graph, entity_ids.
  rewrite Ht, Hn. by rewrite bool_decide_eq_true_2.
Qed.

(** An integer that is no node falls into the string branch. *)
Lemma query_entity_graph_unresolved_int mg (z : Z) relation :
  Graph.has_node (mg_Graph mg) (NInt z) = false →
  query_entity_graph mg (PInt z) relation = Raise AttributeError.
Proof. intros Hn. unfold query_entity_graph, entity_ids. by rewrite Hn. Qed.

(** C5. The integer 7 is no node of the one-film graph and no title of
    its table: [query_entity_graph] raises [AttributeError] instead of
    returning an empty list, and [query_graph] reports an error record. *)
Theorem query_entity_graph_absent_int_raises :
  Graph.has_node (mg_Graph Sample.one_film) (NInt 7) = false
  ∧ query_entity_graph Sample.one_film (PInt 7) None = Raise AttributeError
  ∧ QueryGraphTool_forward Sample.one_film (PInt 7) None = Ok [ErrorRec AttributeError].
Proof. by vm_compute. Qed.

Example query_graph_directors :
  query_entity_graph Sample.one_film (PStr "directors") None = Ok [].
Proof. by vm_compute. Qed.

(** ** lookupMovieById: [query_movie_id] *)

Lemma query_movie_id_lookup (mg : MovieGraph) (id : Z) :
  match alist_get (NInt id) (g_node (mg_Graph mg)) with
  | Some a => query_movie_id mg (PInt id) = Ok (Some a)
  | None => query_movie_id mg (PInt id) = Ok None
  end.
Proof.
  unfold query_movie_id, Graph.contains, Graph.has_node, Graph.node_data, alist_mem. simpl.
  destruct (alist_get (NInt id) (g_node (mg_Graph mg))) as [a|] eqn:E.
  - by rewrite bool_decide_eq_true_2 by eauto.
  - rewrite bool_decide_eq_false_2; [done|]. by intros [? ?].
Qed.

(** The tool on top of it tests [not node_data], which also holds for an
    empty dictionary. *)
Lemma QueryMovieIDTool_forward_empty_attrs mg (id : Z) :
  alist_get (NInt id) (g_node (mg_Graph mg)) = Some no_attrs →
  QueryMovieIDTool_forward mg (PInt id) = Ok (MovieNotFound (PInt id)).
Proof.
  intros E. unfold QueryMovieIDTool_forward.
  pose proof (query_movie_id_lookup mg id) as H. rewrite E in H.
  by rewrite H.
Qed.

(** C6. For an integer id, [query_movie_id] returns the node's attribute
    dictionary when the id is a node and [None] when it is not, and
    [None] differs from every dictionary, the empty one included.  On a
    graph that [MovieGraph.__init__] built, the tool on top of it
    answers with the dictionary for every node and with the not-found
    record only for an id that is no node. *)
Theorem query_movie_id_found_or_none (joined : list Row) (mg : MovieGraph) (id : Z) :
  match alist_get (NInt id) (g_node (mg_Graph mg)) with
  | Some a => query_movie_id mg (PInt id) = Ok (Some a)
  | None => query_movie_id mg (PInt id) = Ok None
  end
  ∧ (Ok (Some no_attrs) : result (option attrs)) ≠ Ok None
  ∧ (MovieGraph_init joined = Ok mg →
     match alist_get (NInt id) (g_node (mg_Graph mg)) with
     | Some a => QueryMovieIDTool_forward mg (PInt id) = Ok (MovieData a)
     | None => QueryMovieIDTool_forward mg (PInt id) = Ok (MovieNotFound (PInt id))
     end).
Proof.
  pose proof (query_movie_id_lookup mg id) as Hq.
  split_and!; [done|done|]. intros Hinit. unfold QueryMovieIDTool_forward.
  destruct (alist_get (NInt id) (g_node (mg_Graph mg))) as [a|] eqn:E; rewrite Hq; [|done].
  simpl. apply MovieGraph_init_labelled in Hinit.
  unfold all_labelled in Hinit. rewrite Forall_forall in Hinit.
  destruct (Hinit _ (alist_get_Some_elem _ _ _ E)) as [l Hl]. simpl in Hl.
  destruct a as [[l0|] ? ? ? ? ? ? ?]; by simplify_eq.
Qed.

(** ** filter_movies_by_person *)

Lemma is_movie_node_data G v a :
  Graph.node_data G v = Ok a → Graph.is_movie G v = bool_decide (label a = Some "movie").
Proof.
  unfold Graph.node_data, Graph.is_movie.
  destruct (alist_get v (g_node G)); [by intros [= ->] | done].
Qed.

Lemma movie_neighbors_fold G (l : list node) (acc : gset node) :
  Forall (λ v, Graph.has_node G v = true) l →
  foldlM (λ (person_movies : gset node) neighbor,
            nd ← Graph.node_data G neighbor;
            Ok (if bool_decide (label nd = Some "movie")
                then person_movies ∪ {[ neighbor ]} else person_movies)) acc l
  = Ok (acc ∪ list_to_set (filter (λ v, Graph.is_movie G v = true) l)).
Proof.
  revert acc. induction l as [|v l IH]; intros acc Hall; simpl.
  - f_equal. set_solver.
  - apply Forall_cons in Hall as [Hv Hall].
    destruct (has_node_data G v Hv) as (a & _ & Hd). rewrite Hd. simpl.
    rewrite IH by done. f_equal.
    rewrite filter_cons. rewrite (is_movie_node_data _ _ _ Hd).
    destruct (bool_decide (label a = Some "movie")) eqn:E.
    + rewrite decide_True by done. set_solver.
    + rewrite decide_False by done. done.
Qed.

Lemma movie_neighbors_ok G n :
  Graph.wf G → movie_neighbors G n = Ok (Graph.movie_set G n).
Proof.
  intros Hwf. unfold movie_neighbors. rewrite movie_neighbors_fold.
  - unfold Graph.movie_set. f_equal. set_solver.
  - apply Forall_forall. intros v Hv. by eapply wf_neighbor_has_node.
Qed.

Lemma filter_raising_ints (S : gset node) (ids : list Z) :
  filter_raising (set_contains S) (PInt <$> ids)
  = Ok (PInt <$> filter (λ i, NInt i ∈ S) ids).
Proof.
  induction ids as [|i ids IH]; csimpl; [done|].
  rewrite IH. csimpl. rewrite filter_cons.
  destruct (decide (NInt i ∈ S)).
  - by rewrite bool_decide_eq_true_2.
  - by rewrite bool_decide_eq_false_2.
Qed.

Lemma filter_nothing (S : gset node) (ids : list Z) :
  S = ∅ → filter (λ i, NInt i ∈ S) ids = [].
Proof.
  intros ->. induction ids as [|i ids IH]; [done|].
  rewrite filter_cons, decide_False by set_solver. done.
Qed.

Lemma filter_forward_ints mg name ids :
  Graph.wf (mg_Graph mg) →
  FilterMoviesByPersonTool_forward mg (PStr name) (PList (PInt <$> ids))
  = Ok (PInt <$> person_filter mg name ids).
Proof.
  intros Hwf. unfold FilterMoviesByPersonTool_forward, person_filter, person_movies_of.
  cbn [mbind result_bind].
  destruct (Graph.has_node (mg_Graph mg) (NStr (normalize name))); cbn [negb]; cbv iota.
  - rewrite movie_neighbors_ok by done. cbn [mbind result_bind iterate].
    apply filter_raising_ints.
  - by rewrite (filter_nothing ∅ ids eq_refl).
Qed.

(** C3. [filter_movies_by_person] on a person name and a list of ids
    returns a sublist of the ids: the ids that belong to the person's
    movie set, in the order of the input. *)
Theorem filter_movies_by_person_sublist (mg : MovieGraph) (p : string) (ids : list Z) :
  Graph.wf (mg_Graph mg) →
  ∃ out : list Z,
    FilterMoviesByPersonTool_forward mg (PStr p) (PList (PInt <$> ids)) = Ok (PInt <$> out)
    ∧ out `sublist_of` ids
    ∧ out = filter (λ i, NInt i ∈ person_movies_of mg p) ids.
Proof.
  intros Hwf. exists (person_filter mg p ids). split; [by apply filter_forward_ints|].
  split; [apply sublist_filter|done].
Qed.

(** C10. The node named by the person argument is not required to be a
    person: whenever the normalised name is the identifier of a node,
    whatever its label, the ids are filtered against the movie
    neighbours of that node. *)
Theorem filter_movies_by_person_any_label (mg : MovieGraph) (name : string) (ids : list Z) :
  Graph.wf (mg_Graph mg) →
  Graph.has_node (mg_Graph mg) (NStr (normalize name)) = true →
  FilterMoviesByPersonTool_forward mg (PStr name) (PList (PInt <$> ids))
  = Ok (PInt <$> filter (λ i, NInt i ∈ Graph.movie_set (mg_Graph mg) (NStr (normalize name))) ids).
Proof.
  intros Hwf Hn. rewrite filter_forward_ints by done.
  unfold person_filter, person_movies_of. by rewrite Hn.
Qed.

(** * Path enumeration *)

(** ** Edges *)

Lemma out_edges_elem G u e :
  e ∈ Graph.out_edges G u ↔
  ∃ kd, e.1.1 = u ∧ (e.1.2, kd) ∈ Graph.adj G u ∧ (e.2 < length kd)%nat.
Proof.
  unfold Graph.out_edges. rewrite list_elem_of_bind. split.
  - intros ([v kd] & He & Hin). apply list_elem_of_fmap in He as (k & -> & Hk).
    apply elem_of_seq in Hk. exists kd. simpl in *. split_and!; [done|done|lia].
  - intros (kd & Hu & Hin & Hk). exists (e.1.2, kd). split; [|done].
    apply list_elem_of_fmap. exists e.2. simpl. split.
    + destruct e as [[u' v] k]. simpl in *. by subst.
    + apply elem_of_seq. lia.
Qed.

Lemma has_edge_adj G u v :
  Graph.has_edge G u v ↔ ∃ kd, (v, kd) ∈ Graph.adj G u ∧ kd ≠ [].
Proof.
  unfold Graph.has_edge. split.
  - intros (k & Hk). apply out_edges_elem in Hk as (kd & _ & Hin & Hlt). simpl in *.
    exists kd. split; [done|]. intros ->. simpl in Hlt. lia.
  - intros (kd & Hin & Hne). exists 0%nat. apply out_edges_elem. exists kd. simpl.
    split_and!; [done|done|]. destruct kd; [done|]. simpl. lia.
Qed.

Lemma has_edge_neighbor G u v : Graph.has_edge G u v → v ∈ Graph.neighbors G u.
Proof.
  rewrite has_edge_adj. intros (kd & Hin & _). unfold Graph.neighbors.
  apply list_elem_of_fmap. by exists (v, kd).
Qed.

Lemma has_edge_relations G u v :
  Graph.has_edge G u v → ∃ kd, Graph.edge_relations G u v = Ok kd.
Proof.
  intros He. apply has_edge_neighbor in He. unfold Graph.neighbors, Graph.adj in He.
  unfold Graph.edge_relations.
  destruct (alist_get u (g_succ G)) as [nbrs|]; simpl in He.
  - apply alist_get_is_Some in He as [kd ->]. eauto.
  - by apply elem_of_nil in He.
Qed.

(** ** Depth-first enumeration of simple paths *)

Lemma paths_through_sound G t c fuel : ∀ cp v q,
  q ∈ NX.paths_through fuel G t c cp v →
  ∃ rest, q = cp ++ v :: rest ∧ Graph.walk G v rest ∧ last (v :: rest) = Some t
          ∧ (NoDup (cp ++ [v]) → NoDup q)
          ∧ (Z.of_nat (length cp) ≤ c → Z.of_nat (length q) - 1 ≤ c).
Proof.
  induction fuel as [|fuel IH]; intros cp v q; simpl; rewrite elem_of_app.
  all: intros [Hq|Hq].
  all: try (case_bool_decide as Ht; [|by apply elem_of_nil in Hq];
            apply list_elem_of_singleton in Hq as ->; subst v; exists [];
            split_and!; [done|done|done|done|];
            rewrite length_app; simpl; lia).
  - destruct (_ && _) in Hq; by apply elem_of_nil in Hq.
  - destruct (bool_decide (Z.of_nat (length cp) < c)) eqn:Hlen; simpl in Hq;
      [|by apply elem_of_nil in Hq].
    apply bool_decide_eq_true in Hlen.
    destruct (_ && _) in Hq; [|by apply elem_of_nil in Hq].
    apply list_elem_of_bind in Hq as ([[u w] k] & Hq & He). simpl in Hq.
    case_bool_decide as Hw; [by apply elem_of_nil in Hq|].
    apply IH in Hq as (rest & -> & Hwalk & Hlast & Hnd & Hbound).
    assert (Graph.has_edge G v w) as Hedge.
    { exists k. apply out_edges_elem in He as Hx. destruct Hx as (? & Hu & _).
      simpl in Hu. by subst u. }
    exists (w :: rest). split_and!.
    + by rewrite <- app_assoc.
    + done.
    + done.
    + intros Hcp. apply Hnd. apply NoDup_app. split_and!; [done| |apply NoDup_singleton].
      intros x Hx Hx'. apply list_elem_of_singleton in Hx'. by subst.
    + intros _. apply Hbound. rewrite length_app. simpl. lia.
Qed.

Lemma paths_through_complete G t c : ∀ rest fuel cp v,
  Graph.walk G v rest → last (v :: rest) = Some t → NoDup (cp ++ v :: rest) →
  Z.of_nat (length cp + length rest) ≤ c → (length rest ≤ fuel)%nat →
  cp ++ v :: rest ∈ NX.paths_through fuel G t c cp v.
Proof.
  induction rest as [|w rest IH]; intros fuel cp v Hwalk Hlast Hnd Hlen Hfuel.
  - simpl in Hlast. simplify_eq.
    destruct fuel; simpl; rewrite bool_decide_eq_true_2 by done;
      apply elem_of_app; left; apply list_elem_of_here.
  - destruct Hwalk as [Hedge Hwalk].
    assert (t ∈ w :: rest) as Ht.
    { change (last (v :: w :: rest)) with (last (w :: rest)) in Hlast.
      apply last_Some in Hlast as [l' ->]. apply elem_of_app. right. apply list_elem_of_here. }
    apply NoDup_app in Hnd as Hnd'. destruct Hnd' as (Hcp & Hdisj & Hvr).
    apply NoDup_cons in Hvr as [Hv Hwr].
    assert (t ≠ v) as Htv by (intros ->; done).
    assert (t ∉ cp) as Htcp.
    { intros Hin. apply (Hdisj _ Hin). by apply list_elem_of_further. }
    destruct fuel as [|fuel]; [simpl in Hfuel; lia|].
    simpl. apply elem_of_app. right.
    rewrite !bool_decide_eq_true_2; [simpl| done | done |].
    2:{ rewrite Nat2Z.inj_add in Hlen. simpl length in Hlen. lia. }
    destruct Hedge as [k Hk].
    apply list_elem_of_bind. exists (v, w, k). split; [|done]. simpl.
    rewrite bool_decide_eq_false_2.
    + replace (cp ++ v :: w :: rest) with ((cp ++ [v]) ++ w :: rest)
        by (by rewrite <- app_assoc).
      apply IH; [done|done| | |].
      * by rewrite <- app_assoc.
      * rewrite length_app. simpl length in *. lia.
      * simpl in Hfuel. lia.
    + rewrite elem_of_app, list_elem_of_singleton. intros [Hin| ->].
      * apply (Hdisj _ Hin). apply list_elem_of_further, list_elem_of_here.
      * apply Hv, list_elem_of_here.
Qed.

(** The fuel never cuts the search short: the cutoff stops it first. *)
Lemma paths_through_fuel G t c fuel : ∀ cp v,
  (Z.to_nat (c - Z.of_nat (length cp)) ≤ fuel)%nat →
  NX.paths_through (S fuel) G t c cp v = NX.paths_through fuel G t c cp v.
Proof.
  induction fuel as [|fuel IH]; intros cp v Hfuel.
  - simpl. f_equal. case_bool_decide as Hlen; [lia|done].
  - change (NX.paths_through (S (S fuel)) G t c cp v) with
      ((if bool_decide (v = t) then [cp ++ [v]] else []) ++
       (if bool_decide (Z.of_nat (length cp) < c) && bool_decide (t ∉ cp)
           && bool_decide (t ≠ v)
        then mbind (M := list) (λ e : node * node * nat,
               if bool_decide (e.1.2 ∈ cp ++ [v]) then []
               else NX.paths_through (S fuel) G t c (cp ++ [v]) e.1.2)
               (Graph.out_edges G v)
        else [])).
    change (NX.paths_through (S fuel) G t c cp v) with
      ((if bool_decide (v = t) then [cp ++ [v]] else []) ++
       (if bool_decide (Z.of_nat (length cp) < c) && bool_decide (t ∉ cp)
           && bool_decide (t ≠ v)
        then mbind (M := list) (λ e : node * node * nat,
               if bool_decide (e.1.2 ∈ cp ++ [v]) then []
               else NX.paths_through fuel G t c (cp ++ [v]) e.1.2)
               (Graph.out_edges G v)
        else [])).
    f_equal. destruct (_ && _); [|done].
    apply list_bind_ext; [|done]. intros e. case_bool_decide; [done|].
    apply IH. rewrite length_app. simpl. lia.
Qed.

(** [all_simple_paths] yields exactly the simple paths within the cutoff. *)
Lemma all_simple_paths_exact G a b c paths :
  NX.all_simple_paths G a b c = Ok paths →
  ∀ p, p ∈ paths ↔ Graph.simple_path G a b p ∧ Z.of_nat (length p) - 1 ≤ c.
Proof.
  unfold NX.all_simple_paths.
  destruct (Graph.has_node G a); simpl; [|done].
  destruct (Graph.has_node G b); simpl; [|done].
  case_bool_decide as Hc; intros [= <-]; intros p.
  - split.
    + intros Hp. apply paths_through_sound in Hp as (rest & -> & Hw & Hl & Hnd & Hb).
      simpl. split; [split_and!; [done|done|done|]|].
      * apply Hnd. simpl. apply NoDup_singleton.
      * apply Hb. simpl. lia.
    + intros [Hsp Hlen]. destruct p as [|x rest]; [done|].
      destruct Hsp as (-> & Hw & Hl & Hnd).
      apply (paths_through_complete G b c rest _ [] a); simpl; try done.
      all: simpl in Hlen; lia.
  - split; [intros Hp; by apply elem_of_nil in Hp|].
    intros [Hsp Hlen]. destruct p; [done|]. simpl in Hlen. lia.
Qed.

(** ** Describing a path *)

Lemma walk_has_node G u rest :
  Graph.wf G → Graph.walk G u rest → Forall (λ n, Graph.has_node G n = true) rest.
Proof.
  intros Hwf. revert u. induction rest as [|v rest IH]; intros u; simpl; [constructor|].
  intros [He Hw]. constructor; [|by eapply IH].
  eapply wf_neighbor_has_node; [done|]. by apply has_edge_neighbor.
Qed.

Lemma describe_path_cons G n rest :
  describe_path G (n :: rest) =
  (node_info ← Graph.node_data G n;
   relations ← relation_to_next G n rest;
   path_data ← describe_path G rest;
   Ok ({| pn_node := n; pn_label := label node_info;
          pn_title := field_if node_info "movie" title;
          pn_roles := field_if node_info "person" roles;
          pn_relation_to_next := relations |} :: path_data)).
Proof. done. Qed.

Lemma describe_path_spec G u rest :
  Graph.has_node G u = true → Forall (λ n, Graph.has_node G n = true) rest →
  Graph.walk G u rest →
  ∃ pd, describe_path G (u :: rest) = Ok pd ∧ pn_node <$> pd = u :: rest ∧ hops_read G pd.
Proof.
  revert u. induction rest as [|v rest IH]; intros u Hu Hall Hw.
  - destruct (has_node_data _ _ Hu) as (a & _ & Ha). simpl. rewrite Ha. simpl.
    eexists. split; [done|]. by split.
  - destruct Hw as [He Hw]. apply Forall_cons in Hall as [Hv Hall].
    destruct (IH v Hv Hall Hw) as (pd & Hpd & Hnodes & Hhops).
    destruct (has_node_data _ _ Hu) as (a & _ & Ha).
    destruct (has_edge_relations _ _ _ He) as [kd Hkd].
    rewrite describe_path_cons. unfold relation_to_next.
    rewrite Ha, Hkd, Hpd. simpl. eexists. split; [done|].
    split; [csimpl; by rewrite Hnodes|].
    destruct pd as [|d' pd]; [done|]. simpl. split; [|done].
    exists kd. split; [done|]. simpl in Hnodes. by simplify_eq.
Qed.

Lemma describe_paths_spec G a b c paths :
  Graph.wf G → Graph.has_node G a = true →
  (∀ p, p ∈ paths → Graph.simple_path G a b p ∧ Z.of_nat (length p) - 1 ≤ c) →
  ∃ result, describe_paths G paths = Ok result
            ∧ map (fmap pn_node) result = paths
            ∧ Forall (hops_read G) result.
Proof.
  intros Hwf Ha. induction paths as [|p paths IH]; intros Hall.
  - exists []. by split_and!.
  - destruct IH as (result & Hres & Hnodes & Hhops).
    { intros q Hq. apply Hall. by apply list_elem_of_further. }
    destruct (Hall p (list_elem_of_here _ _)) as [Hsp _].
    destruct p as [|x rest]; [done|]. destruct Hsp as (-> & Hw & _ & _).
    destruct (describe_path_spec G a rest Ha (walk_has_node _ _ _ Hwf Hw) Hw)
      as (pd & Hpd & Hpdn & Hpdh).
    exists (pd :: result). split_and!.
    + change (describe_paths G ((a :: rest) :: paths)) with
        (path_data ← describe_path G (a :: rest);
         result ← describe_paths G paths; Ok (path_data :: result)).
      by rewrite Hpd, Hres.
    + simpl. by rewrite Hpdn, Hnodes.
    + by constructor.
Qed.

Lemma as_node_val n : as_node (node_val n) = Some n.
Proof. by destruct n. Qed.

Lemma contains_node_val G n : Graph.contains G (node_val n) = Graph.has_node G n.
Proof. unfold Graph.contains. by rewrite as_node_val. Qed.

Lemma all_paths_query_spec mg (A B : node) (k : Z) :
  Graph.wf (mg_Graph mg) →
  Graph.has_node (mg_Graph mg) A = true → Graph.has_node (mg_Graph mg) B = true →
  ∃ result,
    all_paths_query mg (node_val A) (node_val B) k = Ok result
    ∧ (∀ p, p ∈ map (fmap pn_node) result ↔
            Graph.simple_path (mg_Graph mg) A B p ∧ Z.of_nat (length p) - 1 ≤ k)
    ∧ Forall (hops_read (mg_Graph mg)) result.
Proof.
  intros Hwf HA HB. unfold all_paths_query.
  rewrite !contains_node_val, HA, HB, !as_node_val. simpl.
  destruct (NX.all_simple_paths (mg_Graph mg) A B k) as [paths|e] eqn:Hp.
  2:{ unfold NX.all_simple_paths in Hp. rewrite HA, HB in Hp. simpl in Hp.
      by case_bool_decide. }
  pose proof (all_simple_paths_exact _ _ _ _ _ Hp) as Hexact.
  destruct (describe_paths_spec (mg_Graph mg) A B k paths Hwf HA) as (result & Hr & Hn & Hh).
  { intros p Hin. by apply Hexact. }
  exists result. simpl. split_and!; [done| |done].
  intros p. rewrite Hn. apply Hexact.
Qed.

(** C2. For nodes [A] and [B] of the graph and a bound [k],
    [all_paths_query] returns exactly the directed paths from [A] to [B]
    that repeat no node and have at most [k] edges. *)
Theorem all_paths_query_exact (mg : MovieGraph) (A B : node) (k : Z) :
  Graph.wf (mg_Graph mg) →
  Graph.has_node (mg_Graph mg) A = true → Graph.has_node (mg_Graph mg) B = true →
  ∃ result,
    all_paths_query mg (node_val A) (node_val B) k = Ok result
    ∧ ∀ p, p ∈ map (fmap pn_node) result ↔
           Graph.simple_path (mg_Graph mg) A B p ∧ Z.of_nat (length p) - 1 ≤ k.
Proof.
  intros Hwf HA HB.
  destruct (all_paths_query_spec mg A B k Hwf HA HB) as (result & Hr & Hp & _).
  eauto.
Qed.

(** ** Hop annotations *)

Lemma describe_path_inv G p : ∀ pd,
  describe_path G p = Ok pd → pn_node <$> pd = p ∧ hops_read G pd.
Proof.
  induction p as [|u rest IH]; intros pd.
  - by intros [= <-].
  - rewrite describe_path_cons.
    destruct (Graph.node_data G u) as [a|]; [|done].
    destruct (relation_to_next G u rest) as [rel|] eqn:Hrel; [|done].
    destruct (describe_path G rest) as [pd'|] eqn:Hpd; [|done].
    intros [= <-]. destruct (IH pd' eq_refl) as [Hn Hh].
    split; [csimpl; by rewrite Hn|].
    destruct pd' as [|d' pd'].
    + destruct rest; [|done]. simpl in Hrel. by simplify_eq.
    + destruct rest as [|v rest]; [done|]. simpl. split; [|done].
      unfold relation_to_next in Hrel.
      destruct (Graph.edge_relations G u v) as [kd|] eqn:Hkd; [|done].
      simpl in Hrel. simplify_eq. exists kd. split; [done|].
      csimpl in Hn. by simplify_eq.
Qed.

Lemma describe_paths_inv G paths : ∀ result,
  describe_paths G paths = Ok result → Forall (hops_read G) result.
Proof.
  induction paths as [|p paths IH]; intros result; simpl.
  - intros [= <-]. constructor.
  - destruct (describe_path G p) as [pd|] eqn:Hpd; simpl; [|done].
    destruct (describe_paths G paths) as [r|]; simpl; [|done].
    intros [= <-]. constructor; [|by apply IH].
    by apply describe_path_inv in Hpd as [_ ?].
Qed.

Lemma all_paths_query_hops mg node1 node2 k result :
  all_paths_query mg node1 node2 k = Ok result → Forall (hops_read (mg_Graph mg)) result.
Proof.
  unfold all_paths_query. destruct (_ || _).
  - intros [= <-]. constructor.
  - destruct (as_node node1), (as_node node2); try done.
    destruct (NX.all_simple_paths _ _ _ _); simpl; [|done].
    apply describe_paths_inv.
Qed.

Lemma hops_read_lookup G pd : hops_read G pd → ∀ (i : nat) d,
  pd !! i = Some d →
  match pd !! S i with
  | None => pn_relation_to_next d = None
  | Some d' => ∃ kd, pn_relation_to_next d = Some kd
                     ∧ Graph.edge_relations G (pn_node d) (pn_node d') = Ok kd
  end.
Proof.
  induction pd as [|d0 pd IH]; intros Hh i d Hi; [done|].
  destruct Hh as [Hd0 Hh]. destruct i as [|i].
  - simpl in Hi. simplify_eq. destruct pd; done.
  - simpl in Hi. apply (IH Hh i d Hi).
Qed.

(** Under well-formedness [G[u][v]] has one entry per parallel edge. *)
Lemma edge_relations_parallel G u v kd :
  Graph.wf G → Graph.edge_relations G u v = Ok kd →
  ∀ j, (u, v, j) ∈ Graph.out_edges G u ↔ (j < length kd)%nat.
Proof.
  intros Hwf Hkd j. destruct (wf_adj G u Hwf) as [Hnd _].
  assert (alist_get v (Graph.adj G u) = Some kd) as Hget.
  { unfold Graph.edge_relations in Hkd. unfold Graph.adj.
    destruct (alist_get u (g_succ G)) as [nbrs|]; simpl; [|done].
    destruct (alist_get v nbrs); by simplify_eq. }
  rewrite out_edges_elem. simpl. split.
  - intros (kd' & _ & Hin & Hlt).
    apply (alist_get_elem_NoDup _ _ _ Hnd) in Hin. by simplify_eq.
  - intros Hlt. exists kd. split_and!; [done| |done]. by apply alist_get_Some_elem.
Qed.

(** C9, as stated, fails: jane doe worked with john roe on two films,
    and the hop between them is annotated with the same relation name
    twice. *)
Lemma all_paths_hop_relations_repeat :
  ∃ result pd d kd,
    all_paths_query Sample.two_films (PStr "jane doe") (PStr "john roe") 1 = Ok result
    ∧ pd ∈ result ∧ pd !! 0%nat = Some d
    ∧ pn_relation_to_next d = Some kd
    ∧ kd = [ACTOR_WORKED_WITH_DIRECTOR; ACTOR_WORKED_WITH_DIRECTOR]
    ∧ ¬ NoDup kd.
Proof.
  eexists _, _, _, _. split_and!.
  - vm_compute. reflexivity.
  - apply list_elem_of_here.
  - reflexivity.
  - reflexivity.
  - reflexivity.
  - intros Hnd. apply NoDup_cons in Hnd as [Hnotin _]. apply Hnotin, list_elem_of_here.
Qed.

(** C9, amended. In every path that [all_paths_query] returns, each node
    but the last is annotated with the list [G[u][v]] of relation names
    of the parallel edges from it to the next node, one entry per edge
    in key order (a name borne by several edges is repeated); the last
    node has no annotation. *)
Theorem all_paths_query_hop_relations (mg : MovieGraph) (node1 node2 : pyval) (k : Z)
    (result : list (list path_node)) :
  Graph.wf (mg_Graph mg) →
  all_paths_query mg node1 node2 k = Ok result →
  Forall (hop_relations_read (mg_Graph mg)) result.
Proof.
  intros Hwf Hq. apply all_paths_query_hops in Hq. rewrite Forall_forall in Hq.
  apply Forall_forall. intros pd Hpd i d Hi.
  pose proof (hops_read_lookup _ _ (Hq _ Hpd) i d Hi) as H.
  destruct (pd !! S i) as [d'|]; [|done].
  destruct H as (kd & Hrel & Hkd). exists kd. split_and!; [done|done|].
  by apply edge_relations_parallel.
Qed.

(** * Shortest paths *)

(** ** Connectivity *)

Lemma connected_refl G a : Graph.connected G a a.
Proof. by exists []. Qed.

Lemma connected_step_l G u v b :
  Graph.has_edge G u v → Graph.connected G v b → Graph.connected G u b.
Proof. intros He (rest & Hw & Hl). exists (v :: rest). by split. Qed.

Lemma connected_trans G a w b :
  Graph.connected G a w → Graph.connected G w b → Graph.connected G a b.
Proof.
  intros (rest & Hw & Hl). revert a Hw Hl.
  induction rest as [|v rest IH]; intros a Hw Hl Hwb.
  - simpl in Hl. by simplify_eq.
  - destruct Hw as [He Hw]. eapply connected_step_l; [done|].
    apply IH; done.
Qed.

Lemma connected_step_r G a v w :
  Graph.connected G a v → Graph.has_edge G v w → Graph.connected G a w.
Proof.
  intros Hav He. eapply connected_trans; [done|].
  eapply connected_step_l; [done|apply connected_refl].
Qed.

Lemma wf_neighbor_edge G u v :
  Graph.wf G → v ∈ Graph.neighbors G u → Graph.has_edge G u v.
Proof.
  intros Hwf Hv. destruct (wf_adj G u Hwf) as [_ Hall].
  unfold Graph.neighbors in Hv. apply list_elem_of_fmap in Hv as ([v' kd] & -> & Hin).
  rewrite Forall_forall in Hall. destruct (Hall _ Hin) as [_ Hne].
  apply has_edge_adj. by exists kd.
Qed.

Lemma predecessors_elem G u v :
  u ∈ NX.predecessors G v → ∃ nbrs, (u, nbrs) ∈ g_succ G ∧ v ∈ nbrs.*1.
Proof.
  unfold NX.predecessors. intros Hu.
  apply list_elem_of_fmap in Hu as ([u' nbrs] & -> & Hin).
  apply list_elem_of_filter in Hin as [Hv Hin]. by exists nbrs.
Qed.

Lemma wf_predecessor_edge G u v :
  Graph.wf G → u ∈ NX.predecessors G v → Graph.has_edge G u v.
Proof.
  intros Hwf Hu. apply predecessors_elem in Hu as (nbrs & Hin & Hv).
  apply wf_neighbor_edge; [done|]. unfold Graph.neighbors, Graph.adj.
  destruct Hwf as (_ & Hnd & _).
  by rewrite (alist_get_elem_NoDup _ _ _ Hnd Hin).
Qed.

Lemma neighbors_endpoints G u v :
  v ∈ Graph.neighbors G u → v ∈ NX.endpoints G.
Proof.
  unfold Graph.neighbors. intros Hv.
  apply list_elem_of_fmap in Hv as (e & -> & He).
  apply adj_elem in He as (nbrs & Hin & He).
  unfold NX.endpoints. apply elem_of_app. right.
  apply list_elem_of_bind. exists (u, nbrs). split; [|done].
  simpl. apply list_elem_of_fmap. by exists e.
Qed.

Lemma predecessors_endpoints G u v :
  u ∈ NX.predecessors G v → u ∈ NX.endpoints G.
Proof.
  intros Hu. apply predecessors_elem in Hu as (nbrs & Hin & _).
  unfold NX.endpoints. apply elem_of_app. left.
  apply list_elem_of_fmap. by exists (u, nbrs).
Qed.

(** ** One level of the bidirectional search *)

Section level.
Context (P : node → Prop) (nbrs : node → list node) (U : gset node) (other : NX.links).
Hypothesis P_step : ∀ v w, P v → w ∈ nbrs v → P w.
Hypothesis nbrs_U : ∀ v w, w ∈ nbrs v → w ∈ U.

Lemma level_inv_refl mine fringe :
  (∀ x, x ∈ dom mine → P x) → level_inv P U mine fringe mine fringe.
Proof. intros HP. split_and!; [done|done|set_solver|auto]. Qed.

Lemma level_ok_trans mine fringe mine1 fringe1 r :
  level_inv P U mine fringe mine1 fringe1 →
  level_ok P U other mine1 fringe1 r → level_ok P U other mine fringe r.
Proof.
  destruct r as [mine' w|mine' fringe']; simpl; [tauto|].
  intros (HP1 & Hsub1 & HU1 & Hf1) (HP & Hsub & HU & Hf).
  split_and!; [done|set_solver|set_solver|].
  intros w Hw. destruct (Hf w Hw) as [Hw1|[Hw1 Hw2]].
  - destruct (Hf1 w Hw1) as [?|[? ?]]; [by left|right]. set_solver.
  - right. set_solver.
Qed.

Lemma expand_node_ok v l : ∀ mine fringe,
  P v → (∀ w, w ∈ l → w ∈ nbrs v) → (∀ x, x ∈ dom mine → P x) →
  level_ok P U other mine fringe (NX.expand_node v l mine other fringe).
Proof.
  induction l as [|w l IH]; intros mine fringe Hv Hl HP; simpl.
  - by apply level_inv_refl.
  - assert (w ∈ nbrs v) as Hw by (apply Hl, list_elem_of_here).
    assert (P w) as HPw by eauto.
    assert (∀ w', w' ∈ l → w' ∈ nbrs v) as Hl'
      by (intros w' Hw'; apply Hl; by apply list_elem_of_further).
    case_bool_decide as Hin.
    + case_bool_decide; [done|]. by apply IH.
    + case_bool_decide; [done|].
      assert (w ∉ dom mine) as Hnotin by (by rewrite elem_of_dom).
      eapply (level_ok_trans _ _ (<[w:=Some v]> mine) (fringe ++ [w])).
      * split_and!.
        -- intros x. rewrite dom_insert_L. set_solver.
        -- rewrite dom_insert_L. set_solver.
        -- rewrite dom_insert_L. specialize (nbrs_U _ _ Hw). set_solver.
        -- intros w'. rewrite elem_of_app, list_elem_of_singleton, dom_insert_L.
           intros [?| ->]; [by left|right]. set_solver.
      * apply IH; [done|done|]. intros x. rewrite dom_insert_L. set_solver.
Qed.

Lemma expand_level_ok this_level : ∀ mine fringe,
  (∀ v, v ∈ this_level → P v) → (∀ x, x ∈ dom mine → P x) →
  level_ok P U other mine fringe (NX.expand_level nbrs this_level mine other fringe).
Proof.
  induction this_level as [|v rest IH]; intros mine fringe Hlevel HP; simpl.
  - by apply level_inv_refl.
  - pose proof (expand_node_ok v (nbrs v) mine fringe) as Hn.
    destruct (NX.expand_node v (nbrs v) mine other fringe) as [mine1 w|mine1 fringe1].
    + apply Hn; [apply Hlevel, list_elem_of_here|done|done].
    + assert (level_inv P U mine fringe mine1 fringe1) as Hinv
        by (apply Hn; [apply Hlevel, list_elem_of_here|done|done]).
      eapply level_ok_trans; [done|].
      apply IH; [|by destruct Hinv].
      intros v' Hv'. apply Hlevel. by apply list_elem_of_further.
Qed.
End level.

(** ** Link dictionaries of the search *)

Lemma chain_insert (d : NX.links) x l w o :
  chain d x l → (∀ y, y ∈ l → y ∈ dom d) → w ∉ dom d → chain (<[w:=o]> d) x l.
Proof.
  intros Hc Hl Hw. induction Hc as [x Hx|x y l Hx Hc IH].
  - apply chain_root. rewrite lookup_insert_ne; [done|].
    intros ->. apply Hw, Hl, list_elem_of_here.
  - apply chain_step with y.
    + rewrite lookup_insert_ne; [done|]. intros ->. apply Hw, Hl, list_elem_of_here.
    + apply IH. intros z Hz. by apply Hl, list_elem_of_further.
Qed.

Lemma rooted_singleton (s : node) : rooted {[ s := None ]}.
Proof.
  intros x. rewrite dom_singleton_L, elem_of_singleton. intros ->.
  exists [s]. split_and!.
  - apply chain_root, lookup_singleton_eq.
  - apply NoDup_singleton.
  - intros y Hy. apply list_elem_of_singleton in Hy as ->. set_solver.
Qed.

Lemma rooted_insert (d : NX.links) v w :
  rooted d → v ∈ dom d → w ∉ dom d → rooted (<[w:=Some v]> d).
Proof.
  intros Hd Hv Hw x. rewrite dom_insert_L, elem_of_union, elem_of_singleton.
  intros [->|Hx].
  - destruct (Hd v Hv) as (l & Hc & Hnd & Hl). exists (w :: l). split_and!.
    + apply chain_step with v; [apply lookup_insert_eq|]. by apply chain_insert.
    + apply NoDup_cons. split; [|done]. intros Hin. by apply Hw, Hl.
    + intros y Hy. apply elem_of_cons in Hy as [->|Hy]; set_solver.
  - destruct (Hd x Hx) as (l & Hc & Hnd & Hl). exists l. split_and!.
    + by apply chain_insert.
    + done.
    + intros y Hy. set_solver.
Qed.

Lemma follow_None fuel d : NX.follow fuel d None = Some (Ok []).
Proof. by destruct fuel. Qed.

Lemma follow_chain (d : NX.links) x l : chain d x l → ∀ fuel,
  (length l ≤ fuel)%nat → NX.follow fuel d (Some x) = Some (Ok l).
Proof.
  induction 1 as [x Hx|x y l Hx Hc IH]; intros fuel Hfuel.
  - destruct fuel as [|fuel]; [simpl in Hfuel; lia|]. simpl. rewrite Hx.
    by destruct fuel.
  - destruct fuel as [|fuel]; [simpl in Hfuel; lia|]. simpl. rewrite Hx.
    rewrite IH; [done|]. simpl in Hfuel. lia.
Qed.

Lemma chain_length (d : NX.links) (l : list node) :
  NoDup l → (∀ y, y ∈ l → y ∈ dom d) → (length l ≤ size d)%nat.
Proof.
  intros Hnd Hl. rewrite <- size_dom, <- (size_list_to_set (C := gset node) l Hnd).
  apply subseteq_size. intros y Hy. apply Hl. by apply elem_of_list_to_set in Hy.
Qed.

Lemma follow_rooted (d : NX.links) x :
  rooted d → x ∈ dom d → ∃ l, NX.follow (S (size d)) d (Some x) = Some (Ok l).
Proof.
  intros Hd Hx. destruct (Hd x Hx) as (l & Hc & Hnd & Hl). exists l.
  apply follow_chain; [done|]. pose proof (chain_length d l Hnd Hl). lia.
Qed.

Lemma expand_node_rooted other v l : ∀ mine fringe,
  rooted mine → v ∈ dom mine →
  level_rooted other mine (NX.expand_node v l mine other fringe).
Proof.
  induction l as [|w l IH]; intros mine fringe Hr Hv; simpl; [done|].
  case_bool_decide as Hin.
  - case_bool_decide as Hoth.
    + split_and!; [done| |]; by apply elem_of_dom.
    + by apply IH.
  - assert (w ∉ dom mine) as Hw by (by rewrite elem_of_dom).
    pose proof (rooted_insert mine v w Hr Hv Hw) as Hr'.
    case_bool_decide as Hoth.
    + split_and!; [done| |by apply elem_of_dom]. rewrite dom_insert_L. set_solver.
    + specialize (IH (<[w:=Some v]> mine) (fringe ++ [w]) Hr').
      destruct (NX.expand_node v l _ other _) as [mine' w'|mine' fringe'];
        simpl in *; rewrite dom_insert_L in IH.
      * apply IH. set_solver.
      * destruct IH as [? ?]; [set_solver|]. split; [done|set_solver].
Qed.

Lemma expand_level_rooted nbrs other this_level : ∀ mine fringe,
  rooted mine → (∀ v, v ∈ this_level → v ∈ dom mine) →
  level_rooted other mine (NX.expand_level nbrs this_level mine other fringe).
Proof.
  induction this_level as [|v rest IH]; intros mine fringe Hr Hl; simpl; [done|].
  pose proof (expand_node_rooted other v (nbrs v) mine fringe Hr
                (Hl v (list_elem_of_here _ _))) as Hn.
  destruct (NX.expand_node v (nbrs v) mine other fringe) as [mine1 w|mine1 fringe1];
    [done|].
  destruct Hn as [Hr1 Hsub].
  specialize (IH mine1 fringe1 Hr1).
  destruct (NX.expand_level nbrs rest mine1 other fringe1) as [mine' w'|mine' fringe'];
    simpl in *.
  - apply IH. intros v' Hv'. apply Hsub, Hl. by apply list_elem_of_further.
  - destruct IH as [? ?]; [|split; [done|set_solver]].
    intros v' Hv'. apply Hsub, Hl. by apply list_elem_of_further.
Qed.

(** ** The search loop *)

Section search.
Context (G : MultiDiGraph) (s t : node) (Pf Pr : node → Prop).
Hypothesis Pf_step : ∀ v w, Pf v → w ∈ Graph.neighbors G v → Pf w.
Hypothesis Pr_step : ∀ v w, Pr v → w ∈ NX.predecessors G v → Pr w.

Let U : gset node := list_to_set (NX.endpoints G).

Lemma size_bound (X : gset node) (x : node) : X ⊆ {[ x ]} ∪ U → (size X ≤ S (size U))%nat.
Proof.
  intros HX. apply subseteq_size in HX. rewrite size_union_alt, size_singleton in HX.
  assert (size (U ∖ {[x]}) ≤ size U)%nat by (apply subseteq_size; set_solver). lia.
Qed.

Lemma grown_size (X Y : gset node) (w : node) :
  X ⊆ Y → w ∈ Y → w ∉ X → (size X < size Y)%nat.
Proof. intros Hsub Hw Hnw. apply subset_size. set_solver. Qed.

Lemma search_loop_spec fuel : ∀ pred succ ff rf,
  search_inv G s t Pf Pr pred succ ff rf →
  (search_measure G pred succ + 2 ≤ fuel ∨ (1 ≤ fuel ∧ (ff = [] ∨ rf = [])))%nat →
  ∃ r, NX.search_loop fuel G pred succ ff rf = Some r ∧ search_post Pf Pr r.
Proof.
  induction fuel as [|fuel IH]; intros pred succ ff rf Hinv Hfuel; [lia|].
  destruct Hinv as (Hp & Hs & Hff & Hrf & HUp & HUs & Hrp & Hrs). simpl.
  destruct (bool_decide (ff ≠ []) && bool_decide (rf ≠ [])) eqn:Hne;
    [|by eexists].
  apply andb_true_iff in Hne as [Hffne Hrfne].
  apply bool_decide_eq_true in Hffne, Hrfne.
  assert (search_measure G pred succ + 2 ≤ S fuel)%nat as Hm
    by (destruct Hfuel as [?|[_ [?|?]]]; done).
  clear Hfuel. case_bool_decide as Hcmp.
  - pose proof (expand_level_ok Pf (Graph.neighbors G) U succ Pf_step
                  (λ v w Hw, proj2 (elem_of_list_to_set _ _) (neighbors_endpoints G v w Hw))
                  ff pred [] (λ v Hv, Hp v (Hff v Hv)) Hp) as Hlev.
    pose proof (expand_level_rooted (Graph.neighbors G) succ ff pred [] Hrp Hff) as Hroot.
    destruct (NX.expand_level _ _ _ _ _) as [pred' w|pred' ff'].
    + destruct Hlev as [Hsw Hw]. destruct Hroot as (Hrp' & Hwp & Hws).
      eexists. split; [done|]. simpl. split_and!; auto.
    + destruct Hlev as (Hp' & Hsub & HU' & Hnew). destruct Hroot as [Hrp' _].
      assert (∀ v, v ∈ ff' → v ∈ dom pred' ∧ v ∉ dom pred) as Hnew'.
      { intros v Hv. destruct (Hnew v Hv) as [Hnil|?]; [|done]. by apply elem_of_nil in Hnil. }
      assert (dom pred' ⊆ {[s]} ∪ U) as HUp' by set_solver.
      apply IH.
      * split_and!; [done|done| |done|done|done|done|done]. intros v Hv. by apply Hnew'.
      * destruct ff' as [|w ff']; [right; split; [lia|by left]|left].
        destruct (Hnew' w (list_elem_of_here _ _)) as [Hw Hnw].
        pose proof (grown_size _ _ _ Hsub Hw Hnw).
        pose proof (size_bound _ _ HUp'). unfold search_measure, U in *. lia.
  - pose proof (expand_level_ok Pr (NX.predecessors G) U pred Pr_step
                  (λ v w Hw, proj2 (elem_of_list_to_set _ _) (predecessors_endpoints G w v Hw))
                  rf succ [] (λ v Hv, Hs v (Hrf v Hv)) Hs) as Hlev.
    pose proof (expand_level_rooted (NX.predecessors G) pred rf succ [] Hrs Hrf) as Hroot.
    destruct (NX.expand_level _ _ _ _ _) as [succ' w|succ' rf'].
    + destruct Hlev as [Hwt Hw]. destruct Hroot as (Hrs' & Hws & Hwp).
      eexists. split; [done|]. simpl. split_and!; auto.
    + destruct Hlev as (Hs' & Hsub & HU' & Hnew). destruct Hroot as [Hrs' _].
      assert (∀ v, v ∈ rf' → v ∈ dom succ' ∧ v ∉ dom succ) as Hnew'.
      { intros v Hv. destruct (Hnew v Hv) as [Hnil|?]; [|done]. by apply elem_of_nil in Hnil. }
      assert (dom succ' ⊆ {[t]} ∪ U) as HUs' by set_solver.
      apply IH.
      * split_and!; [done|done|done| |done|done|done|done]. intros v Hv. by apply Hnew'.
      * destruct rf' as [|w rf']; [right; split; [lia|by right]|left].
        destruct (Hnew' w (list_elem_of_here _ _)) as [Hw Hnw].
        pose proof (grown_size _ _ _ Hsub Hw Hnw).
        pose proof (size_bound _ _ HUs'). unfold search_measure, U in *. lia.
Qed.

Lemma bidirectional_spec :
  Pf s → Pr t →
  ∃ r, NX.bidirectional_pred_succ G s t = Some r ∧ search_post Pf Pr r.
Proof.
  intros Hs Ht. unfold NX.bidirectional_pred_succ. case_bool_decide as Heq.
  - subst t. eexists. split; [done|]. simpl.
    split_and!; try apply rooted_singleton; try done.
    all: rewrite dom_singleton_L; set_solver.
  - apply search_loop_spec.
    + split_and!; try apply rooted_singleton.
      * intros x. rewrite dom_singleton_L, elem_of_singleton. by intros ->.
      * intros x. rewrite dom_singleton_L, elem_of_singleton. by intros ->.
      * intros v. rewrite list_elem_of_singleton, dom_singleton_L. set_solver.
      * intros v. rewrite list_elem_of_singleton, dom_singleton_L. set_solver.
      * rewrite dom_singleton_L. set_solver.
      * rewrite dom_singleton_L. set_solver.
    + left. unfold search_measure, NX.search_fuel.
      rewrite !dom_singleton_L, !size_singleton. lia.
Qed.
End search.

(** On a pair without a directed path the search ends with
    [NetworkXNoPath]. *)
Lemma bidirectional_no_path G s t :
  Graph.wf G → ¬ Graph.connected G s t →
  NX.bidirectional_pred_succ G s t = Some (Raise NetworkXNoPath).
Proof.
  intros Hwf Hnc.
  destruct (bidirectional_spec G s t (Graph.connected G s) (λ x, Graph.connected G x t))
    as (r & Hr & Hpost).
  - intros v w Hv Hw. eapply connected_step_r; [done|]. by apply wf_neighbor_edge.
  - intros v w Hv Hw. eapply connected_step_l; [|done]. by apply wf_predecessor_edge.
  - apply connected_refl.
  - apply connected_refl.
  - rewrite Hr. destruct r as [[[pred succ] w]|e]; simpl in Hpost.
    + destruct Hpost as (_ & _ & _ & _ & Hsw & Hwt). exfalso. apply Hnc.
      by eapply connected_trans.
    + by subst.
Qed.

(** The search never runs out of fuel, and neither do the two walks that
    assemble the path. *)
Lemma shortest_path_total G s t : ∃ r, NX.shortest_path G s t = Some r.
Proof.
  unfold NX.shortest_path.
  destruct (Graph.has_node G s); cbn [negb]; [|by eexists].
  destruct (Graph.has_node G t); cbn [negb]; [|by eexists].
  destruct (bidirectional_spec G s t (λ _, True) (λ _, True)) as (r & Hr & Hpost); try done.
  rewrite Hr. destruct r as [[[pred succ] w]|e]; [|by eexists].
  destruct Hpost as (Hrp & Hrs & Hwp & Hws & _ & _). cbn -[NX.follow size].
  destruct (follow_rooted pred w Hrp Hwp) as [back Hback]. rewrite Hback.
  destruct (Hrs w Hws) as (l & Hc & Hnd & Hl).
  pose proof (chain_length succ l Hnd Hl) as Hlen.
  inversion Hc as [x Hx|x y l' Hx Hc']; subst; rewrite Hx.
  - rewrite follow_None. by eexists.
  - rewrite (follow_chain succ y l' Hc'); [by eexists|]. simpl in Hlen. lia.
Qed.

(** ** shortestPath: [shortest_path_query] *)

Lemma shortest_path_same G a :
  Graph.has_node G a = true → NX.shortest_path G a a = Some (Ok [a]).
Proof.
  intros Ha. unfold NX.shortest_path, NX.bidirectional_pred_succ.
  rewrite Ha. simpl. rewrite bool_decide_eq_true_2 by done.
  simpl. rewrite !lookup_singleton_eq, !follow_None. done.
Qed.

Lemma shortest_path_disconnected G a b :
  Graph.wf G → Graph.has_node G a = true → Graph.has_node G b = true →
  ¬ Graph.connected G a b → NX.shortest_path G a b = Some (Raise NetworkXNoPath).
Proof.
  intros Hwf Ha Hb Hnc. unfold NX.shortest_path. rewrite Ha, Hb. simpl.
  by rewrite (bidirectional_no_path _ _ _ Hwf Hnc).
Qed.

(** [shortest_path_query] always returns: the fuel of the library search
    is never exhausted. *)
Lemma shortest_path_query_total mg source target :
  ∃ r, shortest_path_query mg source target = Some r.
Proof.
  unfold shortest_path_query. destruct (_ || _); [by eexists|].
  destruct (as_node source) as [s|], (as_node target) as [t|]; try by eexists.
  destruct (shortest_path_total (mg_Graph mg) s t) as [r ->]. by eexists.
Qed.

(** C4. For a node [A] of the graph, [shortest_path_query A A] returns
    the path of the single node [A], without hop annotation; for nodes
    [A] and [B] of the graph with no directed path from [A] to [B] it
    returns [None], and does not raise. *)
Theorem shortest_path_query_same_or_disconnected (mg : MovieGraph) (A B : node) :
  Graph.wf (mg_Graph mg) →
  Graph.has_node (mg_Graph mg) A = true → Graph.has_node (mg_Graph mg) B = true →
  (∃ d, shortest_path_query mg (node_val A) (node_val A) = Some (Ok (Some [d]))
        ∧ hn_node d = A ∧ hn_relation_to_next d = None)
  ∧ (¬ Graph.connected (mg_Graph mg) A B →
     shortest_path_query mg (node_val A) (node_val B) = Some (Ok None)).
Proof.
  intros Hwf HA HB. split.
  - unfold shortest_path_query. rewrite !contains_node_val, HA, !as_node_val. simpl.
    rewrite shortest_path_same by done. simpl.
    destruct (has_node_data _ _ HA) as (a & _ & Ha). rewrite Ha. simpl. eauto.
  - intros Hnc. unfold shortest_path_query.
    rewrite !contains_node_val, HA, HB, !as_node_val. simpl.
    by rewrite shortest_path_disconnected.
Qed.

(** * The tool surface *)

(** ** The tool boundary *)

Lemma try_except_total {A} (body : result A) (f : exn → A) :
  ∃ out, try_except body (λ e, Ok (f e)) = Ok out.
Proof. destruct body; simpl; eauto. Qed.

(** The three tools with a handler never raise. *)
Lemma QueryGraphTool_forward_total mg entity relation :
  ∃ out, QueryGraphTool_forward mg entity relation = Ok out.
Proof. apply (try_except_total _ (λ e, [ErrorRec e])). Qed.

Lemma NearestGraphTool_forward_total mg entity1 entity2 :
  ∃ out, NearestGraphTool_forward mg entity1 entity2 = Ok out.
Proof. apply (try_except_total _ (λ e, [ErrorRec e])). Qed.

Lemma FaissTool_forward_total {embedding faiss_index}
    (encode : string → result embedding)
    (index_search : faiss_index → embedding → Z → result (list Z)) st df q k :
  ∃ out, FaissTool_forward encode index_search st df q k = Ok out.
Proof. apply (try_except_total _ (λ e, [ErrorRec e])). Qed.

(** [query_movie_id] cannot raise: membership is tested first. *)
Lemma QueryMovieIDTool_forward_total mg movie_id :
  ∃ out, QueryMovieIDTool_forward mg movie_id = Ok out.
Proof.
  unfold QueryMovieIDTool_forward, query_movie_id, Graph.contains.
  destruct (as_node movie_id) as [n|]; simpl; [|eauto].
  destruct (Graph.has_node (mg_Graph mg) n) eqn:E; simpl; [|eauto].
  destruct (has_node_data _ _ E) as (a & _ & ->). simpl.
  destruct (attrs_is_empty a); eauto.
Qed.

(** C7. [filter_movies_by_person] has no handler: handed the records of
    a semantic search instead of their ids, the [TypeError] of hashing a
    dictionary leaves the tool. *)
Theorem filter_movies_by_person_propagates :
  FilterMoviesByPersonTool_forward Sample.two_films (PStr "Jane Doe")
    (PList [PDict [("id", PInt 1)]]) = Raise TypeError.
Proof. by vm_compute. Qed.

(** ** semantic_search *)

(** C8, as stated, fails: with no index loaded the tool returns a list
    that holds an error record, and [search] itself raises. *)
Lemma semantic_search_unbuilt_not_empty :
  search (λ _, Ok ()) (λ (_ : unit) _ _, Ok []) unbuilt "space adventure" 20
    = Raise AttributeError
  ∧ FaissTool_forward (λ _, Ok ()) (λ (_ : unit) _ _, Ok []) unbuilt []
      "space adventure" 20 ≠ Ok [].
Proof. split; [done|]. by vm_compute. Qed.

(** C8, amended. [semantic_search] never raises.  With no index loaded
    it returns a list of one error record; with an index loaded but no
    id mapping it returns one error record or, when the library finds
    no label, the empty list. *)
Theorem semantic_search_unavailable {embedding faiss_index}
    (encode : string → result embedding)
    (index_search : faiss_index → embedding → Z → result (list Z))
    (mapping : gmap Z Z) (ix : faiss_index) (df : list Row) (q : string) (k : Z) :
  (∃ e, FaissTool_forward encode index_search
          {| index := None; index_to_id := mapping |} df q k = Ok [ErrorRec e])
  ∧ ((∃ e, FaissTool_forward encode index_search
             {| index := Some ix; index_to_id := ∅ |} df q k = Ok [ErrorRec e])
     ∨ FaissTool_forward encode index_search
         {| index := Some ix; index_to_id := ∅ |} df q k = Ok []).
Proof.
  unfold FaissTool_forward, search. simpl.
  destruct (encode ("query: " +:+ q)) as [emb|e]; simpl.
  - split; [eauto|].
    destruct (index_search ix emb k) as [[|i labels]|e]; simpl; eauto.
  - split; eauto.
Qed.

(** * The table behind the graph *)

(** ** Duplicate ids and missing release dates *)

Lemma first_of_id_cons r0 df r :
  first_of_id (r0 :: df) r ↔ r = r0 ∨ (r_id r0 ≠ r_id r ∧ first_of_id df r).
Proof.
  split.
  - intros ([|i] & Hi & Hfirst).
    + left. by injection Hi.
    + right. split.
      * apply (Hfirst 0%nat r0); [lia|done].
      * exists i. split; [done|]. intros j r' Hj Hr'. apply (Hfirst (S j) r'); [lia|done].
  - intros [->|(Hne & i & Hi & Hfirst)].
    + exists 0%nat. split; [done|]. intros j r' Hj. lia.
    + exists (S i). split; [done|]. intros [|j] r' Hj Hr'.
      * by injection Hr' as <-.
      * apply (Hfirst j r'); [lia|done].
Qed.

Lemma drop_duplicates_from_first df : ∀ seen r,
  r ∈ drop_duplicates_from seen df ↔ (r_id r ∉ seen) ∧ first_of_id df r.
Proof.
  induction df as [|r0 df IH]; intros seen r; simpl.
  - split; [by intros ?%elem_of_nil|]. intros (_ & i & Hi & _). done.
  - rewrite first_of_id_cons. case_bool_decide as Hseen.
    + rewrite IH. split.
      * intros [Hr Hf]. split; [done|]. right. split; [|done]. by intros Heq; rewrite Heq in Hseen.
      * intros [Hr [->|[_ Hf]]]; done.
    + rewrite elem_of_cons, IH, not_elem_of_cons. split.
      * intros [->|[[Hne Hr] Hf]]; [by split; [|left]|]. split; [done|]. right. by split.
      * intros [Hr [->|[Hne Hf]]]; [by left|]. right. by split_and!.
Qed.

Lemma drop_duplicates_from_sublist df : ∀ seen, drop_duplicates_from seen df `sublist_of` df.
Proof.
  induction df as [|r0 df IH]; intros seen; simpl; [done|].
  case_bool_decide; [by apply sublist_cons|by apply sublist_skip].
Qed.

Lemma ingest_distinct joined :
  NoDup (r_id <$> dropna_release_date (drop_duplicates joined)).
Proof.
  eapply sublist_NoDup; [apply (drop_duplicates_from_NoDup joined [])|].
  apply fmap_sublist, sublist_filter.
Qed.

(** X1. The table [MovieGraph.__init__] keeps holds exactly the rows that
    are the first of their id in the joined frame and carry a release
    date, in the order of the frame and with pairwise distinct ids.  (A
    film whose first row has no date is dropped even when a later
    duplicate has one: duplicates go before missing dates.) *)
Theorem ingest_first_dated_rows (joined : list Row) (mg : MovieGraph) :
  MovieGraph_init joined = Ok mg →
  (∀ r, r ∈ movies_df mg ↔ first_of_id joined r ∧ is_Some (r_release_date r))
  ∧ NoDup (r_id <$> movies_df mg)
  ∧ movies_df mg `sublist_of` joined.
Proof.
  unfold MovieGraph_init. destruct (build_graph _ _) as [G|]; [|done].
  intros [= <-]. simpl. split_and!.
  - intros r. unfold dropna_release_date, drop_duplicates.
    rewrite list_elem_of_filter, drop_duplicates_from_first. set_solver.
  - apply ingest_distinct.
  - etrans; [apply sublist_filter|]. apply drop_duplicates_from_sublist.
Qed.

(** * The construction as a trace of graph calls *)

(** ** [build_graph] replays the calls of the table *)

Lemma run_app G ops1 ops2 : run G (ops1 ++ ops2) = run (run G ops1) ops2.
Proof. apply foldl_app. Qed.

Lemma run_bind {A} (f : A → list gop) (l : list A) : ∀ G,
  run G (mbind (M := list) f l) = foldl (λ G x, run G (f x)) G l.
Proof.
  induction l as [|x l IH]; intros G; [done|].
  csimpl. by rewrite run_app, IH.
Qed.

Lemma foldl_add_genre movie_id genres G :
  foldl (add_genre movie_id) G genres = run G (mbind (M := list) (genre_ops movie_id) genres).
Proof. by rewrite run_bind. Qed.

Lemma foldl_add_actor movie_id cast : ∀ G acc,
  foldl (add_actor movie_id) (G, acc) cast
  = (run G (mbind (M := list) (actor_ops movie_id) cast), acc ++ actor_names cast).
Proof.
  induction cast as [|c cast IH]; intros G acc.
  - simpl. by rewrite app_nil_r.
  - cbn [foldl]. unfold add_actor at 2. rewrite IH. csimpl.
    by rewrite <- app_assoc.
Qed.

Lemma foldl_add_crew movie_id crew : ∀ G acc,
  foldl (add_crew movie_id) (G, acc) crew
  = (run G (mbind (M := list) (crew_ops movie_id) crew), acc ++ director_names crew).
Proof.
  induction crew as [|m crew IH]; intros G acc.
  - simpl. by rewrite app_nil_r.
  - cbn [foldl]. unfold add_crew at 2. rewrite IH. csimpl.
    unfold crew_job. case_bool_decide; by rewrite <- ?app_assoc.
Qed.

Lemma add_pairings_run G actors directors :
  add_pairings G actors directors = run G (pairings_ops actors directors).
Proof.
  unfold add_pairings, pairings_ops. revert G.
  induction actors as [|actor actors IH]; intros G; [done|].
  csimpl. rewrite run_app, <- IH. f_equal. by rewrite run_bind.
Qed.

Lemma build_row_run G r G' :
  build_row G r = Ok G' → is_Some (parse r) ∧ G' = run G (row_ops r).
Proof.
  unfold build_row, row_ops, parse.
  destruct (r_release_date r) as [d|]; [|done].
  destruct (r_title r) as [ttl|]; [|done].
  destruct (r_keywords r) as [kws|]; [|done].
  destruct (r_genres r) as [genres|]; [|done].
  destruct (r_cast r) as [cast|]; [|done].
  destruct (r_crew r) as [crew|];
    [|by cbn [from_option mbind result_bind]; destruct (foldl _ _ cast)].
  cbn [from_option mbind result_bind].
  rewrite foldl_add_genre, foldl_add_actor, foldl_add_crew, add_pairings_run.
  intros [= <-]. split; [by eexists|].
  unfold parsed_ops. cbn [p_release_date p_title p_keywords p_genres p_cast p_crew].
  change (run G (?op :: ?ops)) with (run (apply_op G op) ops).
  by rewrite !run_app.
Qed.

Lemma build_graph_run df : ∀ G G',
  build_graph G df = Ok G' → Forall (λ r, is_Some (parse r)) df ∧ G' = run G (table_ops df).
Proof.
  induction df as [|r df IH]; intros G G'.
  - intros [= <-]. by split.
  - unfold build_graph. cbn [foldlM].
    destruct (build_row G r) as [G1|] eqn:Hrow; [|done].
    cbn [mbind result_bind]. intros H. apply IH in H as [Hall ->].
    apply build_row_run in Hrow as [Hp ->]. split; [by constructor|].
    unfold table_ops. csimpl. by rewrite run_app.
Qed.

(** ** The edges a trace leaves *)

Lemma relations_between_apply G op u v :
  relations_between (apply_op G op) u v = relations_between G u v ++ op_relations u v [op].
Proof.
  unfold relations_between, op_relations. destruct op as [n kw|name job|u0 v0 rel]; csimpl.
  - by rewrite adj_add_node, app_nil_r.
  - unfold add_person. rewrite app_nil_r.
    destruct (negb _); by rewrite ?adj_add_node, ?adj_add_node_role.
  - rewrite adj_add_edge, app_nil_r. destruct (decide (u = u0)) as [->|Hu].
    + rewrite get_add_parallel. destruct (decide (v = v0)) as [->|Hv].
      * by rewrite bool_decide_eq_true_2.
      * rewrite bool_decide_eq_false_2, app_nil_r; [done|]. by intros [_ ->].
    + rewrite bool_decide_eq_false_2, app_nil_r; [done|]. by intros [-> _].
Qed.

Lemma op_relations_app u v ops1 ops2 :
  op_relations u v (ops1 ++ ops2) = op_relations u v ops1 ++ op_relations u v ops2.
Proof. apply bind_app. Qed.

Lemma relations_between_run ops : ∀ G u v,
  relations_between (run G ops) u v = relations_between G u v ++ op_relations u v ops.
Proof.
  induction ops as [|op ops IH]; intros G u v.
  - by rewrite app_nil_r.
  - change (run G (op :: ops)) with (run (apply_op G op) ops).
    rewrite IH, relations_between_apply, <- app_assoc.
    by rewrite <- op_relations_app.
Qed.

Lemma elem_of_op_relations u v r ops : r ∈ op_relations u v ops ↔ AddEdge u v r ∈ ops.
Proof.
  unfold op_relations. rewrite list_elem_of_bind. split.
  - intros ([n kw|name job|u' v' rel] & Hr & Hop); try by apply elem_of_nil in Hr.
    case_bool_decide as Heq; [|by apply elem_of_nil in Hr].
    destruct Heq as [-> ->]. by apply list_elem_of_singleton in Hr as ->.
  - intros Hop. exists (AddEdge u v r). split; [|done].
    rewrite bool_decide_eq_true_2 by done. by apply list_elem_of_singleton.
Qed.

Lemma has_rel_edge_relations G u v r :
  Graph.has_rel_edge G u v r ↔ r ∈ relations_between G u v.
Proof.
  rewrite has_rel_edge_adj. unfold relations_between. split.
  - by intros (kd & -> & Hr).
  - destruct (alist_get v (Graph.adj G u)) as [kd|]; [by exists kd|]. by intros ?%elem_of_nil.
Qed.

Lemma edge_relations_between G u v kd :
  Graph.edge_relations G u v = Ok kd → relations_between G u v = kd.
Proof.
  rewrite edge_relations_adj. unfold relations_between.
  destruct (alist_get v (Graph.adj G u)); [by intros [= ->]|done].
Qed.

Lemma relations_between_empty u v : relations_between Graph.empty u v = [].
Proof. done. Qed.

(** ** The attributes a trace leaves *)

Lemma good_succ_mem G n :
  good G → alist_mem n (g_succ G) = Graph.has_node G n.
Proof.
  intros Hg. destruct (Graph.has_node G n) eqn:Hn; [by apply good_present|].
  destruct (alist_mem n (g_succ G)) eqn:Hm; [|done].
  apply wf_succ_has_node in Hm; [congruence|apply Hg].
Qed.

Lemma has_node_get G n : Graph.has_node G n = true ↔ is_Some (alist_get n (g_node G)).
Proof. unfold Graph.has_node, alist_mem. by rewrite bool_decide_eq_true. Qed.

Lemma has_node_get_None G n : Graph.has_node G n = false ↔ alist_get n (g_node G) = None.
Proof.
  rewrite <- not_true_iff_false, has_node_get, <- eq_None_not_Some. done.
Qed.

Lemma node_attrs_add_node G n kw x :
  good G →
  alist_get x (g_node (Graph.add_node G n kw))
  = op_attrs x (alist_get x (g_node G)) (AddNode n kw).
Proof.
  intros Hg. unfold Graph.add_node. rewrite (good_succ_mem G n Hg). simpl.
  destruct (Graph.has_node G n) eqn:Hn; simpl.
  - rewrite alist_get_alter. case_bool_decide as Hx; [|by rewrite decide_False].
    subst x. rewrite decide_True by done.
    apply has_node_get in Hn as [a ->]. done.
  - rewrite alist_get_set. case_bool_decide as Hx; [|by rewrite decide_False].
    subst x. rewrite decide_True by done.
    apply has_node_get_None in Hn as ->. done.
Qed.

Lemma node_attrs_apply G op x :
  good G → admissible G op →
  alist_get x (g_node (apply_op G op)) = op_attrs x (alist_get x (g_node G)) op.
Proof.
  intros Hg Hop. destruct op as [n kw|name job|u v rel].
  - by apply node_attrs_add_node.
  - simpl. unfold add_person. destruct (Graph.has_node G (NStr name)) eqn:Hn; simpl.
    + rewrite alist_get_alter. case_bool_decide as Hx; [|by rewrite decide_False].
      subst x. rewrite decide_True by done. apply has_node_get in Hn as [a ->]. done.
    + rewrite node_attrs_add_node by done. simpl.
      case_bool_decide as Hx; [|done]. subst x.
      apply has_node_get_None in Hn as ->. done.
  - destruct Hop as [Hu Hv]. simpl. unfold Graph.add_edge.
    by rewrite (ensure_node_present G u Hg Hu), (ensure_node_present G v Hg Hv).
Qed.

Lemma admissible_grows G op : good G → admissible G op → grows G (apply_op G op).
Proof.
  intros Hg Hop. destruct op as [n kw|name job|u v rel]; simpl in *.
  - by apply grows_add_node.
  - by apply grows_add_person.
  - destruct Hop. by apply grows_add_edge.
Qed.

Lemma run_grows ops : ∀ G, good G → run_ok G ops → grows G (run G ops).
Proof.
  induction ops as [|op ops IH]; intros G Hg Hok; [by apply grows_refl|].
  destruct Hok as [Hop Hok]. pose proof (admissible_grows G op Hg Hop) as Hgrow.
  eapply grows_trans; [exact Hgrow|]. apply IH; [apply Hgrow|done].
Qed.

Lemma run_good G ops : good G → run_ok G ops → good (run G ops).
Proof. intros Hg Hok. by apply run_grows. Qed.

Lemma node_attrs_run ops : ∀ G x,
  good G → run_ok G ops →
  alist_get x (g_node (run G ops)) = foldl (op_attrs x) (alist_get x (g_node G)) ops.
Proof.
  induction ops as [|op ops IH]; intros G x Hg Hok; [done|].
  destruct Hok as [Hop Hok]. change (run G (op :: ops)) with (run (apply_op G op) ops).
  rewrite IH; [|by apply admissible_grows|done].
  by rewrite node_attrs_apply.
Qed.

(** ** The calls of a table are admissible *)

Lemma run_ok_app ops1 : ∀ G ops2,
  run_ok G (ops1 ++ ops2) ↔ run_ok G ops1 ∧ run_ok (run G ops1) ops2.
Proof.
  induction ops1 as [|op ops1 IH]; intros G ops2; simpl; [naive_solver|].
  rewrite IH. naive_solver.
Qed.

Lemma run_ok_bind {A} (f : A → list gop) (P : MultiDiGraph → Prop) (l : list A) :
  (∀ G G', grows G G' → P G → P G') →
  (∀ G x, x ∈ l → good G → P G → run_ok G (f x)) →
  ∀ G, good G → P G → run_ok G (mbind (M := list) f l).
Proof.
  intros Hmono. induction l as [|x l IH]; intros Hf G Hg HP; [done|].
  csimpl. apply run_ok_app.
  assert (run_ok G (f x)) as Hx by (apply Hf; [left|done|done]).
  split; [done|]. pose proof (run_grows _ G Hg Hx) as Hgrow.
  apply IH; [|apply Hgrow|by eapply Hmono].
  intros G' y Hy. apply Hf. by right.
Qed.

Lemma has_node_grows G G' n : grows G G' → Graph.has_node G n = true → Graph.has_node G' n = true.
Proof. intros [_ Hk]. apply Hk. Qed.

Lemma run_ok_release G movie_id y :
  good G → Graph.has_node G movie_id = true → run_ok G (release_ops movie_id y).
Proof.
  intros Hg Hm. simpl.
  destruct (grows_add_node G (NStr y) (label_attrs "date") Hg) as [[Hg1 Hk1] Hn1];
    [by eexists|].
  pose proof (grows_add_edge _ movie_id (NStr y) MOVIE_RELEASED_ON Hg1 (Hk1 _ Hm) Hn1)
    as [Hg2 Hk2].
  split_and!; try done; auto.
Qed.

Lemma run_ok_genre G movie_id g :
  good G → Graph.has_node G movie_id = true → run_ok G (genre_ops movie_id g).
Proof.
  intros Hg Hm. simpl.
  destruct (grows_add_node G (NStr (normalize g)) (label_attrs "genre") Hg) as [[Hg1 Hk1] Hn1];
    [by eexists|].
  pose proof (grows_add_edge _ movie_id (NStr (normalize g)) MOVIE_HAS_GENRE Hg1 (Hk1 _ Hm) Hn1)
    as [Hg2 Hk2].
  split_and!; try done; auto.
Qed.

Lemma run_ok_person G movie_id name job rel1 rel2 :
  good G → Graph.has_node G movie_id = true →
  run_ok G [AddPerson name job; AddEdge movie_id (NStr name) rel1;
            AddEdge (NStr name) movie_id rel2].
Proof.
  intros Hg Hm. simpl.
  destruct (grows_add_person G name job Hg) as [[Hg1 Hk1] Hn1].
  pose proof (grows_add_edge _ movie_id (NStr name) rel1 Hg1 (Hk1 _ Hm) Hn1) as [Hg2 Hk2].
  split_and!; auto.
Qed.

Lemma run_ok_pairing G actor director :
  good G → Graph.has_node G (NStr actor) = true → Graph.has_node G (NStr director) = true →
  run_ok G (pairing_ops actor director).
Proof.
  intros Hg Ha Hd. simpl.
  pose proof (grows_add_edge G (NStr actor) (NStr director) ACTOR_WORKED_WITH_DIRECTOR
                Hg Ha Hd) as [Hg1 Hk1].
  split_and!; auto.
Qed.

Lemma run_ok_pairings G actors directors :
  good G → all_present G actors → all_present G directors →
  run_ok G (pairings_ops actors directors).
Proof.
  intros Hg Ha Hd. unfold pairings_ops.
  apply (run_ok_bind _ (λ G, all_present G actors ∧ all_present G directors)); [| |done|done].
  - intros G1 G2 [_ Hk] [H1 H2]. split; by eapply all_present_mono.
  - intros G1 actor Hactor Hg1 [Ha1 Hd1].
    apply (run_ok_bind _ (λ G, Graph.has_node G (NStr actor) = true
                               ∧ all_present G directors)); [| |done|].
    + intros G2 G3 [_ Hk] [H1 H2]. split; [auto|by eapply all_present_mono].
    + intros G2 director Hdirector Hg2 [Ha2 Hd2]. apply run_ok_pairing; [done..|].
      unfold all_present in Hd2. rewrite Forall_forall in Hd2. by apply Hd2.
    + split; [|done]. unfold all_present in Ha1. rewrite Forall_forall in Ha1. by apply Ha1.
Qed.

(** The node a call adds, if it adds one. *)
Lemma has_node_apply_created G op name job :
  good G → admissible G op → op = AddPerson name job →
  Graph.has_node (apply_op G op) (NStr name) = true.
Proof. intros Hg _ ->. by apply grows_add_person. Qed.

Lemma has_node_run_person ops : ∀ G name job,
  good G → run_ok G ops → AddPerson name job ∈ ops →
  Graph.has_node (run G ops) (NStr name) = true.
Proof.
  induction ops as [|op ops IH]; intros G name job Hg Hok Hin;
    [by apply elem_of_nil in Hin|].
  destruct Hok as [Hop Hok].
  change (run G (op :: ops)) with (run (apply_op G op) ops).
  pose proof (admissible_grows G op Hg Hop) as [Hg1 Hk1].
  apply elem_of_cons in Hin as [<-|Hin].
  - eapply has_node_grows; [by apply run_grows|]. by apply grows_add_person.
  - by eapply IH.
Qed.

Lemma run_ok_parsed G r p : good G → run_ok G (parsed_ops r p).
Proof.
  intros Hg. unfold parsed_ops. set (movie_id := NInt (r_id r)).
  set (kw := movie_attrs _ _ _ _).
  destruct (grows_add_node G movie_id kw Hg) as [Hgrow1 Hm1]; [by eexists|].
  split; [by eexists|]. fold (apply_op G (AddNode movie_id kw)) in *.
  set (G1 := apply_op G (AddNode movie_id kw)) in *.
  assert (∀ G', grows G1 G' → Graph.has_node G' movie_id = true) as Hm.
  { intros G' HG'. by eapply has_node_grows. }
  assert (∀ G' G'', grows G1 G' → grows G' G'' → grows G1 G'') as Htr.
  { intros ????. by eapply grows_trans. }
  apply run_ok_app. split; [apply run_ok_release; [apply Hgrow1|done]|].
  pose proof (run_grows _ G1 (proj1 Hgrow1) (run_ok_release G1 movie_id (year_of (p_release_date p))
                (proj1 Hgrow1) Hm1))
    as Hgrow2.
  set (G2 := run G1 _) in *.
  assert (run_ok G2 (mbind (M := list) (genre_ops movie_id) (p_genres p))) as Hok3.
  { apply (run_ok_bind _ (λ G, Graph.has_node G movie_id = true)); [| |apply Hgrow2|by apply Hm].
    - intros ????. by eapply has_node_grows.
    - intros. by apply run_ok_genre. }
  apply run_ok_app. split; [done|].
  pose proof (run_grows _ G2 (proj1 Hgrow2) Hok3) as Hgrow3. set (G3 := run G2 _) in *.
  assert (grows G1 G3) as Hgrow13 by eauto.
  assert (run_ok G3 (mbind (M := list) (actor_ops movie_id) (p_cast p))) as Hok4.
  { apply (run_ok_bind _ (λ G, Graph.has_node G movie_id = true)); [| |apply Hgrow3|by apply Hm].
    - intros ????. by eapply has_node_grows.
    - intros. by apply run_ok_person. }
  apply run_ok_app. split; [done|].
  pose proof (run_grows _ G3 (proj1 Hgrow3) Hok4) as Hgrow4. set (G4 := run G3 _) in *.
  assert (grows G1 G4) as Hgrow14 by eauto.
  assert (run_ok G4 (mbind (M := list) (crew_ops movie_id) (p_crew p))) as Hok5.
  { apply (run_ok_bind _ (λ G, Graph.has_node G movie_id = true)); [| |apply Hgrow4|by apply Hm].
    - intros ????. by eapply has_node_grows.
    - intros. by apply run_ok_person. }
  apply run_ok_app. split; [done|].
  pose proof (run_grows _ G4 (proj1 Hgrow4) Hok5) as Hgrow5. set (G5 := run G4 _) in *.
  apply run_ok_pairings; [apply Hgrow5| |].
  - eapply all_present_mono; [apply Hgrow5|].
    unfold all_present, actor_names. rewrite Forall_fmap. apply Forall_forall.
    intros c Hc. simpl. apply (has_node_run_person _ G3 (normalize c) "actor");
      [apply Hgrow3|done|].
    apply list_elem_of_bind. exists c. split; [left|done].
  - unfold all_present, director_names. apply Forall_forall. intros d Hd.
    apply list_elem_of_bind in Hd as (m & Hd & Hm').
    case_bool_decide; [|by apply elem_of_nil in Hd].
    apply list_elem_of_singleton in Hd as ->.
    apply (has_node_run_person _ G4 (normalize m.2) (crew_job m)); [apply Hgrow4|done|].
    apply list_elem_of_bind. exists m. split; [left|done].
Qed.

Lemma run_ok_table df : ∀ G, good G → run_ok G (table_ops df).
Proof.
  intros G Hg. unfold table_ops.
  apply (run_ok_bind _ (λ _, True)); [done| |done|done].
  intros G' r _ Hg' _. unfold row_ops. destruct (parse r); [by apply run_ok_parsed|done].
Qed.

(** The graph [MovieGraph.__init__] builds is the replay of the calls of
    its table on the empty graph, every row of the table parses, and
    every call is admissible. *)
Lemma MovieGraph_init_run joined mg :
  MovieGraph_init joined = Ok mg →
  mg_Graph mg = run Graph.empty (table_ops (movies_df mg))
  ∧ Forall (λ r, is_Some (parse r)) (movies_df mg)
  ∧ run_ok Graph.empty (table_ops (movies_df mg))
  ∧ good (mg_Graph mg).
Proof.
  unfold MovieGraph_init. destruct (build_graph _ _) as [G|] eqn:Hb; [|done].
  intros [= <-]. simpl. pose proof (build_graph_run _ _ _ Hb) as [Hall ->].
  split_and!; [done|done|apply run_ok_table, good_empty|].
  apply run_good; [apply good_empty|apply run_ok_table, good_empty].
Qed.

(** ** The edges of a built graph *)

Lemma elem_of_director_names crew d :
  d ∈ director_names crew ↔ ∃ m, m ∈ crew ∧ crew_job m = "director" ∧ d = normalize m.2.
Proof.
  unfold director_names. rewrite list_elem_of_bind. split.
  - intros (m & Hd & Hm). case_bool_decide; [|by apply elem_of_nil in Hd].
    apply list_elem_of_singleton in Hd. by exists m.
  - intros (m & Hm & Hjob & ->). exists m. split; [|done].
    rewrite bool_decide_eq_true_2 by done. by apply list_elem_of_singleton.
Qed.

Lemma elem_of_pairings_ops op actors directors :
  op ∈ pairings_ops actors directors ↔
  ∃ a d, a ∈ actors ∧ d ∈ directors ∧ op ∈ pairing_ops a d.
Proof.
  unfold pairings_ops. rewrite list_elem_of_bind. split.
  - intros (a & Hop & Ha). apply list_elem_of_bind in Hop as (d & Hop & Hd). by exists a, d.
  - intros (a & d & Ha & Hd & Hop). exists a. split; [|done].
    apply list_elem_of_bind. by exists d.
Qed.

Lemma edge_in_parsed_ops r p u v rel :
  AddEdge u v rel ∈ parsed_ops r p ↔ row_edge (r_id r) p u v rel.
Proof.
  unfold parsed_ops.
  rewrite elem_of_cons, !elem_of_app, !list_elem_of_bind, elem_of_pairings_ops.
  unfold release_ops, genre_ops, actor_ops, crew_ops, pairing_ops, actor_names.
  split.
  - intros [?|[Hop|[(g & Hop & Hg)|[(c & Hop & Hc)|[(m & Hop & Hm)|
             (a & d & Ha & Hd & Hop)]]]]]; [done|..].
    + rewrite !elem_of_cons in Hop.
      destruct Hop as [?|[?|[?|?%elem_of_nil]]]; try done; simplify_eq; by constructor.
    + rewrite !elem_of_cons in Hop.
      destruct Hop as [?|[?|[?|?%elem_of_nil]]]; try done; simplify_eq; by constructor.
    + rewrite !elem_of_cons in Hop.
      destruct Hop as [?|[?|[?|?%elem_of_nil]]]; try done; simplify_eq; by constructor.
    + rewrite !elem_of_cons in Hop.
      destruct Hop as [?|[?|[?|?%elem_of_nil]]]; try done; simplify_eq; by constructor.
    + apply list_elem_of_fmap in Ha as (c & -> & Hc).
      apply elem_of_director_names in Hd as (m & Hm & Hjob & ->).
      rewrite !elem_of_cons in Hop.
      destruct Hop as [?|[?|?%elem_of_nil]]; try done; simplify_eq; by constructor.
  - intros Hedge.
    destruct Hedge as [| |g Hg|g Hg|c Hc|c Hc|m Hm|m Hm|c m Hc Hm Hjob|c m Hc Hm Hjob].
    + right. left. set_solver.
    + right. left. set_solver.
    + do 2 right. left. exists g. set_solver.
    + do 2 right. left. exists g. set_solver.
    + do 3 right. left. exists c. set_solver.
    + do 3 right. left. exists c. set_solver.
    + do 4 right. left. exists m. set_solver.
    + do 4 right. left. exists m. set_solver.
    + do 5 right. exists (normalize c), (normalize m.2).
      split_and!; [by apply list_elem_of_fmap_2| |set_solver].
      apply elem_of_director_names. by exists m.
    + do 5 right. exists (normalize c), (normalize m.2).
      split_and!; [by apply list_elem_of_fmap_2| |set_solver].
      apply elem_of_director_names. by exists m.
Qed.

Lemma edge_in_table_ops df u v rel :
  AddEdge u v rel ∈ table_ops df ↔
  ∃ r p, r ∈ df ∧ parse r = Some p ∧ row_edge (r_id r) p u v rel.
Proof.
  unfold table_ops. rewrite list_elem_of_bind. split.
  - intros (r & Hop & Hr). unfold row_ops in Hop.
    destruct (parse r) as [p|] eqn:Hp; [|by apply elem_of_nil in Hop].
    exists r, p. split_and!; [done..|]. by apply edge_in_parsed_ops.
  - intros (r & p & Hr & Hp & Hedge). exists r. split; [|done].
    unfold row_ops. rewrite Hp. by apply edge_in_parsed_ops.
Qed.

Lemma built_edges joined mg u v rel :
  MovieGraph_init joined = Ok mg →
  Graph.has_rel_edge (mg_Graph mg) u v rel ↔
  ∃ r p, r ∈ movies_df mg ∧ parse r = Some p ∧ row_edge (r_id r) p u v rel.
Proof.
  intros Hinit. apply MovieGraph_init_run in Hinit as (-> & _).
  by rewrite has_rel_edge_relations, relations_between_run, relations_between_empty,
    app_nil_l, elem_of_op_relations, edge_in_table_ops.
Qed.


Lemma classify_job_cases job :
  classify_job job ∈ ["director"; "producer"; "writer"; "supporting_crew"].
Proof.
  unfold classify_job. case_bool_decide as Hjob; set_solver.
Qed.

Lemma row_edge_inverse id p u v rel :
  row_edge id p u v rel →
  ∃ back, inverse_relation rel = Some back ∧ row_edge id p v u back.
Proof.
  assert (∀ m : string * string,
            inverse_relation ("MOVIE_HAS_" +:+ Str.upper (crew_job m))
              = Some (crew_relation (crew_job m))
            ∧ inverse_relation (crew_relation (crew_job m))
              = Some ("MOVIE_HAS_" +:+ Str.upper (crew_job m))) as Hcrew.
  { intros m. pose proof (classify_job_cases (normalize m.1)) as Hjob. unfold crew_job.
    rewrite !elem_of_cons in Hjob.
    destruct Hjob as [->|[->|[->|[->|?%elem_of_nil]]]]; [by vm_compute..|done]. }
  intros Hedge.
  destruct Hedge as [| |g Hg|g Hg|c Hc|c Hc|m Hm|m Hm|c m Hc Hm Hjob|c m Hc Hm Hjob].
  - eexists. split; [reflexivity|constructor].
  - eexists. split; [reflexivity|constructor].
  - eexists. split; [reflexivity|by constructor].
  - eexists. split; [reflexivity|by constructor].
  - eexists. split; [reflexivity|by constructor].
  - eexists. split; [reflexivity|by constructor].
  - eexists. split; [apply Hcrew|by constructor].
  - eexists. split; [apply Hcrew|by constructor].
  - eexists. split; [reflexivity|by constructor].
  - eexists. split; [reflexivity|by constructor].
Qed.

(** X3. Every edge of a built graph has a twin in the opposite direction
    that bears the inverse relation name; in particular every relation
    name is one of the sixteen. *)
Theorem built_graph_edges_paired (joined : list Row) (mg : MovieGraph) (u v : node)
    (rel : string) :
  MovieGraph_init joined = Ok mg →
  Graph.has_rel_edge (mg_Graph mg) u v rel →
  ∃ back, inverse_relation rel = Some back
          ∧ Graph.has_rel_edge (mg_Graph mg) v u back.
Proof.
  intros Hinit Hedge. apply (built_edges _ _ _ _ _ Hinit) in Hedge as (r & p & Hr & Hp & Hedge).
  apply row_edge_inverse in Hedge as (back & Hback & Hedge).
  exists back. split; [done|]. apply (built_edges _ _ _ _ _ Hinit). by exists r, p.
Qed.

(** ** The nodes of a built graph *)

Lemma node_in_parsed_ops r p n kw :
  AddNode n kw ∈ parsed_ops r p ↔
  (n = NInt (r_id r) ∧ kw = movie_attrs r (p_title p) (p_release_date p) (p_keywords p))
  ∨ (n = NStr (year_of (p_release_date p)) ∧ kw = label_attrs "date")
  ∨ (∃ g, g ∈ p_genres p ∧ n = NStr (normalize g) ∧ kw = label_attrs "genre").
Proof.
  unfold parsed_ops.
  rewrite elem_of_cons, !elem_of_app, !list_elem_of_bind, elem_of_pairings_ops.
  unfold release_ops, genre_ops, actor_ops, crew_ops, pairing_ops.
  split.
  - intros [?|[Hop|[(g & Hop & Hg)|[(c & Hop & Hc)|[(m & Hop & Hm)|
             (a & d & Ha & Hd & Hop)]]]]]; [left; by simplify_eq|..].
    + rewrite !elem_of_cons in Hop.
      destruct Hop as [?|[?|[?|?%elem_of_nil]]]; try done; simplify_eq. by right; left.
    + rewrite !elem_of_cons in Hop.
      destruct Hop as [?|[?|[?|?%elem_of_nil]]]; try done; simplify_eq.
      right; right. by exists g.
    + rewrite !elem_of_cons in Hop. by destruct Hop as [?|[?|[?|?%elem_of_nil]]].
    + rewrite !elem_of_cons in Hop. by destruct Hop as [?|[?|[?|?%elem_of_nil]]].
    + rewrite !elem_of_cons in Hop. by destruct Hop as [?|[?|?%elem_of_nil]].
  - intros [[-> ->]|[[-> ->]|(g & Hg & -> & ->)]].
    + by left.
    + right. left. set_solver.
    + do 2 right. left. exists g. set_solver.
Qed.

Lemma person_in_parsed_ops r p name job :
  AddPerson name job ∈ parsed_ops r p ↔ row_credit p name job.
Proof.
  unfold parsed_ops.
  rewrite elem_of_cons, !elem_of_app, !list_elem_of_bind, elem_of_pairings_ops.
  unfold release_ops, genre_ops, actor_ops, crew_ops, pairing_ops.
  split.
  - intros [?|[Hop|[(g & Hop & Hg)|[(c & Hop & Hc)|[(m & Hop & Hm)|
             (a & d & Ha & Hd & Hop)]]]]]; [done|..].
    + rewrite !elem_of_cons in Hop. by destruct Hop as [?|[?|[?|?%elem_of_nil]]].
    + rewrite !elem_of_cons in Hop. by destruct Hop as [?|[?|[?|?%elem_of_nil]]].
    + rewrite !elem_of_cons in Hop.
      destruct Hop as [?|[?|[?|?%elem_of_nil]]]; try done; simplify_eq. by constructor.
    + rewrite !elem_of_cons in Hop.
      destruct Hop as [?|[?|[?|?%elem_of_nil]]]; try done; simplify_eq. by constructor.
    + rewrite !elem_of_cons in Hop. by destruct Hop as [?|[?|?%elem_of_nil]].
  - intros [c Hc|m Hm].
    + do 3 right. left. exists c. set_solver.
    + do 4 right. left. exists m. set_solver.
Qed.

Lemma target_in_parsed_ops r p n :
  (∃ op, op ∈ parsed_ops r p ∧ op_target op = Some n) ↔ row_node (r_id r) p n.
Proof.
  split.
  - intros ([n' kw|name job|u v rel] & Hop & Ht); [| |done].
    + injection Ht as ->.
      apply node_in_parsed_ops in Hop as [[-> _]|[[-> _]|(g & Hg & -> & _)]];
        by constructor.
    + injection Ht as <-. apply person_in_parsed_ops in Hop as [c Hc|m Hm]; by constructor.
  - intros [| |g Hg|c Hc|m Hm].
    + eexists (AddNode _ _). split; [apply node_in_parsed_ops; by left|done].
    + eexists (AddNode _ _). split; [apply node_in_parsed_ops; by right; left|done].
    + eexists (AddNode _ _). split; [apply node_in_parsed_ops; right; right; by exists g|done].
    + eexists (AddPerson _ _). split; [apply person_in_parsed_ops; by constructor|done].
    + eexists (AddPerson _ _). split; [apply person_in_parsed_ops; by constructor|done].
Qed.

Lemma elem_of_table_ops op df :
  op ∈ table_ops df ↔ ∃ r p, r ∈ df ∧ parse r = Some p ∧ op ∈ parsed_ops r p.
Proof.
  unfold table_ops. rewrite list_elem_of_bind. split.
  - intros (r & Hop & Hr). unfold row_ops in Hop.
    destruct (parse r) as [p|] eqn:Hp; [|by apply elem_of_nil in Hop]. by exists r, p.
  - intros (r & p & Hr & Hp & Hop). exists r. split; [|done]. unfold row_ops. by rewrite Hp.
Qed.

Lemma op_attrs_other x a op : op_target op ≠ Some x → op_attrs x a op = a.
Proof.
  destruct op as [n kw|name job|u v rel]; simpl; intros Hne; [| |done].
  - rewrite bool_decide_eq_false_2; [done|]. by intros ->.
  - rewrite bool_decide_eq_false_2; [done|]. by intros ->.
Qed.

Lemma op_attrs_target x a op : op_target op = Some x → is_Some (op_attrs x a op).
Proof.
  destruct op as [n kw|name job|u v rel]; simpl; intros Ht; [| |done].
  - injection Ht as ->. by rewrite bool_decide_eq_true_2.
  - injection Ht as <-. by rewrite bool_decide_eq_true_2.
Qed.

Lemma op_attrs_keeps x a op : is_Some a → is_Some (op_attrs x a op).
Proof.
  intros Ha. destruct op as [n kw|name job|u v rel]; simpl; [| |done];
    by case_bool_decide.
Qed.


Lemma foldl_op_attrs_is_Some x ops : ∀ a,
  is_Some (foldl (op_attrs x) a ops) ↔
  is_Some a ∨ ∃ op, op ∈ ops ∧ op_target op = Some x.
Proof.
  induction ops as [|op ops IH]; intros a; simpl.
  - split; [by left|]. intros [?|(op & ?%elem_of_nil & _)]; done.
  - rewrite IH. split.
    + intros [Ha|(op' & Hop' & Ht)].
      * destruct (decide (op_target op = Some x)) as [Ht|Ht].
        -- right. exists op. split; [left|done].
        -- rewrite op_attrs_other in Ha by done. by left.
      * right. exists op'. split; [by right|done].
    + intros [Ha|(op' & Hop' & Ht)].
      * left. by apply op_attrs_keeps.
      * apply elem_of_cons in Hop' as [->|Hop'].
        -- left. by apply op_attrs_target.
        -- right. by exists op'.
Qed.

Lemma built_node_attrs joined mg x :
  MovieGraph_init joined = Ok mg →
  alist_get x (g_node (mg_Graph mg)) = foldl (op_attrs x) None (table_ops (movies_df mg)).
Proof.
  intros Hinit. apply MovieGraph_init_run in Hinit as (HG & _ & Hok & _).
  rewrite HG at 1. by rewrite node_attrs_run; [|apply good_empty|].
Qed.

Lemma built_nodes joined mg n :
  MovieGraph_init joined = Ok mg →
  Graph.has_node (mg_Graph mg) n = true ↔
  ∃ r p, r ∈ movies_df mg ∧ parse r = Some p ∧ row_node (r_id r) p n.
Proof.
  intros Hinit. rewrite has_node_get, (built_node_attrs _ _ _ Hinit), foldl_op_attrs_is_Some.
  split.
  - intros [[? [=]]|(op & Hop & Ht)].
    apply elem_of_table_ops in Hop as (r & p & Hr & Hp & Hop).
    exists r, p. split_and!; [done..|]. apply target_in_parsed_ops. by exists op.
  - intros (r & p & Hr & Hp & Hn). right.
    apply target_in_parsed_ops in Hn as (op & Hop & Ht). exists op. split; [|done].
    apply elem_of_table_ops. by exists r, p.
Qed.


(** ** Labels and attributes *)

Lemma parsed_ops_typed r p : Forall op_typed (parsed_ops r p).
Proof.
  apply Forall_forall. intros [n kw|name job|u v rel] Hop; [|done..].
  apply node_in_parsed_ops in Hop as [[-> ->]|[[-> ->]|(g & Hg & -> & ->)]]; simpl; auto.
Qed.

Lemma table_ops_typed df : Forall op_typed (table_ops df).
Proof.
  apply Forall_forall. intros op Hop.
  apply elem_of_table_ops in Hop as (r & p & _ & _ & Hop).
  pose proof (parsed_ops_typed r p) as Ht. rewrite Forall_forall in Ht. by apply Ht.
Qed.

Lemma op_attrs_label_fits x a op :
  op_typed op → from_option (label_fits x) True a →
  from_option (label_fits x) True (op_attrs x a op).
Proof.
  destruct op as [n kw|name job|u v rel]; simpl; [| |done].
  - case_bool_decide as Hx; [|done]. subst x. destruct n as [z|s]; simpl.
    + intros [Hl Hr] _. destruct a as [a|]; simpl; [|done]. by rewrite Hl.
    + intros [->| ->] _; destruct a as [a|]; simpl; auto.
  - case_bool_decide as Hx; [|done]. subst x. intros _.
    destruct a as [a|]; simpl; auto.
Qed.

Lemma built_labels joined mg n a :
  MovieGraph_init joined = Ok mg →
  alist_get n (g_node (mg_Graph mg)) = Some a → label_fits n a.
Proof.
  intros Hinit Ha. rewrite (built_node_attrs _ _ _ Hinit) in Ha.
  assert (from_option (label_fits n) True
            (foldl (op_attrs n) None (table_ops (movies_df mg)))) as Hfit.
  { apply (foldl_inv_Forall _ (from_option (label_fits n) True) _ _
             (table_ops_typed (movies_df mg))); [|done].
    intros a' op Hop. by apply op_attrs_label_fits. }
  by rewrite Ha in Hfit.
Qed.

(** X5. In a built graph the type of a node identifier fixes its kind:
    every integer node is labelled movie, and every string node is
    labelled date, genre or person. *)
Theorem built_graph_labels_by_type (joined : list Row) (mg : MovieGraph) (n : node)
    (a : attrs) :
  MovieGraph_init joined = Ok mg →
  alist_get n (g_node (mg_Graph mg)) = Some a →
  match n with
  | NInt _ => label a = Some "movie"
  | NStr _ => label a = Some "date" ∨ label a = Some "genre" ∨ label a = Some "person"
  end.
Proof. intros Hinit Ha. by apply (built_labels _ _ _ _ Hinit Ha). Qed.







(** ** Roles *)




(** * Queries on a built graph *)

(** ** Connectivity in both directions *)

Lemma has_edge_rel G u v :
  Graph.wf G → Graph.has_edge G u v ↔ ∃ rel, Graph.has_rel_edge G u v rel.
Proof.
  intros Hwf. rewrite has_edge_adj. destruct (wf_adj G u Hwf) as [Hnd Hall]. split.
  - intros (kd & Hin & Hne). destruct kd as [|rel kd]; [done|].
    exists rel. apply has_rel_edge_adj. exists (rel :: kd). split; [|left].
    by apply alist_get_elem_NoDup.
  - intros (rel & Hrel). apply has_rel_edge_adj in Hrel as (kd & Hget & Hrel).
    exists kd. split; [by apply alist_get_Some_elem|]. by intros ->; apply elem_of_nil in Hrel.
Qed.

Lemma connected_sym G :
  (∀ u v, Graph.has_edge G u v → Graph.has_edge G v u) →
  ∀ a b, Graph.connected G a b → Graph.connected G b a.
Proof.
  intros Hsym a b (rest & Hwalk & Hlast). revert a Hwalk Hlast.
  induction rest as [|v rest IH]; intros a Hwalk Hlast.
  - injection Hlast as ->. apply connected_refl.
  - destruct Hwalk as [Hedge Hwalk]. eapply connected_step_r; [|by apply Hsym].
    apply IH; [done|]. by rewrite last_cons_cons in Hlast.
Qed.

Lemma built_has_edge_sym joined mg u v :
  MovieGraph_init joined = Ok mg →
  Graph.has_edge (mg_Graph mg) u v → Graph.has_edge (mg_Graph mg) v u.
Proof.
  intros Hinit. pose proof (MovieGraph_init_wf _ _ Hinit) as Hwf.
  rewrite !has_edge_rel by done. intros (rel & Hrel).
  apply (built_edges _ _ _ _ _ Hinit) in Hrel as (r & p & Hr & Hp & Hedge).
  apply row_edge_inverse in Hedge as (back & _ & Hedge).
  exists back. apply (built_edges _ _ _ _ _ Hinit). by exists r, p.
Qed.

(** X8. In a built graph every edge can be walked back: there is an
    edge from [u] to [v] exactly when there is one from [v] to [u], and
    some directed walk leads from [a] to [b] exactly when one leads from
    [b] to [a]. *)
Theorem built_graph_connected_sym (joined : list Row) (mg : MovieGraph) (a b : node) :
  MovieGraph_init joined = Ok mg →
  (Graph.has_edge (mg_Graph mg) a b ↔ Graph.has_edge (mg_Graph mg) b a)
  ∧ (Graph.connected (mg_Graph mg) a b ↔ Graph.connected (mg_Graph mg) b a).
Proof.
  intros Hinit. split.
  - split; by apply built_has_edge_sym with joined.
  - split; apply connected_sym; intros u v; by apply built_has_edge_sym with joined.
Qed.

(** ** The relation filter of [query_entity_graph] *)

Lemma neighbor_list_filter (nbrs : adjacency) relation :
  neighbor_list nbrs relation
  = filter (λ nb, relation_passes relation (nb_relation nb) = true) (neighbor_list nbrs None).
Proof.
  unfold neighbor_list. induction nbrs as [|[v kd] nbrs IH]; [done|].
  rewrite !bind_cons, filter_app, <- IH. f_equal. clear IH. cbn [fst snd].
  induction kd as [|rel kd IH]; [done|].
  rewrite !bind_cons, filter_app, <- IH. f_equal. clear IH.
  unfold relation_passes. cbn [truthy andb].
  destruct (truthy relation); simpl.
  - case_bool_decide as Hrel; simpl.
    + rewrite filter_cons_True; [done|]. simpl. by rewrite bool_decide_eq_true_2.
    + rewrite filter_cons_False; [done|]. simpl. by rewrite bool_decide_eq_false_2.
  - by rewrite filter_cons_True.
Qed.

Lemma entity_records_filter G relation ids :
  match entity_records G None ids with
  | Ok recs => entity_records G relation ids = Ok (restrict_neighbors relation <$> recs)
  | Raise e => entity_records G relation ids = Raise e
  end.
Proof.
  induction ids as [|eid ids IH]; [done|]. simpl.
  destruct (negb (Graph.has_node G eid)); [done|].
  destruct (Graph.node_data G eid) as [nd|]; [|done].
  destruct (getitem G eid) as [nbrs|]; [|done]. cbn [mbind result_bind].
  destruct (entity_records G None ids) as [recs|e]; rewrite IH; [|done].
  cbn [mbind result_bind]. rewrite fmap_cons. unfold restrict_neighbors at 2. simpl.
  by rewrite <- neighbor_list_filter.
Qed.

(** X9. The relation filter of [query_entity_graph] only cuts neighbour
    lists: a filtered query answers with the same entities, labels and
    attributes as the unfiltered one, each with the neighbours of the
    asked relation, and raises exactly when the unfiltered one does.  The
    empty string filters nothing. *)
Theorem query_entity_graph_relation_filter (mg : MovieGraph) (entity : pyval)
    (relation : option string) :
  match query_entity_graph mg entity None with
  | Ok recs =>
      query_entity_graph mg entity relation = Ok (restrict_neighbors relation <$> recs)
  | Raise e => query_entity_graph mg entity relation = Raise e
  end
  ∧ query_entity_graph mg entity (Some "") = query_entity_graph mg entity None.
Proof.
  assert (∀ relation,
    match query_entity_graph mg entity None with
    | Ok recs =>
        query_entity_graph mg entity relation = Ok (restrict_neighbors relation <$> recs)
    | Raise e => query_entity_graph mg entity relation = Raise e
    end) as Hfilter.
  { intros rel. unfold query_entity_graph.
    destruct (entity_ids mg entity) as [ids|e]; [|done]. cbn [mbind result_bind].
    apply entity_records_filter. }
  split; [apply Hfilter|].
  specialize (Hfilter (Some "")).
  destruct (query_entity_graph mg entity None) as [recs|e]; [|done].
  rewrite Hfilter. f_equal. rewrite <- (list_fmap_id recs) at 2.
  apply list_fmap_ext. intros i [n l a nbs] _. unfold restrict_neighbors. simpl. f_equal.
  induction nbs as [|nb nbs IH]; [done|]. rewrite filter_cons_True by done. by rewrite IH.
Qed.

(** ** Looking a film up by id and by title *)


Lemma getitem_present G n :
  good G → Graph.has_node G n = true → getitem G n = Ok (Graph.adj G n).
Proof.
  intros Hg Hn. apply (good_present G n Hg) in Hn.
  unfold getitem, Graph.adj. unfold alist_mem in Hn.
  apply bool_decide_eq_true in Hn as [nbrs ->]. done.
Qed.

Lemma entity_records_present G relation ids :
  good G → Forall (λ n, Graph.has_node G n = true) ids →
  entity_records G relation ids = Ok (record_of G relation <$> ids).
Proof.
  intros Hg. induction 1 as [|n ids Hn Hids IH]; [done|].
  simpl. rewrite Hn, (getitem_present G n Hg Hn), IH. simpl.
  destruct (has_node_data G n Hn) as (a & Ha & ->). cbn [mbind result_bind].
  unfold record_of at 2. by rewrite Ha.
Qed.





Lemma built_row_node joined mg r :
  MovieGraph_init joined = Ok mg → r ∈ movies_df mg →
  (∃ p, parse r = Some p) ∧ Graph.has_node (mg_Graph mg) (NInt (r_id r)) = true.
Proof.
  intros Hinit Hr. pose proof (MovieGraph_init_run _ _ Hinit) as (_ & Hall & _).
  rewrite Forall_forall in Hall. destruct (Hall r Hr) as [p Hp].
  split; [by exists p|]. apply (built_nodes _ _ _ Hinit). exists r, p.
  split_and!; [done..|constructor].
Qed.



(** ** [filter_movies_by_person] against the table *)



(** ** Looking a node up by name *)



(** * Shortest paths are shortest *)

(** ** Steps and walks *)

Lemma steps_S_l (R : node → node → Prop) n x y z :
  R x y → steps R n y z → steps R (S n) x z.
Proof.
  intros Hxy Hst. induction Hst as [y|n y z1 z2 Hst IH Hz].
  - apply steps_S with x; [constructor|done].
  - apply steps_S with z1; [by apply IH|done].
Qed.

Lemma steps_flip (R R' : node → node → Prop) n a b :
  (∀ x y, R x y → R' y x) → steps R n a b → steps R' n b a.
Proof.
  intros Hflip. induction 1 as [x|n x y z Hst IH Hz]; [constructor|].
  eapply steps_S_l; [by apply Hflip|done].
Qed.

Lemma steps_split (R : node → node → Prop) n a b (i : nat) :
  steps R n a b → (i ≤ n)%nat → ∃ x, steps R i a x ∧ steps R (n - i) x b.
Proof.
  intros Hst. revert i. induction Hst as [x|n x y z Hst IH Hz]; intros i Hi.
  - replace i with 0%nat by lia. exists x. split; constructor.
  - destruct (decide (i = S n)) as [->|Hne].
    + exists z. rewrite Nat.sub_diag. split; [by apply steps_S with y|constructor].
    + destruct (IH i) as (m & H1 & H2); [lia|]. exists m. split; [done|].
      replace (S n - i)%nat with (S (n - i)) by lia. by apply steps_S with y.
Qed.

Lemma has_edge_predecessor G u v : Graph.has_edge G u v → u ∈ NX.predecessors G v.
Proof.
  intros (kd & Hin & _)%has_edge_adj. apply adj_elem in Hin as (nbrs & Hu & Hv).
  unfold NX.predecessors. apply list_elem_of_fmap. exists (u, nbrs). split; [done|].
  apply list_elem_of_filter. split; [|done]. simpl.
  apply list_elem_of_fmap. by exists (v, kd).
Qed.

Lemma walk_steps G a rest b :
  Graph.walk G a rest → last (a :: rest) = Some b →
  steps (via (Graph.neighbors G)) (length rest) a b.
Proof.
  revert a. induction rest as [|v rest IH]; intros a Hw Hlast.
  - injection Hlast as ->. constructor.
  - destruct Hw as [He Hw]. rewrite last_cons_cons in Hlast.
    eapply steps_S_l; [by apply has_edge_neighbor|by apply IH].
Qed.

Lemma walk_snoc G a rest b c :
  Graph.walk G a rest → last (a :: rest) = Some b → Graph.has_edge G b c →
  Graph.walk G a (rest ++ [c]) ∧ last (a :: rest ++ [c]) = Some c.
Proof.
  revert a. induction rest as [|v rest IH]; intros a Hw Hlast He.
  - injection Hlast as ->. by split.
  - destruct Hw as [Hav Hw]. rewrite last_cons_cons in Hlast.
    destruct (IH v Hw Hlast He) as [Hw' Hlast']. split; [by split|].
    by rewrite <- app_comm_cons, last_cons_cons.
Qed.

Lemma walk_app G a rest1 b rest2 c :
  Graph.walk G a rest1 → last (a :: rest1) = Some b →
  Graph.walk G b rest2 → last (b :: rest2) = Some c →
  Graph.walk G a (rest1 ++ rest2) ∧ last (a :: rest1 ++ rest2) = Some c.
Proof.
  revert a. induction rest1 as [|v rest1 IH]; intros a Hw1 Hl1 Hw2 Hl2.
  - injection Hl1 as ->. by split.
  - destruct Hw1 as [Hav Hw1]. rewrite last_cons_cons in Hl1.
    destruct (IH v Hw1 Hl1 Hw2 Hl2) as [Hw Hl]. split; [by split|].
    by rewrite <- app_comm_cons, last_cons_cons.
Qed.

(** ** Link dictionaries as search trees *)

Lemma chain_head (d : NX.links) x l : chain d x l → ∃ l', l = x :: l'.
Proof. destruct 1; by eexists. Qed.

Lemma chain_dom (d : NX.links) x l : chain d x l → ∀ y, y ∈ l → y ∈ dom d.
Proof.
  induction 1 as [x Hx|x y l Hx Hc IH]; intros z Hz.
  - apply list_elem_of_singleton in Hz as ->. by apply elem_of_dom.
  - apply elem_of_cons in Hz as [->|Hz]; [by apply elem_of_dom|by apply IH].
Qed.

Lemma chain_unique (d : NX.links) x l : chain d x l → ∀ l', chain d x l' → l' = l.
Proof.
  induction 1 as [x Hx|x y l Hx Hc IH]; intros l' Hc'.
  - inversion Hc' as [x' Hx'|x' y' l'' Hx' Hc'']; simplify_eq. done.
  - inversion Hc' as [x' Hx'|x' y' l'' Hx' Hc'']; simplify_eq. f_equal. by apply IH.
Qed.

Lemma shallow_dom k (d : NX.links) x : shallow k d x → x ∈ dom d.
Proof.
  intros (l & Hc & _). destruct (chain_head _ _ _ Hc) as [l' ->].
  apply (chain_dom _ _ _ Hc). left.
Qed.

Lemma shallow_mono k k' (d : NX.links) x : (k ≤ k')%nat → shallow k d x → shallow k' d x.
Proof. intros Hk (l & Hc & Hl). exists l. split; [done|lia]. Qed.

Lemma shallow_insert k (d : NX.links) x w o :
  shallow k d x → w ∉ dom d → shallow k (<[w:=o]> d) x.
Proof.
  intros (l & Hc & Hl) Hw. exists l. split; [|done].
  apply chain_insert; [done|by apply chain_dom with x|done].
Qed.

Lemma shallow_new k (d : NX.links) v w :
  shallow k d v → w ∉ dom d → shallow (S k) (<[w:=Some v]> d) w.
Proof.
  intros (l & Hc & Hl) Hw. exists (w :: l). split; [|simpl; lia].
  apply chain_step with v; [apply lookup_insert_eq|].
  apply chain_insert; [done|by apply chain_dom with v|done].
Qed.

Lemma search_tree_insert nbrs root (d : NX.links) v w :
  search_tree nbrs root d → v ∈ dom d → w ∈ nbrs v → w ∉ dom d →
  search_tree nbrs root (<[w:=Some v]> d).
Proof.
  intros (Hroot & Honly & Hlink) Hv Hw Hnew.
  assert (root ≠ w) as Hne by (intros <-; apply Hnew; by apply elem_of_dom).
  split_and!.
  - by rewrite lookup_insert_ne.
  - intros x. destruct (decide (x = w)) as [->|Hx].
    + by rewrite lookup_insert_eq.
    + rewrite lookup_insert_ne by done. apply Honly.
  - intros x y. rewrite dom_insert_L. destruct (decide (x = w)) as [->|Hx].
    + rewrite lookup_insert_eq. intros [= <-]. split; [set_solver|done].
    + rewrite lookup_insert_ne by done. intros Hxy.
      destruct (Hlink x y Hxy). split; [set_solver|done].
Qed.

(** ** One level, with depths *)

Lemma level_state_insert nbrs root k other (d : NX.links) v pend fringe w :
  level_state nbrs root k other d (v :: pend) fringe →
  w ∈ nbrs v → w ∉ dom d → w ∉ dom other →
  level_state nbrs root k other (<[w:=Some v]> d) (v :: pend) (fringe ++ [w]).
Proof.
  intros (Htree & Hall & Hpend & Hfr & Hclosed & Hnear & Hdisj) Hw Hnew Hoth.
  assert (v ∈ dom d) as Hv by (eapply shallow_dom, Hpend; left).
  split_and!.
  - by apply search_tree_insert.
  - intros x. rewrite dom_insert_L, elem_of_union, elem_of_singleton. intros [->|Hx].
    + apply shallow_new; [|done]. apply Hpend. left.
    + apply shallow_insert; auto.
  - intros u Hu. apply shallow_insert; auto.
  - intros u. rewrite elem_of_app, list_elem_of_singleton, dom_insert_L. set_solver.
  - intros y u. rewrite dom_insert_L, elem_of_app, list_elem_of_singleton.
    intros Hy Hyp Hyf Hu.
    assert (y ∈ dom d) as Hyd by set_solver.
    assert (u ∈ dom d); [|set_solver]. apply (Hclosed y); auto.
  - intros n x Hn Hst. destruct (Hnear n x Hn Hst) as [Hx Hxf].
    rewrite dom_insert_L, elem_of_app, list_elem_of_singleton. split; [set_solver|].
    intros [?| ->]; done.
  - rewrite dom_insert_L. set_solver.
Qed.

Lemma level_state_expanded nbrs root k other (d : NX.links) v pend fringe :
  level_state nbrs root k other d (v :: pend) fringe →
  (∀ w, w ∈ nbrs v → w ∈ dom d) →
  level_state nbrs root k other d pend fringe.
Proof.
  intros (Htree & Hall & Hpend & Hfr & Hclosed & Hnear & Hdisj) Hv.
  split_and!; try done.
  - intros u Hu. apply Hpend. by right.
  - intros y w Hy Hyp Hyf Hw. destruct (decide (y = v)) as [->|Hne]; [by apply Hv|].
    apply (Hclosed y); [done| |done|done]. rewrite not_elem_of_cons. by split.
Qed.

Lemma expand_node_state nbrs root k other v pend rest : ∀ (d : NX.links) fringe,
  level_state nbrs root k other d (v :: pend) fringe →
  (∀ w, w ∈ rest → w ∈ nbrs v) →
  (∀ w, w ∈ nbrs v → w ∈ rest ∨ w ∈ dom d) →
  level_post nbrs root k other d pend (NX.expand_node v rest d other fringe).
Proof.
  induction rest as [|w rest IH]; intros d fringe Hst Hrest Hseen; simpl.
  - split; [|done]. apply (level_state_expanded _ _ _ _ _ v); [done|].
    intros w Hw. destruct (Hseen w Hw) as [?%elem_of_nil|?]; done.
  - assert (w ∈ nbrs v) as Hw by (apply Hrest; left).
    assert (∀ u, u ∈ rest → u ∈ nbrs v) as Hrest' by (intros u Hu; apply Hrest; by right).
    case_bool_decide as Hin.
    + assert (w ∈ dom d) as Hwd by (by apply elem_of_dom).
      case_bool_decide as Hoth.
      * destruct Hst as (_ & _ & _ & _ & _ & _ & Hdisj).
        apply elem_of_dom in Hoth. set_solver.
      * apply IH; [done|done|]. intros u Hu.
        destruct (Hseen u Hu) as [[->|?]%elem_of_cons|?]; auto.
    + assert (w ∉ dom d) as Hnew by (by rewrite elem_of_dom).
      assert (v ∈ dom d) as Hv.
      { destruct Hst as (_ & _ & Hpend & _). eapply shallow_dom, Hpend. left. }
      case_bool_decide as Hoth.
      * destruct Hst as (Htree & _ & Hpend & _). split_and!.
        -- by apply search_tree_insert.
        -- apply shallow_new; [|done]. apply Hpend. left.
        -- by apply elem_of_dom.
      * assert (w ∉ dom other) as Hnoth by (by rewrite elem_of_dom).
        pose proof (level_state_insert _ _ _ _ _ _ _ _ _ Hst Hw Hnew Hnoth) as Hst'.
        specialize (IH _ _ Hst' Hrest').
        destruct (NX.expand_node v rest _ other _) as [d' w'|d' fringe']; simpl in *.
        -- apply IH. intros u Hu. rewrite dom_insert_L.
           destruct (Hseen u Hu) as [[->|?]%elem_of_cons|?]; [right|left|right]; set_solver.
        -- destruct IH as [Hst'' Hsub].
           { intros u Hu. rewrite dom_insert_L.
             destruct (Hseen u Hu) as [[->|?]%elem_of_cons|?]; [right|left|right]; set_solver. }
           split; [done|]. rewrite dom_insert_L in Hsub. set_solver.
Qed.

Lemma expand_level_state nbrs root k other pend : ∀ (d : NX.links) fringe,
  level_state nbrs root k other d pend fringe →
  level_post nbrs root k other d [] (NX.expand_level nbrs pend d other fringe).
Proof.
  induction pend as [|v pend IH]; intros d fringe Hst; simpl; [done|].
  pose proof (expand_node_state nbrs root k other v pend (nbrs v) d fringe Hst) as Hn.
  destruct (NX.expand_node v (nbrs v) d other fringe) as [d1 w|d1 fringe1]; simpl in *.
  - apply Hn; auto.
  - destruct Hn as [Hst1 Hsub1]; [auto..|].
    specialize (IH d1 fringe1 Hst1).
    destruct (NX.expand_level nbrs pend d1 other fringe1) as [d' w|d' fringe']; simpl in *;
      [done|].
    destruct IH as [Hst' Hsub']. split; [done|set_solver].
Qed.

Lemma round_of_level nbrs root k other (d : NX.links) fringe :
  level_state nbrs root k other d [] fringe → round_state nbrs root (S k) other d fringe.
Proof.
  intros (Htree & Hall & Hpend & Hfr & Hclosed & Hnear & Hdisj). split; [|done].
  split_and!; try done.
  - intros x Hx. eapply shallow_mono; [|by apply Hall]. lia.
  - intros v Hv. auto.
  - intros w Hw. by apply elem_of_nil in Hw.
  - intros y w Hy Hyp _ Hw. apply (Hclosed y); [done| |done|done]. apply not_elem_of_nil.
  - intros n x Hn Hst. split; [|apply not_elem_of_nil].
    destruct Hst as [x|n x y z Hst Hz].
    + apply (Hnear 0%nat); [lia|constructor].
    + destruct (Hnear n y) as [Hy Hyf]; [lia|done|].
      apply (Hclosed y); [done|apply not_elem_of_nil|done|done].
Qed.

Lemma round_state_other nbrs root k other other' (d : NX.links) fringe :
  round_state nbrs root k other d fringe → dom d ## dom other' →
  round_state nbrs root k other' d fringe.
Proof.
  intros [(Htree & Hall & Hpend & Hfr & Hclosed & Hnear & Hdisj) Hsh] Hdisj'.
  split; [|done]. by split_and!.
Qed.

Lemma round_state_singleton nbrs (s t : node) :
  s ≠ t → round_state nbrs s 0 {[ t := None ]} {[ s := None ]} [s].
Proof.
  intros Hne.
  assert (∀ x, x ∈ dom ({[ s := None ]} : NX.links) → shallow 0 {[ s := None ]} x) as Hsh.
  { intros x. rewrite dom_singleton_L, elem_of_singleton. intros ->.
    exists [s]. split; [|done]. apply chain_root, lookup_singleton_eq. }
  split; [|done]. split_and!.
  - split_and!.
    + apply lookup_singleton_eq.
    + intros x Hx. destruct (decide (x = s)) as [->|Hxs]; [done|].
      by rewrite lookup_singleton_ne in Hx.
    + intros x y Hx. destruct (decide (x = s)) as [->|Hxs].
      * by rewrite lookup_singleton_eq in Hx.
      * by rewrite lookup_singleton_ne in Hx.
  - intros x Hx. eapply shallow_mono; [|by apply Hsh]. lia.
  - intros v Hv. apply list_elem_of_singleton in Hv as ->. apply Hsh.
    rewrite dom_singleton_L. set_solver.
  - intros w Hw. by apply elem_of_nil in Hw.
  - intros y w. rewrite dom_singleton_L, elem_of_singleton. intros -> Hy. destruct Hy. left.
  - intros n x Hn Hst. split; [|apply not_elem_of_nil].
    replace n with 0%nat in Hst by lia. inversion Hst; subst.
    rewrite dom_singleton_L. set_solver.
  - rewrite !dom_singleton_L. set_solver.
Qed.

Lemma round_closed nbrs root k other (d : NX.links) n x :
  round_state nbrs root k other d [] → steps (via nbrs) n root x → x ∈ dom d.
Proof.
  intros [(Htree & _ & _ & _ & Hclosed & _) _] Hst.
  assert (root ∈ dom d) as Hroot by (destruct Htree as [Hroot _]; by apply elem_of_dom).
  clear Htree. induction Hst as [x|n x y z Hst IH Hz]; [done|].
  apply (Hclosed y); [by apply IH|apply not_elem_of_nil..|done].
Qed.

(** ** The search loop, with depths *)

Lemma neighbors_predecessors G u v :
  Graph.wf G → v ∈ Graph.neighbors G u ↔ u ∈ NX.predecessors G v.
Proof.
  intros Hwf. split.
  - intros Hv. by apply has_edge_predecessor, wf_neighbor_edge.
  - intros Hu. by apply has_edge_neighbor, wf_predecessor_edge.
Qed.

Lemma round_lower_bound G s t kf kr (pred succ : NX.links) ff rf n :
  Graph.wf G →
  round_state (Graph.neighbors G) s kf succ pred ff →
  round_state (NX.predecessors G) t kr pred succ rf →
  steps (via (Graph.neighbors G)) n s t → (kf + kr < n)%nat.
Proof.
  intros Hwf [Hf _] [Hr _] Hst. destruct (decide (kf + kr < n)%nat) as [|Hn]; [done|].
  exfalso. destruct (steps_split _ n s t (n `min` kf)%nat Hst) as (x & H1 & H2); [lia|].
  apply (steps_flip _ (via (NX.predecessors G))) in H2.
  2:{ intros a b Hab. by apply neighbors_predecessors. }
  destruct Hf as (_ & _ & _ & _ & _ & Hnearf & Hdisj).
  destruct Hr as (_ & _ & _ & _ & _ & Hnearr & _).
  destruct (Hnearf (n `min` kf)%nat x ltac:(lia) H1) as [Hxf _].
  destruct (Hnearr (n - n `min` kf)%nat x ltac:(lia) H2) as [Hxr _]. set_solver.
Qed.

Lemma search_loop_shortest G s t :
  Graph.wf G → ∀ fuel kf kr (pred succ : NX.links) ff rf r,
  round_state (Graph.neighbors G) s kf succ pred ff →
  round_state (NX.predecessors G) t kr pred succ rf →
  NX.search_loop fuel G pred succ ff rf = Some r → search_result G s t r.
Proof.
  intros Hwf. induction fuel as [|fuel IH]; intros kf kr pred succ ff rf r Hf Hr; [done|].
  simpl. destruct (bool_decide (ff ≠ []) && bool_decide (rf ≠ [])) eqn:Hne.
  - clear Hne. case_bool_decide as Hcmp.
    + pose proof (expand_level_state _ _ _ _ ff pred [] (proj1 Hf)) as Hlev.
      destruct (NX.expand_level _ ff pred succ []) as [pred' w|pred' ff']; simpl in Hlev.
      * intros Hr'; simplify_eq; simpl. destruct Hlev as (Htree & (lb & Hlb & Hlen) & Hw).
        destruct Hr as [Hrl Hrs]. destruct (Hrs w Hw) as (lr & Hlr & Hlenr).
        split_and!; [done|apply Hrl|]. exists lb, lr. split_and!; [done..|].
        intros n Hst.
        pose proof (round_lower_bound G s t kf kr pred succ ff rf n Hwf Hf
                      (conj Hrl Hrs) Hst). lia.
      * destruct Hlev as [Hlev Hsub]. apply (IH (S kf) kr).
        -- by apply round_of_level.
        -- eapply round_state_other; [done|].
           destruct Hlev as (_ & _ & _ & _ & _ & _ & Hdisj). set_solver.
    + pose proof (expand_level_state _ _ _ _ rf succ [] (proj1 Hr)) as Hlev.
      destruct (NX.expand_level _ rf succ pred []) as [succ' w|succ' rf']; simpl in Hlev.
      * intros Hr'; simplify_eq; simpl. destruct Hlev as (Htree & (lr & Hlr & Hlen) & Hw).
        destruct Hf as [Hfl Hfs]. destruct (Hfs w Hw) as (lb & Hlb & Hlenb).
        split_and!; [apply Hfl|done|]. exists lb, lr. split_and!; [done..|].
        intros n Hst.
        pose proof (round_lower_bound G s t kf kr pred succ ff rf n Hwf
                      (conj Hfl Hfs) Hr Hst). lia.
      * destruct Hlev as [Hlev Hsub]. apply (IH kf (S kr)).
        -- eapply round_state_other; [done|].
           destruct Hlev as (_ & _ & _ & _ & _ & _ & Hdisj). set_solver.
        -- by apply round_of_level.
  - intros Hr'; simplify_eq; simpl. split; [done|]. intros n Hst.
    assert (dom pred ## dom succ) as Hdisj by apply Hf.
    assert (s ∈ dom pred) as Hs by (apply elem_of_dom; by rewrite (proj1 (proj1 (proj1 Hf)))).
    assert (t ∈ dom succ) as Ht by (apply elem_of_dom; by rewrite (proj1 (proj1 (proj1 Hr)))).
    apply andb_false_iff in Hne as [Hff|Hrf].
    + apply bool_decide_eq_false in Hff. apply dec_stable in Hff. subst ff.
      pose proof (round_closed _ _ _ _ _ _ _ Hf Hst). set_solver.
    + apply bool_decide_eq_false in Hrf. apply dec_stable in Hrf. subst rf.
      apply (steps_flip _ (via (NX.predecessors G))) in Hst.
      2:{ intros a b Hab. by apply neighbors_predecessors. }
      pose proof (round_closed _ _ _ _ _ _ _ Hr Hst). set_solver.
Qed.

Lemma search_tree_singleton nbrs (s : node) : search_tree nbrs s {[ s := None ]}.
Proof.
  split_and!.
  - apply lookup_singleton_eq.
  - intros x Hx. destruct (decide (x = s)) as [->|Hxs]; [done|].
    by rewrite lookup_singleton_ne in Hx.
  - intros x y Hx. destruct (decide (x = s)) as [->|Hxs].
    + by rewrite lookup_singleton_eq in Hx.
    + by rewrite lookup_singleton_ne in Hx.
Qed.

Lemma bidirectional_shortest G s t r :
  Graph.wf G → NX.bidirectional_pred_succ G s t = Some r → search_result G s t r.
Proof.
  intros Hwf. unfold NX.bidirectional_pred_succ. case_bool_decide as Heq.
  - subst t. intros [= <-]. simpl. split_and!; [apply search_tree_singleton..|].
    exists [s], [s]. split_and!; [apply chain_root, lookup_singleton_eq..|].
    intros n _. simpl. lia.
  - apply (search_loop_shortest G s t Hwf _ 0%nat 0%nat).
    + apply round_state_singleton. by intros ->.
    + by apply round_state_singleton.
Qed.

(** ** The path that is assembled *)

Lemma follow_inv fuel : ∀ (d : NX.links) x l,
  NX.follow fuel d (Some x) = Some (Ok l) → chain d x l.
Proof.
  induction fuel as [|fuel IH]; intros d x l; [done|]. simpl.
  destruct (d !! x) as [[y|]|] eqn:Hx; [| |done].
  - destruct (NX.follow fuel d (Some y)) as [[l'|]|] eqn:Hy; [|done..].
    intros [= <-]. apply chain_step with y; [done|]. by apply IH.
  - rewrite follow_None. intros [= <-]. by apply chain_root.
Qed.

Lemma tree_walk_back G s (pred : NX.links) w lb :
  Graph.wf G → search_tree (Graph.neighbors G) s pred → chain pred w lb →
  ∃ rest, reverse lb = s :: rest ∧ Graph.walk G s rest ∧ last (s :: rest) = Some w
          ∧ length lb = S (length rest).
Proof.
  intros Hwf (_ & Honly & Hlink). induction 1 as [x Hx|x y l Hx Hc IH].
  - apply Honly in Hx as ->. by exists [].
  - destruct IH as (rest & Hrev & Hw & Hlast & Hlen).
    destruct (Hlink x y Hx) as [_ Hxy]. apply (wf_neighbor_edge _ _ _ Hwf) in Hxy.
    destruct (walk_snoc _ _ _ _ _ Hw Hlast Hxy) as [Hw' Hlast'].
    exists (rest ++ [x]). rewrite reverse_cons, Hrev. split_and!; [done..|].
    rewrite length_app. simpl. lia.
Qed.

Lemma tree_walk_on G t (succ : NX.links) w lr :
  Graph.wf G → search_tree (NX.predecessors G) t succ → chain succ w lr →
  ∃ rest, lr = w :: rest ∧ Graph.walk G w rest ∧ last (w :: rest) = Some t.
Proof.
  intros Hwf (_ & Honly & Hlink). induction 1 as [x Hx|x y l Hx Hc IH].
  - apply Honly in Hx as ->. by exists [].
  - destruct IH as (rest & -> & Hw & Hlast).
    destruct (Hlink x y Hx) as [_ Hxy]. apply (wf_predecessor_edge _ _ _ Hwf) in Hxy.
    exists (y :: rest). split_and!; [done|by split|by rewrite last_cons_cons].
Qed.

Lemma shortest_path_result G s t :
  Graph.wf G → Graph.has_node G s = true → Graph.has_node G t = true →
  (∃ rest, NX.shortest_path G s t = Some (Ok (s :: rest)) ∧ shortest_walk G s t rest)
  ∨ (NX.shortest_path G s t = Some (Raise NetworkXNoPath) ∧ ¬ Graph.connected G s t).
Proof.
  intros Hwf Hs Ht. unfold NX.shortest_path. rewrite Hs, Ht. cbn [negb].
  destruct (bidirectional_spec G s t (λ _, True) (λ _, True)) as (r & Hr & Hpost); try done.
  pose proof (bidirectional_shortest G s t r Hwf Hr) as Hres. rewrite Hr.
  destruct r as [[[pred succ] w]|e]; simpl in Hres.
  - left. destruct Hpost as (Hrp & Hrs & Hwp & Hws & _ & _).
    destruct Hres as (Htp & Hts & lb & lr & Hlb & Hlr & Hmin).
    destruct (tree_walk_back _ _ _ _ _ Hwf Htp Hlb) as (rest1 & Hrev & Hw1 & Hl1 & Hlen1).
    destruct (tree_walk_on _ _ _ _ _ Hwf Hts Hlr) as (rest2 & -> & Hw2 & Hl2).
    destruct (walk_app _ _ _ _ _ _ Hw1 Hl1 Hw2 Hl2) as [Hw Hl].
    exists (rest1 ++ rest2). split.
    + cbn -[NX.follow size].
      destruct (follow_rooted pred w Hrp Hwp) as [back Hback]. rewrite Hback.
      pose proof (chain_unique _ _ _ Hlb _ (follow_inv _ _ _ _ Hback)) as ->.
      destruct (Hrs w Hws) as (l & Hc & Hnd & Hdom).
      pose proof (chain_unique _ _ _ Hlr _ Hc) as ->.
      pose proof (chain_length succ _ Hnd Hdom) as Hlen.
      inversion Hc as [x Hx|x y l' Hx Hc']; subst; rewrite Hx.
      * by rewrite follow_None, Hrev.
      * rewrite (follow_chain succ y _ Hc'); [by rewrite Hrev|]. simpl in Hlen. lia.
    + split_and!; [done..|]. intros rest' Hw' Hl'.
      pose proof (Hmin _ (walk_steps _ _ _ _ Hw' Hl')) as Hn.
      rewrite length_app. simpl in Hn. lia.
  - right. destruct Hres as [-> Hnone]. split; [done|].
    intros (rest & Hw & Hl). by apply (Hnone _ (walk_steps _ _ _ _ Hw Hl)).
Qed.

Lemma describe_hops_nodes G u rest :
  Graph.has_node G u = true → Forall (λ n, Graph.has_node G n = true) rest →
  Graph.walk G u rest →
  ∃ pd, describe_hops G (u :: rest) = Ok pd ∧ hn_node <$> pd = u :: rest.
Proof.
  revert u. induction rest as [|v rest IH]; intros u Hu Hall Hw.
  - destruct (has_node_data _ _ Hu) as (a & _ & Ha). simpl. rewrite Ha. simpl.
    by eexists.
  - destruct Hw as [He Hw]. apply Forall_cons in Hall as [Hv Hall].
    destruct (IH v Hv Hall Hw) as (pd & Hpd & Hnodes).
    destruct (has_node_data _ _ Hu) as (a & _ & Ha).
    destruct (has_edge_relations _ _ _ He) as [kd Hkd].
    change (describe_hops G (u :: v :: rest))
      with (node_info ← Graph.node_data G u;
            relations ← relation_to_next G u (v :: rest);
            path_with_rels ← describe_hops G (v :: rest);
            Ok ({| hn_node := u; hn_label := label node_info;
                   hn_title := field_if node_info "movie" title;
                   hn_relation_to_next := relations |} :: path_with_rels)).
    unfold relation_to_next. rewrite Ha, Hkd, Hpd. simpl. eexists. split; [done|].
    csimpl. by rewrite Hnodes.
Qed.

Lemma shortest_path_query_spec mg (A B : node) :
  Graph.wf (mg_Graph mg) →
  Graph.has_node (mg_Graph mg) A = true → Graph.has_node (mg_Graph mg) B = true →
  (∃ pd rest, shortest_path_query mg (node_val A) (node_val B) = Some (Ok (Some pd))
              ∧ hn_node <$> pd = A :: rest
              ∧ shortest_walk (mg_Graph mg) A B rest)
  ∨ (shortest_path_query mg (node_val A) (node_val B) = Some (Ok None)
     ∧ ¬ Graph.connected (mg_Graph mg) A B).
Proof.
  intros Hwf HA HB. unfold shortest_path_query.
  rewrite !contains_node_val, HA, HB, !as_node_val. cbn [negb orb].
  destruct (shortest_path_result _ A B Hwf HA HB) as [(rest & -> & Hsw)|[-> Hnc]].
  - left. destruct (Hsw) as (Hw & _ & _).
    destruct (describe_hops_nodes _ A rest HA (walk_has_node _ _ _ Hwf Hw) Hw)
      as (pd & Hpd & Hnodes).
    exists pd, rest. cbn [mbind result_bind try_except]. rewrite Hpd. by split_and!.
  - right. by split.
Qed.

(** X13. [shortest_path_query] is correct on every well-formed graph: for
    two nodes of the graph it returns either a path whose nodes form a
    walk from the source to the target that no walk from the source to the
    target undercuts in length, or [None], and [None] exactly when no
    directed walk leads from the source to the target.  It never raises
    and the library search never runs out of fuel. *)
Theorem shortest_path_query_shortest (mg : MovieGraph) (A B : node) :
  Graph.wf (mg_Graph mg) →
  Graph.has_node (mg_Graph mg) A = true → Graph.has_node (mg_Graph mg) B = true →
  (∃ pd rest, shortest_path_query mg (node_val A) (node_val B) = Some (Ok (Some pd))
              ∧ hn_node <$> pd = A :: rest
              ∧ shortest_walk (mg_Graph mg) A B rest)
  ∨ (shortest_path_query mg (node_val A) (node_val B) = Some (Ok None)
     ∧ ¬ Graph.connected (mg_Graph mg) A B).
Proof. apply shortest_path_query_spec. Qed.

(** ** Distances in a built graph *)

Lemma steps_walk G n a b :
  Graph.wf G → steps (via (Graph.neighbors G)) n a b →
  ∃ rest, Graph.walk G a rest ∧ last (a :: rest) = Some b ∧ length rest = n.
Proof.
  intros Hwf. induction 1 as [x|n x y z Hst IH Hz].
  - by exists [].
  - destruct IH as (rest & Hw & Hl & Hlen).
    apply (wf_neighbor_edge _ _ _ Hwf) in Hz.
    destruct (walk_snoc _ _ _ _ _ Hw Hl Hz) as [Hw' Hl'].
    exists (rest ++ [z]). split_and!; [done..|]. rewrite length_app. simpl. lia.
Qed.

Lemma built_walk_back joined mg a b rest :
  MovieGraph_init joined = Ok mg →
  Graph.walk (mg_Graph mg) a rest → last (a :: rest) = Some b →
  ∃ rest', Graph.walk (mg_Graph mg) b rest' ∧ last (b :: rest') = Some a
           ∧ length rest' = length rest.
Proof.
  intros Hinit Hw Hl. pose proof (MovieGraph_init_wf _ _ Hinit) as Hwf.
  apply steps_walk; [done|].
  apply (steps_flip (via (Graph.neighbors (mg_Graph mg)))); [|by apply walk_steps].
  intros x y Hxy. unfold via in *.
  apply has_edge_neighbor, (built_has_edge_sym _ _ _ _ Hinit). by apply wf_neighbor_edge.
Qed.

Lemma built_shortest_walk_sym joined mg a b rest rest' :
  MovieGraph_init joined = Ok mg →
  shortest_walk (mg_Graph mg) a b rest → shortest_walk (mg_Graph mg) b a rest' →
  length rest = length rest'.
Proof.
  intros Hinit (Hw & Hl & Hmin) (Hw' & Hl' & Hmin').
  destruct (built_walk_back _ _ _ _ _ Hinit Hw Hl) as (back & Hwb & Hlb & Hlenb).
  destruct (built_walk_back _ _ _ _ _ Hinit Hw' Hl') as (back' & Hwb' & Hlb' & Hlenb').
  pose proof (Hmin _ Hwb' Hlb'). pose proof (Hmin' _ Hwb Hlb). lia.
Qed.

(** X14. In a built graph the two directions of [shortest_path_query]
    agree: between two nodes of the graph either both queries return a
    path, and the two paths have the same number of nodes, or both return
    [None]. *)
Theorem shortest_path_query_both_ways (joined : list Row) (mg : MovieGraph) (A B : node) :
  MovieGraph_init joined = Ok mg →
  Graph.has_node (mg_Graph mg) A = true → Graph.has_node (mg_Graph mg) B = true →
  (∃ pd pd', shortest_path_query mg (node_val A) (node_val B) = Some (Ok (Some pd))
             ∧ shortest_path_query mg (node_val B) (node_val A) = Some (Ok (Some pd'))
             ∧ length pd = length pd')
  ∨ (shortest_path_query mg (node_val A) (node_val B) = Some (Ok None)
     ∧ shortest_path_query mg (node_val B) (node_val A) = Some (Ok None)).
Proof.
  intros Hinit HA HB. pose proof (MovieGraph_init_wf _ _ Hinit) as Hwf.
  destruct (shortest_path_query_spec mg A B Hwf HA HB)
    as [(pd & rest & Hq & Hnodes & Hsw)|[Hq Hnc]];
  destruct (shortest_path_query_spec mg B A Hwf HB HA)
    as [(pd' & rest' & Hq' & Hnodes' & Hsw')|[Hq' Hnc']].
  - left. exists pd, pd'. split_and!; [done..|].
    rewrite <- (length_fmap hn_node pd), <- (length_fmap hn_node pd'), Hnodes, Hnodes'.
    simpl. f_equal. by eapply built_shortest_walk_sym.
  - exfalso. apply Hnc'. destruct Hsw as (Hw & Hl & _).
    apply (connected_sym _ (λ u v, built_has_edge_sym joined mg u v Hinit)). by exists rest.
  - exfalso. apply Hnc. destruct Hsw' as (Hw & Hl & _).
    apply (connected_sym _ (λ u v, built_has_edge_sym joined mg u v Hinit)). by exists rest'.
  - by right.
Qed.

(** ** The hop descriptors of [shortest_path_query] *)



(** * The vector index *)

(** ** The batches of [build_index] *)

Lemma num_batches_bounds n batch_size count :
  0 < batch_size → num_batches n batch_size = Ok count →
  (Z.of_nat count - 1) * batch_size < Z.of_nat n ≤ Z.of_nat count * batch_size.
Proof.
  intros Hpos. unfold num_batches. rewrite bool_decide_eq_false_2 by lia. intros [= <-].
  pose proof (Z.div_mod (- Z.of_nat n) batch_size ltac:(lia)) as Hdm.
  pose proof (Z.mod_pos_bound (- Z.of_nat n) batch_size Hpos) as Hmod.
  assert (0 ≤ - ((- Z.of_nat n) `div` batch_size)) by nia.
  rewrite Z2Nat.id by done. nia.
Qed.

Lemma batches_take {A} (texts : list A) batch_size (k : nat) :
  0 < batch_size →
  concat (batches texts batch_size k) = take (Z.to_nat (Z.of_nat k * batch_size)) texts.
Proof.
  intros Hpos. unfold batches. induction k as [|k IH]; [done|].
  rewrite seq_S, fmap_app, concat_app, IH. simpl. rewrite app_nil_r.
  unfold slice.
  destruct (decide (Z.of_nat (S k) * batch_size ≤ Z.of_nat (length texts))) as [Hle|Hgt].
  - rewrite Z.min_l by lia. rewrite take_take_drop. f_equal. lia.
  - rewrite Z.min_r by lia. rewrite Nat2Z.id.
    destruct (decide (Z.of_nat k * batch_size ≤ Z.of_nat (length texts))) as [Hk|Hk].
    + rewrite take_take_drop.
      rewrite (take_ge texts (Z.to_nat (Z.of_nat (S k) * batch_size))) by lia.
      rewrite take_ge; [done|lia].
    + rewrite (take_ge texts (Z.to_nat (Z.of_nat k * batch_size))) by lia.
      rewrite (take_ge texts (Z.to_nat (Z.of_nat (S k) * batch_size))) by lia.
      rewrite drop_ge by lia. by rewrite take_nil, app_nil_r.
Qed.

Lemma foldlM_fmap {A B C} (f : A → C → result A) (g : B → C) (l : list B) : ∀ a,
  foldlM f a (g <$> l) = foldlM (λ a b, f a (g b)) a l.
Proof.
  induction l as [|b l IH]; intros a; [done|]. csimpl.
  destruct (f a (g b)) as [a'|e]; [|done]. cbn [mbind result_bind]. apply IH.
Qed.

Lemma zip_seq_batches {A} (texts : list A) batch_size count :
  zip (seq 0 count) (batches texts batch_size count)
  = (λ batch_idx, (batch_idx,
       slice texts (batch_bounds (length texts) batch_size batch_idx).1
                   (batch_bounds (length texts) batch_size batch_idx).2)) <$> seq 0 count.
Proof.
  unfold batches. generalize (seq 0 count). intros l.
  induction l as [|b l IH]; [done|]. rewrite !fmap_cons.
  change (zip (b :: l) (?x :: ?y)) with ((b, x) :: zip l y). by rewrite IH.
Qed.

(** X18. The batches of [build_index] cut the texts up without gap or
    overlap: the loop encodes the slices [texts[start_idx:end_idx]] one
    after the other, and for every positive batch size these slices, put
    end to end, are the texts, each holding at least one text and at most
    [batch_size]; for a batch size of zero the batch count raises before
    anything is embedded. *)
Theorem build_index_batches_partition {matrix vectors : Type}
    (encode_batch : list pyval → result vectors)
    (assign_rows : matrix → nat → nat → vectors → result matrix)
    (texts : list pyval) (batch_size : Z) (count : nat) (embeddings : matrix) :
  0 < batch_size → num_batches (length texts) batch_size = Ok count →
  encode_batches encode_batch assign_rows texts batch_size count embeddings
  = foldlM (λ embeddings (b : nat * list pyval),
              batch_embeddings ← encode_batch b.2;
              assign_rows embeddings (batch_bounds (length texts) batch_size b.1).1
                (batch_bounds (length texts) batch_size b.1).2 batch_embeddings)
      embeddings (zip (seq 0 count) (batches texts batch_size count))
  ∧ concat (batches texts batch_size count) = texts
  ∧ Forall (λ batch, (0 < length batch ≤ Z.to_nat batch_size)%nat)
      (batches texts batch_size count)
  ∧ num_batches (length texts) 0 = Raise (OtherError "ZeroDivisionError").
Proof.
  intros Hpos Hcount. pose proof (num_batches_bounds _ _ _ Hpos Hcount) as Hb.
  split_and!; [| | |done].
  - rewrite zip_seq_batches, foldlM_fmap. done.
  - rewrite batches_take by done. apply take_ge. lia.
  - unfold batches. rewrite Forall_fmap. apply Forall_forall. intros b Hin.
    apply elem_of_seq in Hin as [_ Hin]. simpl in Hin. simpl. unfold slice.
    rewrite length_take, length_drop. nia.
Qed.

(** ** The texts that are embedded *)



(** ** Searching an index that was just built *)

Lemma enumerate_ids_prefix (movie_ids : list Z) (n : nat) (i : Z) :
  (n ≤ length movie_ids)%nat →
  foldl (λ (m : gmap Z Z) (i : nat),
           match movie_ids !! i with
           | Some movie_id => <[Z.of_nat i := movie_id]> m
           | None => m
           end) ∅ (seq 0 n) !! i
  = if bool_decide (0 ≤ i < Z.of_nat n) then movie_ids !! Z.to_nat i else None.
Proof.
  induction n as [|n IH]; intros Hn.
  - simpl. rewrite lookup_empty. by rewrite bool_decide_eq_false_2 by lia.
  - rewrite seq_S, foldl_app. simpl.
    destruct (lookup_lt_is_Some_2 movie_ids n ltac:(lia)) as [x Hx]. rewrite Hx.
    destruct (decide (i = Z.of_nat n)) as [->|Hne].
    + rewrite lookup_insert_eq, bool_decide_eq_true_2 by lia. by rewrite Nat2Z.id.
    + rewrite lookup_insert_ne by done. rewrite IH by lia.
      by rewrite (bool_decide_ext (0 ≤ i < Z.of_nat n) (0 ≤ i < Z.of_nat (S n))) by lia.
Qed.

Lemma enumerate_ids_lookup (movie_ids : list Z) (i : Z) :
  enumerate_ids movie_ids !! i
  = if bool_decide (0 ≤ i) then movie_ids !! Z.to_nat i else None.
Proof.
  unfold enumerate_ids. rewrite enumerate_ids_prefix by done.
  case_bool_decide as H1; case_bool_decide as H2; try done; try lia.
  symmetry. apply lookup_ge_None. lia.
Qed.

Lemma traverse_lookup {A B} (f : A → option B) (l : list A) :
  traverse (λ i, from_option Ok (Raise KeyError) (f i)) l
  = from_option Ok (Raise KeyError) (mapM f l).
Proof.
  induction l as [|x l IH]; [done|]. csimpl. rewrite IH.
  destruct (f x) as [y|]; [|done]. simpl. by destruct (mapM f l).
Qed.

Lemma enumerate_ids_label_row (df : list Row) (i : Z) :
  enumerate_ids (r_id <$> df) !! i = r_id <$> label_row df i.
Proof.
  rewrite enumerate_ids_lookup. unfold label_row. rewrite list_lookup_fmap.
  by case_bool_decide.
Qed.

Lemma mapM_label_ids (df : list Row) (labels : list Z) :
  mapM (λ i, enumerate_ids (r_id <$> df) !! i) labels
  = fmap (M := option) (fmap (M := list) r_id) (mapM (label_row df) labels).
Proof.
  destruct (mapM (label_row df) labels) as [rows|] eqn:Hrows; simpl.
  - apply mapM_Some_2. apply mapM_Some_1 in Hrows. apply Forall2_fmap_r.
    eapply Forall2_impl; [exact Hrows|]. intros i r Hi. simpl.
    by rewrite enumerate_ids_label_row, Hi.
  - apply mapM_None_2. apply mapM_None_1 in Hrows.
    eapply Exists_impl; [exact Hrows|]. intros i Hi. simpl in *.
    by rewrite enumerate_ids_label_row, Hi.
Qed.

Lemma rows_with_id_other (df : list Row) (id : Z) :
  id ∉ r_id <$> df → rows_with_id df id = [].
Proof.
  unfold rows_with_id. induction df as [|r0 df IH]; [done|].
  rewrite fmap_cons, not_elem_of_cons. intros [Hne Hid].
  rewrite filter_cons_False by done. by apply IH.
Qed.

Lemma rows_with_id_unique (df : list Row) r :
  NoDup (r_id <$> df) → r ∈ df → rows_with_id df (r_id r) = [r].
Proof.
  induction df as [|r0 df IH]; [by intros _ ?%elem_of_nil|].
  rewrite fmap_cons. intros [Hr0 Hnd]%NoDup_cons [->|Hr]%elem_of_cons.
  - unfold rows_with_id. rewrite filter_cons_True by done. f_equal.
    by apply rows_with_id_other.
  - unfold rows_with_id. rewrite filter_cons_False.
    + by apply IH.
    + intros Heq. apply Hr0. rewrite Heq. by apply list_elem_of_fmap_2.
Qed.

Lemma label_row_elem (df : list Row) i r : label_row df i = Some r → r ∈ df.
Proof.
  unfold label_row. case_bool_decide; [|done]. apply list_elem_of_lookup_2.
Qed.

Lemma found_rows (df : list Row) (rows : list Row) :
  NoDup (r_id <$> df) → Forall (λ r, r ∈ df) rows →
  mbind (M := list) (λ movie_id : Z,
    match rows_with_id df movie_id with
    | [] => []
    | r :: _ => [Item (json_of_row r)]
    end) (r_id <$> rows)
  = (λ r, Item (json_of_row r)) <$> rows.
Proof.
  intros Hnd. induction 1 as [|r rows Hr Hrows IH]; [done|].
  csimpl. by rewrite (rows_with_id_unique df r Hnd Hr), IH.
Qed.

Section built_index.
Context {embedding faiss_index matrix vectors : Type}.
Variable encode : string → result embedding.
Variable index_search : faiss_index → embedding → Z → result (list Z).
Variable get_dimension : result Z.
Variable zeros : nat → Z → result matrix.
Variable encode_batch : list pyval → result vectors.
Variable assign_rows : matrix → nat → nat → vectors → result matrix.
Variable make_index : matrix → result faiss_index.
Variable write_files : string → string → faiss_index → gmap Z Z → result unit.

Lemma build_index_state obj movies_df batch_size obj' :
  build_index get_dimension zeros encode_batch assign_rows make_index write_files
    obj movies_df batch_size = Ok obj' →
  ∃ ix, faiss_state obj'
        = {| index := Some ix; index_to_id := enumerate_ids (r_id <$> movies_df) |}.
Proof.
  unfold build_index.
  destruct (index_texts _ _) as [texts|]; [|done]. cbn [mbind result_bind].
  destruct get_dimension as [dim|]; [|done]. cbn [mbind result_bind].
  destruct (zeros _ _) as [m|]; [|done]. cbn [mbind result_bind].
  destruct (num_batches _ _) as [count|]; [|done]. cbn [mbind result_bind].
  destruct (encode_batches _ _ _ _ _ _) as [m'|]; [|done]. cbn [mbind result_bind].
  destruct (make_index _) as [ix|]; [|done]. cbn [mbind result_bind].
  destruct (write_files _ _ _ _) as [[]|]; [|done]. cbn [mbind result_bind].
  intros [= <-]. by exists ix.
Qed.

Lemma search_labels (st : MovieFAISS) df ix q k emb labels :
  st = {| index := Some ix; index_to_id := enumerate_ids (r_id <$> df) |} →
  encode ("query: " +:+ q) = Ok emb → index_search ix emb k = Ok labels →
  search encode index_search st q k
  = from_option (λ rows, Ok (r_id <$> rows)) (Raise KeyError) (mapM (label_row df) labels).
Proof.
  intros -> Hemb Hlabels. unfold search. rewrite Hemb. cbn [mbind result_bind index].
  rewrite Hlabels. cbn [mbind result_bind index_to_id].
  rewrite traverse_lookup, mapM_label_ids. by destruct (mapM (label_row df) labels).
Qed.

(** X19. A search on an index that [build_index] has just built over a
    table with distinct ids reads the table by position: when the FAISS
    labels are all positions of the table, [FaissTool.forward] returns the
    records of the rows at these positions, one per label and in label
    order; one label outside the table (such as the -1 that FAISS pads
    short results with) turns the whole answer into a [KeyError] record. *)
Theorem semantic_search_after_build (obj obj' : faiss_object) (df : list Row)
    (batch_size : Z) :
  build_index get_dimension zeros encode_batch assign_rows make_index write_files
    obj df batch_size = Ok obj' →
  NoDup (r_id <$> df) →
  ∃ ix, index (faiss_state obj') = Some ix
        ∧ ∀ q k emb labels,
            encode ("query: " +:+ q) = Ok emb → index_search ix emb k = Ok labels →
            FaissTool_forward encode index_search (faiss_state obj') df q k
            = match mapM (label_row df) labels with
              | Some rows => Ok ((λ r, Item (json_of_row r)) <$> rows)
              | None => Ok [ErrorRec KeyError]
              end.
Proof.
  intros Hbuild Hnd. destruct (build_index_state _ _ _ _ Hbuild) as [ix Hst].
  exists ix. split; [by rewrite Hst|]. intros q k emb labels Hemb Hlabels.
  unfold FaissTool_forward. rewrite (search_labels _ df ix q k emb labels Hst Hemb Hlabels).
  destruct (mapM (label_row df) labels) as [rows|] eqn:Hrows; [|done].
  simpl. f_equal. apply found_rows; [done|].
  apply mapM_Some_1 in Hrows.
  clear Hlabels. induction Hrows as [|i r labels' rows' Hi _ IH]; [constructor|].
  constructor; [by apply label_row_elem in Hi|done].
Qed.

End built_index.

(** ** The constructor of the agent *)

Section agent_facts.
Context {faiss_index matrix vectors : Type}.
Variable load_model : string → result unit.
Variable get_dimension : result Z.
Variable zeros : nat → Z → result matrix.
Variable encode_batch : list pyval → result vectors.
Variable assign_rows : matrix → nat → nat → vectors → result matrix.
Variable make_index : matrix → result faiss_index.
Variable write_files : string → string → faiss_index → gmap Z Z → result unit.
Variable path_exists : string → bool.
Variable read_index : string → result faiss_index.
Variable read_mapping : string → result (gmap Z Z).
Variable read_tables : result (list Row).
Variable make_tools_and_model : result unit.
Variable ntotal : faiss_index → Z.

Local Abbreviation agent_init :=
  (MovieRAGAgent_init load_model get_dimension zeros encode_batch assign_rows make_index
     write_files path_exists read_index read_mapping read_tables make_tools_and_model ntotal).

(** X20. An agent that has been constructed holds a graph and an index:
    whenever [MovieRAGAgent.__init__] returns, the graph is well-formed,
    the index is not [None], and after a construction with
    [update_embeddings] the label mapping numbers the rows of the agent's
    own table. *)
Theorem agent_holds_graph_and_index (embedding_model : string) (update_embeddings : bool)
    (a : agent) :
  agent_init embedding_model update_embeddings = Ok a →
  Graph.wf (mg_Graph (movie_graph a))
  ∧ (∃ ix, index (faiss_state (movie_faiss a)) = Some ix)
  ∧ (update_embeddings = true →
     index_to_id (faiss_state (movie_faiss a))
     = enumerate_ids (r_id <$> movies_df (movie_graph a))).
Proof.
  unfold MovieRAGAgent_init.
  destruct read_tables as [joined|]; [|done]. cbn [mbind result_bind].
  destruct (MovieGraph_init joined) as [mg|] eqn:Hmg; [|done]. cbn [mbind result_bind].
  destruct (MovieFAISS_init _ _ _ _ _ _) as [obj|]; [|done]. cbn [mbind result_bind].
  destruct update_embeddings.
  - destruct (build_index _ _ _ _ _ _ _ _ _) as [obj'|] eqn:Hbuild; [|done].
    cbn [mbind result_bind].
    destruct make_tools_and_model as [[]|]; [|done]. cbn [mbind result_bind].
    destruct (build_index_state _ _ _ _ _ _ _ _ _ _ Hbuild) as [ix Hst].
    rewrite Hst. simpl. intros [= <-]. simpl. rewrite Hst. simpl.
    split_and!; [by eapply MovieGraph_init_wf|by exists ix|done].
  - cbn [mbind result_bind].
    destruct make_tools_and_model as [[]|]; [|done]. cbn [mbind result_bind].
    destruct (index (faiss_state obj)) as [ix|] eqn:Hix; [|done]. simpl.
    intros [= <-]. simpl. split_and!; [by eapply MovieGraph_init_wf|by exists ix|done].
Qed.

(** X21. Without stored files the default construction fails: when
    [update_embeddings] is false and the index file or the mapping file of
    the embedding model does not exist, [MovieRAGAgent.__init__] raises
    (at the latest where it prints the size of the missing index). *)
Theorem agent_needs_index_files (embedding_model : string) :
  path_exists (split_last "/" embedding_model +:+ "_faiss_index.bin") = false
  ∨ path_exists (split_last "/" embedding_model +:+ "_mapping.pkl") = false →
  ∃ e, agent_init embedding_model false = Raise e.
Proof.
  intros Hfiles. unfold MovieRAGAgent_init.
  destruct read_tables as [joined|]; [|by eexists]. cbn [mbind result_bind].
  destruct (MovieGraph_init joined) as [mg|]; [|by eexists]. cbn [mbind result_bind].
  unfold MovieFAISS_init.
  destruct (load_model embedding_model) as [[]|]; [|by eexists]. cbn [mbind result_bind].
  unfold load. cbn [faiss_index_file id_mapping_file].
  assert (negb (path_exists (split_last "/" embedding_model +:+ "_faiss_index.bin"))
          || negb (path_exists (split_last "/" embedding_model +:+ "_mapping.pkl")) = true)
    as ->.
  { destruct Hfiles as [-> | ->]; [done|]. by rewrite orb_true_r. }
  cbn [mbind result_bind].
  destruct make_tools_and_model as [[]|]; [|by eexists]. cbn [mbind result_bind].
  by eexists.
Qed.

End agent_facts.

(** * More of the tool surface *)

(** ** [nearest_graph_tool] *)

(** X22. [NearestGraphTool.forward] on two nodes of a well-formed graph
    returns no error record but exactly the simple directed paths of at
    most three edges from the first node to the second, every path once
    per choice of parallel edges aside. *)
Theorem nearest_graph_tool_paths (mg : MovieGraph) (A B : node) :
  Graph.wf (mg_Graph mg) →
  Graph.has_node (mg_Graph mg) A = true → Graph.has_node (mg_Graph mg) B = true →
  ∃ result,
    NearestGraphTool_forward mg (node_val A) (node_val B) = Ok (Item <$> result)
    ∧ (∀ p, p ∈ map (fmap pn_node) result ↔
            Graph.simple_path (mg_Graph mg) A B p ∧ (length p ≤ 4)%nat)
    ∧ Forall (hops_read (mg_Graph mg)) result.
Proof.
  intros Hwf HA HB.
  destruct (all_paths_query_spec mg A B 3 Hwf HA HB) as (result & Hq & Hpaths & Hhops).
  exists result. unfold NearestGraphTool_forward. rewrite Hq. split_and!; [done| |done].
  intros p. rewrite Hpaths. apply and_iff_compat_l. lia.
Qed.

(** ** Where [query_graph] answers with an error *)

(** X23. On a built graph [QueryGraphTool.forward] answers every string
    with a list of entity records (possibly empty) and every integer that
    is a node with one record; its only error records are the
    [AttributeError] for an integer that is no node and for a value that
    is neither an integer nor a string. *)
Theorem query_graph_tool_errors (joined : list Row) (mg : MovieGraph) (entity : pyval)
    (relation : option string) :
  MovieGraph_init joined = Ok mg →
  match entity with
  | PStr s => ∃ recs, QueryGraphTool_forward mg entity relation = Ok (Item <$> recs)
  | PInt z =>
      if Graph.has_node (mg_Graph mg) (NInt z)
      then ∃ rec, QueryGraphTool_forward mg entity relation = Ok [Item rec]
      else QueryGraphTool_forward mg entity relation = Ok [ErrorRec AttributeError]
  | _ => QueryGraphTool_forward mg entity relation = Ok [ErrorRec AttributeError]
  end.
Proof.
  intros Hinit. pose proof (MovieGraph_init_run _ _ Hinit) as (_ & _ & _ & Hg).
  unfold QueryGraphTool_forward, query_entity_graph.
  destruct entity as [|z|s|l|d]; try done.
  - simpl. destruct (Graph.has_node (mg_Graph mg) (NInt z)) eqn:Hz; [|done].
    cbn [mbind result_bind].
    rewrite entity_records_present; [by eexists|done|by repeat constructor].
  - cbn [entity_ids]. case_bool_decide as Hm; cbn [negb].
    + destruct (Graph.has_node (mg_Graph mg) (NStr (normalize s))) eqn:Hs.
      * cbn [mbind result_bind].
        rewrite entity_records_present; [by eexists|done|by repeat constructor].
      * by exists [].
    + cbn [mbind result_bind]. rewrite entity_records_present; [by eexists|done|].
      rewrite Forall_fmap. apply Forall_forall. intros r Hr. simpl.
      apply (built_row_node _ _ _ Hinit). unfold title_matches in Hr.
      by apply list_elem_of_filter in Hr as [_ Hr].
Qed.

(** ** [filter_movies_by_person] on arbitrary values *)





(** ** When the construction succeeds *)

Lemma build_row_parses G r : is_Some (parse r) → ∃ G', build_row G r = Ok G'.
Proof.
  unfold parse, build_row. intros [p Hp].
  destruct (r_release_date r) as [d|]; [|done].
  destruct (r_title r) as [ttl|]; [|done].
  destruct (r_keywords r) as [kws|]; [|done].
  destruct (r_genres r) as [genres|]; [|done].
  destruct (r_cast r) as [cast|]; [|done].
  destruct (r_crew r) as [crew|]; [|done].
  cbn [from_option mbind result_bind].
  destruct (foldl (add_actor _) _ cast) as [Ga actors].
  destruct (foldl (add_crew _) _ crew) as [Gc directors]. by eexists.
Qed.

Lemma build_graph_parses df : ∀ G,
  Forall (λ r, is_Some (parse r)) df → ∃ G', build_graph G df = Ok G'.
Proof.
  induction df as [|r df IH]; intros G Hall; [by eexists|].
  apply Forall_cons in Hall as [Hr Hall]. unfold build_graph. cbn [foldlM].
  destruct (build_row_parses G r Hr) as [G1 ->]. cbn [mbind result_bind]. by apply IH.
Qed.

(** X25. One malformed cell fails the whole construction:
    [MovieGraph.__init__] returns if and only if every row it keeps has a
    title and well-formed keywords, genres, cast and crew cells; otherwise
    it raises and no graph is built. *)
Theorem MovieGraph_init_succeeds_iff (joined : list Row) :
  (∃ mg, MovieGraph_init joined = Ok mg)
  ↔ Forall (λ r, is_Some (parse r)) (dropna_release_date (drop_duplicates joined)).
Proof.
  unfold MovieGraph_init. split.
  - intros [mg Hinit].
    destruct (build_graph Graph.empty _) as [G|] eqn:Hb; [|done].
    by apply build_graph_run in Hb as [Hall _].
  - intros Hall. destruct (build_graph_parses _ Graph.empty Hall) as [G ->]. by eexists.
Qed.

(** ** Tools that never raise *)

(** X17. Four of the five graph and search tools hand every failure back
    as data: [QueryGraphTool.forward], [NearestGraphTool.forward] and
    [FaissTool.forward] return a list for every input, whatever the graph,
    the table and the index are, and [QueryMovieIDTool.forward] returns an
    answer for every Python value, hashable or not. *)
Theorem tools_never_raise {embedding faiss_index}
    (encode : string → result embedding)
    (index_search : faiss_index → embedding → Z → result (list Z))
    (mg : MovieGraph) (st : MovieFAISS) (df : list Row)
    (entity entity1 entity2 movie_id : pyval) (relation : option string)
    (retrieval_query : string) (top_k : Z) :
  (∃ out, QueryGraphTool_forward mg entity relation = Ok out)
  ∧ (∃ out, NearestGraphTool_forward mg entity1 entity2 = Ok out)
  ∧ (∃ out, FaissTool_forward encode index_search st df retrieval_query top_k = Ok out)
  ∧ (∃ out, QueryMovieIDTool_forward mg movie_id = Ok out).
Proof.
  split_and!.
  - apply QueryGraphTool_forward_total.
  - apply NearestGraphTool_forward_total.
  - apply FaissTool_forward_total.
  - apply QueryMovieIDTool_forward_total.
Qed.

(** * Instances on the sample graphs *)

(** ** The sample graphs *)

Lemma two_films_init :
  MovieGraph_init [Sample.test_film; Sample.second_film; Sample.test_film]
  = Ok Sample.two_films.
Proof. vm_compute. reflexivity. Defined.

Lemma two_films_wf : Graph.wf (mg_Graph Sample.two_films).
Proof. exact (MovieGraph_init_wf _ _ two_films_init). Defined.

Lemma apart_init :
  MovieGraph_init [Sample.test_film; Sample.other_film] = Ok Sample.apart.
Proof. vm_compute. reflexivity. Defined.

Lemma apart_wf : Graph.wf (mg_Graph Sample.apart).
Proof. exact (MovieGraph_init_wf _ _ apart_init). Defined.

(** A set of nodes closed under the edges keeps every walk inside. *)
Lemma connected_closed G (S : list node) a b :
  Forall (λ u, Forall (λ v, v ∈ S) (Graph.neighbors G u)) S →
  a ∈ S → Graph.connected G a b → b ∈ S.
Proof.
  intros Hclosed Ha (rest & Hw & Hl). revert a Ha Hw Hl.
  induction rest as [|v rest IH]; intros a Ha Hw Hl.
  - simpl in Hl. by simplify_eq.
  - destruct Hw as [He Hw]. apply (IH v); [|done|done].
    rewrite Forall_forall in Hclosed. specialize (Hclosed a Ha).
    rewrite Forall_forall in Hclosed. apply Hclosed. by apply has_edge_neighbor.
Qed.

Lemma apart_disconnected :
  ¬ Graph.connected (mg_Graph Sample.apart) (NStr "1999") (NStr "2005").
Proof.
  assert (NStr "2005" ∉ Sample.test_film_nodes) as Hnot
    by (refine (bool_decide_eq_false_1 _ _); vm_compute; reflexivity).
  intros Hc. apply Hnot. apply (connected_closed _ Sample.test_film_nodes) in Hc.
  - exact Hc.
  - refine (bool_decide_eq_true_1 _ _). vm_compute. reflexivity.
  - refine (bool_decide_eq_true_1 _ _). vm_compute. reflexivity.
Defined.

(** ** Instances *)

Lemma release_edge_invariant_witness :
  MovieGraph_init [Sample.test_film; Sample.second_film; Sample.test_film]
    = Ok Sample.two_films
  ∧ Graph.targets_by_relation (mg_Graph Sample.two_films) (NInt 1) MOVIE_RELEASED_ON
    = [NStr "1999"]
  ∧ (∀ r, r ∈ movies_df Sample.two_films →
       ∃ d, r_release_date r = Some d
         ∧ Graph.targets_by_relation (mg_Graph Sample.two_films) (NInt (r_id r))
             MOVIE_RELEASED_ON = [NStr (year_of d)]
         ∧ Graph.has_rel_edge (mg_Graph Sample.two_films) (NStr (year_of d))
             (NInt (r_id r)) YEAR_RELEASED_MOVIES)
  ∧ (∀ n, movie_labelled (mg_Graph Sample.two_films) n →
       ∃ r, r ∈ movies_df Sample.two_films ∧ n = NInt (r_id r)).
Proof.
  split; [exact two_films_init|]. split; [vm_compute; reflexivity|].
  exact (release_edge_invariant _ _ two_films_init).
Defined.

Lemma all_paths_query_exact_witness :
  Graph.wf (mg_Graph Sample.two_films)
  ∧ Graph.has_node (mg_Graph Sample.two_films) (NStr "jane doe") = true
  ∧ Graph.has_node (mg_Graph Sample.two_films) (NStr "john roe") = true
  ∧ ∃ result,
      all_paths_query Sample.two_films (PStr "jane doe") (PStr "john roe") 2 = Ok result
      ∧ ∀ p, p ∈ map (fmap pn_node) result ↔
             Graph.simple_path (mg_Graph Sample.two_films) (NStr "jane doe") (NStr "john roe") p
             ∧ Z.of_nat (length p) - 1 ≤ 2.
Proof.
  assert (Graph.has_node (mg_Graph Sample.two_films) (NStr "jane doe") = true) as HA
    by (vm_compute; reflexivity).
  assert (Graph.has_node (mg_Graph Sample.two_films) (NStr "john roe") = true) as HB
    by (vm_compute; reflexivity).
  split; [exact two_films_wf|]. split; [exact HA|]. split; [exact HB|].
  exact (all_paths_query_exact Sample.two_films (NStr "jane doe") (NStr "john roe") 2
           two_films_wf HA HB).
Defined.

Lemma filter_movies_by_person_sublist_witness :
  Graph.wf (mg_Graph Sample.two_films)
  ∧ ∃ out : list Z,
      FilterMoviesByPersonTool_forward Sample.two_films (PStr "Jane Doe")
        (PList (PInt <$> [2; 5; 1])) = Ok (PInt <$> out)
      ∧ out `sublist_of` [2; 5; 1]
      ∧ out = filter (λ i, NInt i ∈ person_movies_of Sample.two_films "Jane Doe") [2; 5; 1].
Proof.
  split; [exact two_films_wf|].
  exact (filter_movies_by_person_sublist Sample.two_films "Jane Doe" [2; 5; 1] two_films_wf).
Defined.

Lemma shortest_path_query_same_or_disconnected_witness :
  Graph.wf (mg_Graph Sample.apart)
  ∧ Graph.has_node (mg_Graph Sample.apart) (NStr "1999") = true
  ∧ Graph.has_node (mg_Graph Sample.apart) (NStr "2005") = true
  ∧ ¬ Graph.connected (mg_Graph Sample.apart) (NStr "1999") (NStr "2005")
  ∧ (∃ d, shortest_path_query Sample.apart (PStr "1999") (PStr "1999") = Some (Ok (Some [d]))
          ∧ hn_node d = NStr "1999" ∧ hn_relation_to_next d = None)
  ∧ shortest_path_query Sample.apart (PStr "1999") (PStr "2005") = Some (Ok None).
Proof.
  assert (Graph.has_node (mg_Graph Sample.apart) (NStr "1999") = true) as HA
    by (vm_compute; reflexivity).
  assert (Graph.has_node (mg_Graph Sample.apart) (NStr "2005") = true) as HB
    by (vm_compute; reflexivity).
  split; [exact apart_wf|]. split; [exact HA|]. split; [exact HB|].
  split; [exact apart_disconnected|].
  destruct (shortest_path_query_same_or_disconnected Sample.apart (NStr "1999") (NStr "2005")
              apart_wf HA HB) as [Hsame Hdis].
  split; [exact Hsame|exact (Hdis apart_disconnected)].
Defined.

Lemma filter_movies_by_person_any_label_witness :
  Graph.wf (mg_Graph Sample.two_films)
  ∧ Graph.has_node (mg_Graph Sample.two_films) (NStr (normalize "Action ")) = true
  ∧ (∃ a, alist_get (NStr "action") (g_node (mg_Graph Sample.two_films)) = Some a
          ∧ label a = Some "genre")
  ∧ FilterMoviesByPersonTool_forward Sample.two_films (PStr "Action ")
      (PList (PInt <$> [2; 5; 1]))
    = Ok (PInt <$> filter (λ i, NInt i ∈ Graph.movie_set (mg_Graph Sample.two_films)
                                          (NStr (normalize "Action "))) [2; 5; 1])
  ∧ filter (λ i, NInt i ∈ Graph.movie_set (mg_Graph Sample.two_films)
                            (NStr (normalize "Action "))) [2; 5; 1] = [1].
Proof.
  assert (Graph.has_node (mg_Graph Sample.two_films) (NStr (normalize "Action ")) = true)
    as Hn by (vm_compute; reflexivity).
  split; [exact two_films_wf|]. split; [exact Hn|].
  split; [eexists; split; vm_compute; reflexivity|].
  split; [|vm_compute; reflexivity].
  exact (filter_movies_by_person_any_label Sample.two_films "Action " [2; 5; 1]
           two_films_wf Hn).
Defined.

Lemma all_paths_query_hop_relations_witness :
  Graph.wf (mg_Graph Sample.two_films)
  ∧ all_paths_query Sample.two_films (PStr "jane doe") (PStr "john roe") 1
    = Ok Sample.jane_john_paths
  ∧ Forall (hop_relations_read (mg_Graph Sample.two_films)) Sample.jane_john_paths.
Proof.
  assert (all_paths_query Sample.two_films (PStr "jane doe") (PStr "john roe") 1
          = Ok Sample.jane_john_paths) as Hq by (vm_compute; reflexivity).
  split; [exact two_films_wf|]. split; [exact Hq|].
  exact (all_paths_query_hop_relations Sample.two_films _ _ 1 _ two_films_wf Hq).
Defined.

Lemma query_movie_id_found_or_none_witness :
  MovieGraph_init [Sample.test_film; Sample.second_film; Sample.test_film]
    = Ok Sample.two_films
  ∧ query_movie_id Sample.two_films (PInt 7) = Ok None
  ∧ QueryMovieIDTool_forward Sample.two_films (PInt 7) = Ok (MovieNotFound (PInt 7))
  ∧ ∃ a, query_movie_id Sample.two_films (PInt 1) = Ok (Some a)
         ∧ QueryMovieIDTool_forward Sample.two_films (PInt 1) = Ok (MovieData a).
Proof.
  split; [exact two_films_init|].
  destruct (query_movie_id_found_or_none
              [Sample.test_film; Sample.second_film; Sample.test_film] Sample.two_films 7)
    as (Hq7 & _ & Ht7).
  destruct (query_movie_id_found_or_none
              [Sample.test_film; Sample.second_film; Sample.test_film] Sample.two_films 1)
    as (Hq1 & _ & Ht1).
  specialize (Ht7 two_films_init). specialize (Ht1 two_films_init).
  destruct (alist_get (NInt 7) (g_node (mg_Graph Sample.two_films))) as [a7|] eqn:E7;
    [vm_compute in E7; discriminate E7|].
  destruct (alist_get (NInt 1) (g_node (mg_Graph Sample.two_films))) as [a1|] eqn:E1;
    [|vm_compute in E1; discriminate E1].
  split; [exact Hq7|]. split; [exact Ht7|]. exists a1. split; [exact Hq1|exact Ht1].
Defined.

(** ** Instances of the further properties *)

Lemma ingest_first_dated_rows_witness :
  MovieGraph_init Sample2.joined = Ok Sample.two_films
  ∧ (∀ r, r ∈ movies_df Sample.two_films ↔
          first_of_id Sample2.joined r ∧ is_Some (r_release_date r))
  ∧ NoDup (r_id <$> movies_df Sample.two_films)
  ∧ movies_df Sample.two_films `sublist_of` Sample2.joined.
Proof.
  split; [exact two_films_init|].
  exact (ingest_first_dated_rows Sample2.joined Sample.two_films two_films_init).
Defined.


Lemma built_graph_edges_paired_witness :
  MovieGraph_init Sample2.joined = Ok Sample.two_films
  ∧ Graph.has_rel_edge (mg_Graph Sample.two_films) (NInt 1) (NStr "john roe")
      "MOVIE_HAS_DIRECTOR"
  ∧ ∃ back, inverse_relation "MOVIE_HAS_DIRECTOR" = Some back
            ∧ Graph.has_rel_edge (mg_Graph Sample.two_films) (NStr "john roe") (NInt 1) back.
Proof.
  assert (Graph.has_rel_edge (mg_Graph Sample.two_films) (NInt 1) (NStr "john roe")
            "MOVIE_HAS_DIRECTOR") as Hedge.
  { exists ["MOVIE_HAS_DIRECTOR"]. split; [vm_compute; reflexivity|apply list_elem_of_here]. }
  split; [exact two_films_init|]. split; [exact Hedge|].
  exact (built_graph_edges_paired Sample2.joined Sample.two_films _ _ _ two_films_init Hedge).
Defined.


Lemma built_graph_labels_by_type_witness :
  MovieGraph_init Sample2.joined = Ok Sample.two_films
  ∧ alist_get (NStr "drama") (g_node (mg_Graph Sample.two_films))
    = Some (label_attrs "genre")
  ∧ (label (label_attrs "genre") = Some "date"
     ∨ label (label_attrs "genre") = Some "genre"
     ∨ label (label_attrs "genre") = Some "person").
Proof.
  assert (alist_get (NStr "drama") (g_node (mg_Graph Sample.two_films))
          = Some (label_attrs "genre")) as Hget by (vm_compute; reflexivity).
  split; [exact two_films_init|]. split; [exact Hget|].
  exact (built_graph_labels_by_type Sample2.joined Sample.two_films (NStr "drama") _
           two_films_init Hget).
Defined.



Lemma built_graph_connected_sym_witness :
  MovieGraph_init Sample2.joined = Ok Sample.two_films
  ∧ (Graph.has_edge (mg_Graph Sample.two_films) (NInt 1) (NStr "action")
     ↔ Graph.has_edge (mg_Graph Sample.two_films) (NStr "action") (NInt 1))
  ∧ (Graph.connected (mg_Graph Sample.two_films) (NInt 1) (NStr "action")
     ↔ Graph.connected (mg_Graph Sample.two_films) (NStr "action") (NInt 1)).
Proof.
  split; [exact two_films_init|].
  exact (built_graph_connected_sym Sample2.joined Sample.two_films (NInt 1) (NStr "action")
           two_films_init).
Defined.




Lemma shortest_path_query_shortest_witness :
  Graph.wf (mg_Graph Sample.two_films)
  ∧ Graph.has_node (mg_Graph Sample.two_films) (NStr "1999") = true
  ∧ Graph.has_node (mg_Graph Sample.two_films) (NStr "2001") = true
  ∧ ((∃ pd rest,
        shortest_path_query Sample.two_films (PStr "1999") (PStr "2001")
          = Some (Ok (Some pd))
        ∧ hn_node <$> pd = NStr "1999" :: rest
        ∧ shortest_walk (mg_Graph Sample.two_films) (NStr "1999") (NStr "2001") rest)
     ∨ (shortest_path_query Sample.two_films (PStr "1999") (PStr "2001") = Some (Ok None)
        ∧ ¬ Graph.connected (mg_Graph Sample.two_films) (NStr "1999") (NStr "2001"))).
Proof.
  assert (Graph.has_node (mg_Graph Sample.two_films) (NStr "1999") = true) as HA
    by (vm_compute; reflexivity).
  assert (Graph.has_node (mg_Graph Sample.two_films) (NStr "2001") = true) as HB
    by (vm_compute; reflexivity).
  split; [exact two_films_wf|]. split; [exact HA|]. split; [exact HB|].
  exact (shortest_path_query_shortest Sample.two_films (NStr "1999") (NStr "2001")
           two_films_wf HA HB).
Defined.

Lemma shortest_path_query_both_ways_witness :
  MovieGraph_init Sample2.joined = Ok Sample.two_films
  ∧ Graph.has_node (mg_Graph Sample.two_films) (NStr "1999") = true
  ∧ Graph.has_node (mg_Graph Sample.two_films) (NStr "john roe") = true
  ∧ ((∃ pd pd',
        shortest_path_query Sample.two_films (PStr "1999") (PStr "john roe")
          = Some (Ok (Some pd))
        ∧ shortest_path_query Sample.two_films (PStr "john roe") (PStr "1999")
          = Some (Ok (Some pd'))
        ∧ length pd = length pd')
     ∨ (shortest_path_query Sample.two_films (PStr "1999") (PStr "john roe")
          = Some (Ok None)
        ∧ shortest_path_query Sample.two_films (PStr "john roe") (PStr "1999")
          = Some (Ok None))).
Proof.
  assert (Graph.has_node (mg_Graph Sample.two_films) (NStr "1999") = true) as HA
    by (vm_compute; reflexivity).
  assert (Graph.has_node (mg_Graph Sample.two_films) (NStr "john roe") = true) as HB
    by (vm_compute; reflexivity).
  split; [exact two_films_init|]. split; [exact HA|]. split; [exact HB|].
  exact (shortest_path_query_both_ways Sample2.joined Sample.two_films (NStr "1999")
           (NStr "john roe") two_films_init HA HB).
Defined.



Lemma build_index_batches_partition_witness :
  0 < 2
  ∧ num_batches (length Sample2.texts) 2 = Ok 2%nat
  ∧ batches Sample2.texts 2 2 = [[PStr "a"; PStr "b"]; [PStr "c"]]
  ∧ encode_batches Sample2.encode_batch Sample2.assign_rows Sample2.texts 2 2
      [PNone; PNone; PNone]
    = foldlM (λ embeddings (b : nat * list pyval),
                batch_embeddings ← Sample2.encode_batch b.2;
                Sample2.assign_rows embeddings (batch_bounds (length Sample2.texts) 2 b.1).1
                  (batch_bounds (length Sample2.texts) 2 b.1).2 batch_embeddings)
        [PNone; PNone; PNone] (zip (seq 0 2) (batches Sample2.texts 2 2))
  ∧ concat (batches Sample2.texts 2 2) = Sample2.texts
  ∧ Forall (λ batch, (0 < length batch ≤ Z.to_nat 2)%nat) (batches Sample2.texts 2 2)
  ∧ num_batches (length Sample2.texts) 0 = Raise (OtherError "ZeroDivisionError").
Proof.
  assert (0 < 2) as Hpos by lia.
  assert (num_batches (length Sample2.texts) 2 = Ok 2%nat) as Hcount
    by (vm_compute; reflexivity).
  split; [exact Hpos|]. split; [exact Hcount|]. split; [vm_compute; reflexivity|].
  exact (build_index_batches_partition Sample2.encode_batch Sample2.assign_rows
           Sample2.texts 2 2 [PNone; PNone; PNone] Hpos Hcount).
Defined.

Lemma semantic_search_after_build_witness :
  build_index (Ok 1) Sample2.zeros Sample2.encode_batch Sample2.assign_rows
    Sample2.make_index Sample2.write_files Sample2.fresh Sample2.table 64
    = Ok Sample2.built_index
  ∧ NoDup (r_id <$> Sample2.table)
  ∧ FaissTool_forward Sample2.encode Sample2.index_search
      (faiss_state Sample2.built_index) Sample2.table "space adventure" 2
    = Ok [Item (json_of_row Sample.second_film); Item (json_of_row Sample.test_film)]
  ∧ ∃ ix, index (faiss_state Sample2.built_index) = Some ix
          ∧ ∀ q k emb labels,
              Sample2.encode ("query: " +:+ q) = Ok emb →
              Sample2.index_search ix emb k = Ok labels →
              FaissTool_forward Sample2.encode Sample2.index_search
                (faiss_state Sample2.built_index) Sample2.table q k
              = match mapM (label_row Sample2.table) labels with
                | Some rows => Ok ((λ r, Item (json_of_row r)) <$> rows)
                | None => Ok [ErrorRec KeyError]
                end.
Proof.
  assert (build_index (Ok 1) Sample2.zeros Sample2.encode_batch Sample2.assign_rows
            Sample2.make_index Sample2.write_files Sample2.fresh Sample2.table 64
          = Ok Sample2.built_index) as Hbuild by (vm_compute; reflexivity).
  assert (NoDup (r_id <$> Sample2.table)) as Hnd
    by (refine (bool_decide_eq_true_1 _ _); vm_compute; reflexivity).
  split; [exact Hbuild|]. split; [exact Hnd|]. split; [vm_compute; reflexivity|].
  exact (semantic_search_after_build Sample2.encode Sample2.index_search (Ok 1)
           Sample2.zeros Sample2.encode_batch Sample2.assign_rows Sample2.make_index
           Sample2.write_files Sample2.fresh Sample2.built_index Sample2.table 64
           Hbuild Hnd).
Defined.


Lemma agent_holds_graph_and_index_witness :
  ∃ a, Sample2.agent_init "intfloat/e5-base-v2" true = Ok a
       ∧ Graph.wf (mg_Graph (movie_graph a))
       ∧ (∃ ix, index (faiss_state (movie_faiss a)) = Some ix)
       ∧ (true = true →
          index_to_id (faiss_state (movie_faiss a))
          = enumerate_ids (r_id <$> movies_df (movie_graph a))).
Proof.
  exists {| movie_graph := Sample.two_films; movie_faiss := Sample2.built_index |}.
  assert (Sample2.agent_init "intfloat/e5-base-v2" true
          = Ok {| movie_graph := Sample.two_films; movie_faiss := Sample2.built_index |})
    as Hinit by (vm_compute; reflexivity).
  split; [exact Hinit|].
  exact (agent_holds_graph_and_index (λ _, Ok ()) (Ok 1) Sample2.zeros Sample2.encode_batch
           Sample2.assign_rows Sample2.make_index Sample2.write_files (λ _, false)
           (λ _, Raise (OtherError "no file")) (λ _, Raise (OtherError "no file"))
           (Ok Sample2.joined) (Ok ()) (λ ix, Z.of_nat (length ix))
           "intfloat/e5-base-v2" true _ Hinit).
Defined.

Lemma agent_needs_index_files_witness :
  ((λ _ : string, false) (split_last "/" "intfloat/e5-base-v2" +:+ "_faiss_index.bin") = false
   ∨ (λ _ : string, false) (split_last "/" "intfloat/e5-base-v2" +:+ "_mapping.pkl") = false)
  ∧ split_last "/" "intfloat/e5-base-v2" = "e5-base-v2"
  ∧ ∃ e, Sample2.agent_init "intfloat/e5-base-v2" false = Raise e.
Proof.
  assert ((λ _ : string, false) (split_last "/" "intfloat/e5-base-v2" +:+ "_faiss_index.bin")
            = false
          ∨ (λ _ : string, false) (split_last "/" "intfloat/e5-base-v2" +:+ "_mapping.pkl")
            = false) as Hfiles by (left; reflexivity).
  split; [exact Hfiles|]. split; [vm_compute; reflexivity|].
  exact (agent_needs_index_files (λ _, Ok ()) (Ok 1) Sample2.zeros Sample2.encode_batch
           Sample2.assign_rows Sample2.make_index Sample2.write_files (λ _, false)
           (λ _, Raise (OtherError "no file")) (λ _, Raise (OtherError "no file"))
           (Ok Sample2.joined) (Ok ()) (λ ix, Z.of_nat (length ix))
           "intfloat/e5-base-v2" Hfiles).
Defined.

Lemma nearest_graph_tool_paths_witness :
  Graph.wf (mg_Graph Sample.two_films)
  ∧ Graph.has_node (mg_Graph Sample.two_films) (NStr "jane doe") = true
  ∧ Graph.has_node (mg_Graph Sample.two_films) (NInt 2) = true
  ∧ ∃ result,
      NearestGraphTool_forward Sample.two_films (PStr "jane doe") (PInt 2)
        = Ok (Item <$> result)
      ∧ (∀ p, p ∈ map (fmap pn_node) result ↔
              Graph.simple_path (mg_Graph Sample.two_films) (NStr "jane doe") (NInt 2) p
              ∧ (length p ≤ 4)%nat)
      ∧ Forall (hops_read (mg_Graph Sample.two_films)) result.
Proof.
  assert (Graph.has_node (mg_Graph Sample.two_films) (NStr "jane doe") = true) as HA
    by (vm_compute; reflexivity).
  assert (Graph.has_node (mg_Graph Sample.two_films) (NInt 2) = true) as HB
    by (vm_compute; reflexivity).
  split; [exact two_films_wf|]. split; [exact HA|]. split; [exact HB|].
  exact (nearest_graph_tool_paths Sample.two_films (NStr "jane doe") (NInt 2)
           two_films_wf HA HB).
Defined.

Lemma query_graph_tool_errors_witness :
  MovieGraph_init Sample2.joined = Ok Sample.two_films
  ∧ Graph.has_node (mg_Graph Sample.two_films) (NInt 7) = false
  ∧ (if Graph.has_node (mg_Graph Sample.two_films) (NInt 7)
     then ∃ rec, QueryGraphTool_forward Sample.two_films (PInt 7) None = Ok [Item rec]
     else QueryGraphTool_forward Sample.two_films (PInt 7) None
          = Ok [ErrorRec AttributeError]).
Proof.
  split; [exact two_films_init|]. split; [vm_compute; reflexivity|].
  exact (query_graph_tool_errors Sample2.joined Sample.two_films (PInt 7) None
           two_films_init).
Defined.

